(** * Doubly linked list of the container library (yrgo::container::List)

    A shallow embedding of the list class template, its nodes and its
    iterators, over an explicit model of the node heap, followed by the
    verification of its specification.

    - Pointers are machine addresses ([Z]); [nullptr] is address 0.
    - The heap maps the addresses of the live nodes to their contents.
      Reading or writing through a null pointer or through the address of
      a node that is not live is undefined behaviour in the source; the
      embedding makes it the explicit outcome [Fault].
    - [size_t] is 16 bits wide on the target (ATmega328P); the arithmetic
      on [size_] wraps around modulo 65536.
      The proofs use of the modulus only that it is positive and that
      every address lies below it.
    - Allocation is driven by an oracle: the list of the answers the
      allocator is going to give.  Every behaviour of [malloc] (a fresh
      address or a null pointer) is the behaviour of some oracle.
    - A list object is the record of its three members; a member function
      takes the object and returns it with its result.  Several lists
      live in one memory.
    - [ConstIterator] repeats [Iterator] member by member, without write
      access; the one record [Iterator] stands for both.
    - Loops are given fuel; [OutOfFuel] is kept apart from [Fault], and
      the loops of the list are proved never to reach it. *)

From stdpp Require Import base numbers option list gmap fin_maps fin_map_dom.

Open Scope Z_scope.

#[local] Set Warnings "-clear-no-such-hyp".

(** ** Machine model *)

Abbreviation ptr := Z (only parsing).
Definition nullptr : ptr := 0.

(** Number of values of [size_t], also the number of addresses. *)
Definition size_modulus : Z := 65536.

(** Unsigned wrap-around of [size_t] arithmetic. *)
Definition wrap (z : Z) : Z := z mod size_modulus.

(** Outcome of running a piece of the program. *)
Inductive result (A : Type) : Type :=
| Ok (a : A)
| Fault
| OutOfFuel.
Arguments Ok {A} a.
Arguments Fault {A}.
Arguments OutOfFuel {A}.

Section ListModel.

Variable T : Type.

(** struct Node *)
Record Node : Type := mkNode {
  previous : ptr;
  next : ptr;
  data : T
}.

(** The node heap together with the future answers of the allocator. *)
Record Mem : Type := mkMem {
  nodes : gmap Z Node;
  oracle : list ptr
}.

(** State and error monad of the embedding. *)
Definition M (A : Type) : Type := Mem -> result (A * Mem).

Definition ret {A : Type} (a : A) : M A := fun m => Ok (a, m).

Definition bind {A B : Type} (c : M A) (k : A -> M B) : M B :=
  fun m =>
    match c m with
    | Ok (a, m') => k a m'
    | Fault => Fault
    | OutOfFuel => OutOfFuel
    end.

Notation "x <- c ;; k" := (bind c (fun x => k))
  (at level 100, c at next level, right associativity).
Notation "c ;;; k" := (bind c (fun _ => k))
  (at level 100, right associativity).

(** *** Node accesses *)

(** Reading the node at [p]. *)
Definition load (p : ptr) : M Node := fun m =>
  if decide (p = nullptr) then Fault
  else match nodes m !! p with
       | Some n => Ok (n, m)
       | None => Fault
       end.

(** Overwriting the node at [p]. *)
Definition store (p : ptr) (n : Node) : M unit := fun m =>
  if decide (p = nullptr) then Fault
  else match nodes m !! p with
       | Some _ => Ok (tt, mkMem (<[p := n]> (nodes m)) (oracle m))
       | None => Fault
       end.

(** [p->previous], [p->next], [p->data] *)
Definition get_previous (p : ptr) : M ptr := n <- load p ;; ret (previous n).
Definition get_next (p : ptr) : M ptr := n <- load p ;; ret (next n).
Definition get_data (p : ptr) : M T := n <- load p ;; ret (data n).

(** [p->previous = q], [p->next = q] *)
Definition set_previous (p q : ptr) : M unit :=
  n <- load p ;; store p (mkNode q (next n) (data n)).
Definition set_next (p q : ptr) : M unit :=
  n <- load p ;; store p (mkNode (previous n) q (data n)).

(** [p->data = v] *)
Definition set_data (p : ptr) (v : T) : M unit :=
  n <- load p ;; store p (mkNode (previous n) (next n) v).

(** Modelled from the spec: [detail::New<Node>()], the allocation of the
    memory of one node.  The header of the container library only declares
    [New<T>(size)], which is [malloc(sizeof(T) * size)]; the call without
    argument is taken as the allocation of one node.  The allocator
    answers with the next address of the oracle when that address is a
    non-null 16-bit address at which no node lives, and with a null
    pointer otherwise (also when the oracle is exhausted). *)
Definition detail_New : M ptr := fun m =>
  match oracle m with
  | [] => Ok (nullptr, m)
  | a :: rest =>
      if decide (0 < a < size_modulus /\ nodes m !! a = None)
      then Ok (a, mkMem (nodes m) rest)
      else Ok (nullptr, mkMem (nodes m) rest)
  end.

(** [detail::Delete<Node>(self)]: [free(self)].  Freeing a null pointer
    does nothing; freeing the address of no live node is undefined. *)
Definition detail_Delete (self : ptr) : M unit := fun m =>
  if decide (self = nullptr) then Ok (tt, m)
  else match nodes m !! self with
       | Some _ => Ok (tt, mkMem (delete self (nodes m)) (oracle m))
       | None => Fault
       end.

(** Node::New *)
Definition Node_New (data : T) : M ptr :=
  self <- detail_New ;;
  if decide (self = nullptr) then ret nullptr
  else fun m =>
    Ok (self, mkMem (<[self := mkNode nullptr nullptr data]> (nodes m)) (oracle m)).

(** Node::Delete *)
Definition Node_Delete (self : ptr) : M unit := detail_Delete self.

(** *** Iterators *)

(** class Iterator *)
Record Iterator : Type := mkIterator { node_ : ptr }.

(** Iterator::Address *)
Definition Address (it : Iterator) : ptr := node_ it.

(** Node::Get *)
Definition Node_Get (iterator : Iterator) : ptr := Address iterator.

(** Modelled from the spec: [Iterator::This()], which [Remove] calls and
    the class does not declare; it is the node the iterator references,
    as [Node::Get] is for [Insert]. *)
Definition This (it : Iterator) : ptr := node_ it.

(** Iterator::operator++ (prefix and postfix) *)
Definition Iterator_incr (it : Iterator) : M Iterator :=
  p <- get_next (node_ it) ;; ret (mkIterator p).

(** Iterator::operator-- (prefix and postfix) *)
Definition Iterator_decr (it : Iterator) : M Iterator :=
  p <- get_previous (node_ it) ;; ret (mkIterator p).

(** The loop of [operator+=], by the number of iterations left. *)
Fixpoint Iterator_add_loop (n : nat) (it : Iterator) : M Iterator :=
  match n with
  | O => ret it
  | S n' => it' <- Iterator_incr it ;; Iterator_add_loop n' it'
  end.

(** Iterator::operator+= *)
Definition Iterator_add (num_increments : Z) (it : Iterator) : M Iterator :=
  Iterator_add_loop (Z.to_nat num_increments) it.

(** The loop of [operator-=], by the number of iterations left. *)
Fixpoint Iterator_sub_loop (n : nat) (it : Iterator) : M Iterator :=
  match n with
  | O => ret it
  | S n' => it' <- Iterator_decr it ;; Iterator_sub_loop n' it'
  end.

(** Iterator::operator-= *)
Definition Iterator_sub (num_increments : Z) (it : Iterator) : M Iterator :=
  Iterator_sub_loop (Z.to_nat num_increments) it.

(** Iterator::operator== and operator!= *)
Definition Iterator_eq (a b : Iterator) : bool := bool_decide (node_ a = node_ b).
Definition Iterator_ne (a b : Iterator) : bool := negb (Iterator_eq a b).

(** Iterator dereference (read access) *)
Definition Iterator_deref (it : Iterator) : M T := get_data (node_ it).

(** Iterator dereference (write access): the assignment of [value]
    through the reference that the dereference returns. *)
Definition Iterator_assign (it : Iterator) (value : T) : M unit :=
  set_data (node_ it) value.

(** *** The list *)

(** class List: [first_], [last_] and [size_] *)
Record List : Type := mkList {
  first_ : ptr;
  last_ : ptr;
  size_ : Z
}.

(** List(void): the default member initialisers. *)
Definition List_new : List := mkList nullptr nullptr 0.

Definition Size (this : List) : Z := size_ this.
Definition Empty (this : List) : bool := bool_decide (size_ this = 0).
Definition begin (this : List) : Iterator := mkIterator (first_ this).
Definition end_ : Iterator := mkIterator nullptr.
Definition last (this : List) : Iterator := mkIterator (last_ this).

(** The loop of [RemoveAllNodes]. *)
Fixpoint RemoveAllNodes_loop (fuel : nat) (i : Iterator) : M unit :=
  match fuel with
  | O => fun _ => OutOfFuel
  | S fuel' =>
      if Iterator_ne i end_ then
        nxt <- get_next (Node_Get i) ;;
        Node_Delete (Node_Get i) ;;;
        RemoveAllNodes_loop fuel' (mkIterator nxt)
      else ret tt
  end.

(** List::RemoveAllNodes.  Every iteration frees a live node, so one more
    iteration than there are live nodes is never needed. *)
Definition RemoveAllNodes (this : List) : M unit := fun m =>
  RemoveAllNodes_loop (S (size (nodes m))) (begin this) m.

(** List::Clear *)
Definition Clear (this : List) : M List :=
  RemoveAllNodes this ;;; ret (mkList nullptr nullptr 0).

(** List::PushFront *)
Definition PushFront (value : T) (this : List) : M (bool * List) :=
  node1 <- Node_New value ;;
  if decide (node1 = nullptr) then ret (false, this)
  else if decide (size_ this = 0) then
    ret (true, mkList node1 node1 (wrap (size_ this + 1)))
  else
    let node2 := first_ this in
    set_next node1 node2 ;;;
    set_previous node2 node1 ;;;
    ret (true, mkList node1 (last_ this) (wrap (size_ this + 1))).

(** List::PushBack *)
Definition PushBack (value : T) (this : List) : M (bool * List) :=
  node2 <- Node_New value ;;
  if decide (node2 = nullptr) then ret (false, this)
  else if decide (size_ this = 0) then
    ret (true, mkList node2 node2 (wrap (size_ this + 1)))
  else
    let node1 := last_ this in
    set_next node1 node2 ;;;
    set_previous node2 node1 ;;;
    ret (true, mkList (first_ this) node2 (wrap (size_ this + 1))).

(** List::Insert *)
Definition Insert (iterator : Iterator) (value : T) (this : List)
  : M (bool * List) :=
  if Iterator_eq iterator (mkIterator nullptr) then ret (false, this)
  else
    node2 <- Node_New value ;;
    if decide (node2 = nullptr) then ret (false, this)
    else
      node1 <- get_previous (Node_Get iterator) ;;
      node3 <- get_next node1 ;;
      set_next node1 node2 ;;;
      set_previous node2 node1 ;;;
      set_next node2 node3 ;;;
      set_previous node3 node2 ;;;
      ret (true, mkList (first_ this) (last_ this) (wrap (size_ this + 1))).

(** List::PopFront *)
Definition PopFront (this : List) : M List :=
  if decide (size_ this <= 1) then Clear this
  else
    let node1 := first_ this in
    node2 <- get_next node1 ;;
    set_previous node2 nullptr ;;;
    Node_Delete node1 ;;;
    ret (mkList node2 (last_ this) (wrap (size_ this - 1))).

(** List::PopBack *)
Definition PopBack (this : List) : M List :=
  if decide (size_ this <= 1) then Clear this
  else
    let node2 := last_ this in
    node1 <- get_previous node2 ;;
    set_next node1 nullptr ;;;
    Node_Delete node2 ;;;
    ret (mkList (first_ this) node1 (wrap (size_ this - 1))).

(** List::Remove *)
Definition Remove (iterator : Iterator) (this : List) : M (bool * List) :=
  if Iterator_eq iterator (mkIterator nullptr) then ret (false, this)
  else
    let node2 := This iterator in
    node1 <- get_previous node2 ;;
    node3 <- get_next node2 ;;
    set_next node1 node3 ;;;
    set_previous node3 node1 ;;;
    Node_Delete node2 ;;;
    ret (true, mkList (first_ this) (last_ this) (wrap (size_ this - 1))).

(** The first loop of [Resize]: growth by [PushBack]. *)
Fixpoint Resize_grow (fuel : nat) (new_size : Z) (start_value : T)
    (this : List) : M (bool * List) :=
  match fuel with
  | O => fun _ => OutOfFuel
  | S fuel' =>
      if decide (size_ this < new_size) then
        r <- PushBack start_value this ;;
        if negb (fst r) then ret (false, snd r)
        else Resize_grow fuel' new_size start_value (snd r)
      else ret (true, this)
  end.

(** The second loop of [Resize]: shrinking by [PopFront]. *)
Fixpoint Resize_shrink (fuel : nat) (new_size : Z) (this : List) : M List :=
  match fuel with
  | O => fun _ => OutOfFuel
  | S fuel' =>
      if decide (size_ this > new_size) then
        this' <- PopFront this ;;
        Resize_shrink fuel' new_size this'
      else ret this
  end.

(** List::Resize.  The first loop adds one to [size_] in every iteration
    and the second loop takes at least one off, which bounds the number of
    iterations by the distance between [size_] and [new_size]. *)
Definition Resize (new_size : Z) (start_value : T) (this : List)
  : M (bool * List) :=
  r <- Resize_grow (S (Z.to_nat (new_size - size_ this))) new_size start_value this ;;
  if negb (fst r) then ret (false, snd r)
  else
    this' <- Resize_shrink (S (Z.to_nat (size_ (snd r) - new_size))) new_size (snd r) ;;
    ret (true, this').

(** Modelled from the spec: [source[i]] for an index [i] of type [size_t],
    which [Copy] uses and the class does not declare (its subscript
    operators take iterators); it is the element at index [i], reached
    from [begin()] by [i] increments. *)
Definition List_at (i : Z) (source : List) : M T :=
  it <- Iterator_add i (begin source) ;; Iterator_deref it.

(** The loop of [Copy(List&)]. *)
Fixpoint Copy_loop (fuel : nat) (i : Z) (source this : List) : M (bool * List) :=
  match fuel with
  | O => fun _ => OutOfFuel
  | S fuel' =>
      if decide (i < Size source) then
        v <- List_at i source ;;
        r <- PushBack v this ;;
        if negb (fst r) then ret (false, snd r)
        else Copy_loop fuel' (wrap (i + 1)) source (snd r)
      else ret (true, this)
  end.

(** List::Copy(List&) *)
Definition Copy (source this : List) : M (bool * List) :=
  this' <- Clear this ;;
  Copy_loop (S (Z.to_nat (Size source))) 0 source this'.

(** List(List& source): the copy constructor.  The result of [Copy] is
    dropped. *)
Definition List_copy (source : List) : M List :=
  r <- Copy source List_new ;; ret (snd r).

(** Iterating from [begin()] to [end()] and collecting the values:
    every node between the two is dereferenced, then the iterator is
    incremented. *)
Fixpoint iterate_loop (fuel : nat) (i : Iterator) : M (list T) :=
  match fuel with
  | O => fun _ => OutOfFuel
  | S fuel' =>
      if Iterator_ne i end_ then
        v <- Iterator_deref i ;;
        i' <- Iterator_incr i ;;
        vs <- iterate_loop fuel' i' ;;
        ret (v :: vs)
      else ret []
  end.


(** Iterating over the whole list.  A walk that visits more nodes than
    are live has entered a cycle and never ends. *)
Definition iterate (this : List) : M (list T) := fun m =>
  iterate_loop (S (size (nodes m))) (begin this) m.

(** A sequence of [PushBack] calls, with the result of every call. *)
Fixpoint PushBack_all (vs : list T) (this : List) : M (list bool * List) :=
  match vs with
  | [] => ret ([], this)
  | v :: vs' =>
      r <- PushBack v this ;;
      rs <- PushBack_all vs' (snd r) ;;
      ret (fst r :: fst rs, snd rs)
  end.

(** A sequence of [PushFront] calls, with the result of every call. *)
Fixpoint PushFront_all (vs : list T) (this : List) : M (list bool * List) :=
  match vs with
  | [] => ret ([], this)
  | v :: vs' =>
      r <- PushFront v this ;;
      rs <- PushFront_all vs' (snd r) ;;
      ret (fst r :: fst rs, snd rs)
  end.

(** The values of [vs] whose push succeeded, given the results [bs]. *)
Fixpoint pushed (vs : list T) (bs : list bool) : list T :=
  match vs, bs with
  | v :: vs', b :: bs' => if b then v :: pushed vs' bs' else pushed vs' bs'
  | _, _ => []
  end.

(** A mutation of a list by its client.  A position is the iterator that
    [begin()] followed by [+= i] gives. *)
Inductive mutation : Type :=
| MPushFront (value : T)
| MPushBack (value : T)
| MPopFront
| MPopBack
| MClear
| MResize (new_size : nat) (start_value : T)
| MInsert (i : nat) (value : T)
| MRemove (i : nat)
| MAssign (i : nat) (value : T).

Definition mutate (op : mutation) (this : List) : M List :=
  match op with
  | MPushFront value => r <- PushFront value this ;; ret (snd r)
  | MPushBack value => r <- PushBack value this ;; ret (snd r)
  | MPopFront => PopFront this
  | MPopBack => PopBack this
  | MClear => Clear this
  | MResize new_size start_value =>
      r <- Resize (Z.of_nat new_size) start_value this ;; ret (snd r)
  | MInsert i value =>
      it <- Iterator_add (Z.of_nat i) (begin this) ;;
      r <- Insert it value this ;; ret (snd r)
  | MRemove i =>
      it <- Iterator_add (Z.of_nat i) (begin this) ;;
      r <- Remove it this ;; ret (snd r)
  | MAssign i value =>
      it <- Iterator_add (Z.of_nat i) (begin this) ;;
      Iterator_assign it value ;;; ret this
  end.

Fixpoint mutate_all (ops : list mutation) (this : List) : M List :=
  match ops with
  | [] => ret this
  | op :: ops' => this' <- mutate op this ;; mutate_all ops' this'
  end.

(** The number of successful pushes among the results [bs]. *)
Fixpoint successes (bs : list bool) : Z :=
  match bs with
  | [] => 0
  | b :: bs' => (if b then 1 else 0) + successes bs'
  end.

(** ** The invariant of the specification *)

(** Following the link [link] from the node at [p], [n] times. *)
Fixpoint follow (link : Node -> ptr) (h : gmap Z Node) (n : nat) (p : ptr)
  : option ptr :=
  match n with
  | O => Some p
  | S n' =>
      if decide (p = nullptr) then None
      else match h !! p with
           | Some nd => follow link h n' (link nd)
           | None => None
           end
  end.

(** The size is 0 exactly when the head and tail links are null; from a
    size of 1 on the head has no previous node, the tail has no next node,
    the next links lead from the head to the tail in [size_ - 1] steps and
    the previous links lead back from the tail to the head in as many. *)
Definition list_invariant (m : Mem) (l : List) : Prop :=
  0 <= size_ l < size_modulus /\
  (size_ l = 0 <-> first_ l = nullptr /\ last_ l = nullptr) /\
  (1 <= size_ l ->
     (exists n, first_ l <> nullptr /\ nodes m !! first_ l = Some n /\
                previous n = nullptr) /\
     (exists n, last_ l <> nullptr /\ nodes m !! last_ l = Some n /\
                next n = nullptr) /\
     follow next (nodes m) (Z.to_nat (size_ l - 1)) (first_ l) = Some (last_ l) /\
     follow previous (nodes m) (Z.to_nat (size_ l - 1)) (last_ l) = Some (first_ l)).

(** ** Memory representation of a list *)

(** The cells of a list in order: node address and stored value. *)
Definition cells : Type := list (ptr * T).
Definition addrs (cs : cells) : list ptr := cs.*1.
Definition values (cs : cells) : list T := cs.*2.

(** [dseg h pp p cs q qn]: in the heap [h], the cells [cs] are doubly
    linked in this order; [p] is the address of the first one ([qn] when
    there is none), [q] the address of the last one ([pp] when there is
    none), the previous link of the first cell is [pp] and the next link
    of the last cell is [qn]. *)
Fixpoint dseg (h : gmap Z Node) (pp p : ptr) (cs : cells) (q qn : ptr) : Prop :=
  match cs with
  | [] => p = qn /\ pp = q
  | (a, v) :: cs' =>
      p = a /\ exists r, h !! a = Some (mkNode pp r v) /\ dseg h a r cs' q qn
  end.

(** Addresses a node of a list can have: non-null and 16 bits wide. *)
Definition valid_addr (a : ptr) : Prop := 0 < a < size_modulus.

(** [is_list m l cs]: the list object [l] owns exactly the cells [cs] in
    the memory [m]. *)
Definition is_list (m : Mem) (l : List) (cs : cells) : Prop :=
  dseg (nodes m) nullptr (first_ l) cs (last_ l) nullptr /\
  NoDup (addrs cs) /\
  Forall valid_addr (addrs cs) /\
  size_ l = Z.of_nat (length cs).

(** [evolves m cs m' cs']: from the memory [m], in which a list owns the
    cells [cs], to the memory [m'], in which it owns the cells [cs'], the
    list took new cells only at addresses that were free, and no live node
    outside of the list changed. *)
Definition evolves (m : Mem) (cs : cells) (m' : Mem) (cs' : cells) : Prop :=
  (forall a, a ∈ addrs cs' -> a ∈ addrs cs \/ nodes m !! a = None) /\
  (forall p, p ∉ addrs cs -> is_Some (nodes m !! p) -> nodes m' !! p = nodes m !! p).

(** The answer the allocator gives next. *)
Definition alloc_next (m : Mem) : ptr :=
  match oracle m with
  | [] => nullptr
  | a :: _ =>
      if decide (0 < a < size_modulus /\ nodes m !! a = None) then a else nullptr
  end.

(** Address of the cell at index [i], [qn] past the last cell. *)
Definition addr_at (cs : cells) (i : nat) (qn : ptr) : ptr :=
  match cs !! i with
  | Some (a, _) => a
  | None => qn
  end.

(** ** The remaining members of the class *)

(** ~List(void): the destructor. *)
Definition List_destroy (this : List) : M List := Clear this.

(** List(const size_t size, const T& start_value): the result of [Resize]
    is dropped. *)
Definition List_sized (size : Z) (start_value : T) : M List :=
  r <- Resize size start_value List_new ;; ret (snd r).

(** The loop of [Copy(const T (&values)[size])]; the array is the list of
    its elements, [size] their number. *)
Fixpoint Copy_values_loop (fuel : nat) (i : Z) (values : list T) (this : List)
  : M (bool * List) :=
  match fuel with
  | O => fun _ => OutOfFuel
  | S fuel' =>
      if decide (i < Z.of_nat (length values)) then
        match values !! Z.to_nat i with
        | Some v =>
            r <- PushBack v this ;;
            if negb (fst r) then ret (false, snd r)
            else Copy_values_loop fuel' (wrap (i + 1)) values (snd r)
        | None => fun _ => Fault
        end
      else ret (true, this)
  end.

(** List::Copy(const T (&values)[size]) *)
Definition Copy_values (values : list T) (this : List) : M (bool * List) :=
  this' <- Clear this ;;
  Copy_values_loop (S (length values)) 0 values this'.

(** List(const T (&values)[size]): the result of [Copy] is dropped. *)
Definition List_of_values (values : list T) : M List :=
  r <- Copy_values values List_new ;; ret (snd r).

(** List::operator[](Iterator&): the dereference of the iterator. *)
Definition List_subscript (this : List) (iterator : Iterator) : M T :=
  Iterator_deref iterator.

(** Assignment through the reference that [operator[]] returns. *)
Definition List_subscript_assign (this : List) (iterator : Iterator) (value : T)
  : M unit :=
  Iterator_assign iterator value.

(** Iterating from [last()] back to [end()] by decrements and collecting
    the values. *)
Fixpoint iterate_back_loop (fuel : nat) (i : Iterator) : M (list T) :=
  match fuel with
  | O => fun _ => OutOfFuel
  | S fuel' =>
      if Iterator_ne i end_ then
        v <- Iterator_deref i ;;
        i' <- Iterator_decr i ;;
        vs <- iterate_back_loop fuel' i' ;;
        ret (v :: vs)
      else ret []
  end.

Definition iterate_back (this : List) : M (list T) := fun m =>
  iterate_back_loop (S (size (nodes m))) (last this) m.

(** ** Accounting of the nodes *)

(** [accounts m cs m' cs']: from the memory [m], in which a list owns the
    cells [cs], to the memory [m'], in which it owns the cells [cs'], the
    new cells were free addresses, the cells that left the list are freed
    and every other address holds what it held. *)
Definition accounts (m : Mem) (cs : cells) (m' : Mem) (cs' : cells) : Prop :=
  (forall a, a ∈ addrs cs' -> a ∈ addrs cs \/ nodes m !! a = None) /\
  (forall p, p ∉ addrs cs' ->
     nodes m' !! p = if decide (p ∈ addrs cs) then None else nodes m !! p).

(** [can_allocate n m]: the next [n] answers of the allocator are
    distinct non-null addresses at which no node lives, so that [n]
    allocations in a row succeed. *)
Definition can_allocate (n : nat) (m : Mem) : Prop :=
  (n <= length (oracle m))%nat /\
  NoDup (take n (oracle m)) /\
  Forall (fun a => valid_addr a /\ nodes m !! a = None) (take n (oracle m)).

(** Address of the cell before index [i], [pp] before the first cell. *)
Definition prev_at (cs : cells) (i : nat) (pp : ptr) : ptr :=
  match i with
  | O => pp
  | S j => addr_at cs j pp
  end.

End ListModel.

Arguments load {T}.
Arguments store {T}.
Arguments get_previous {T}.
Arguments get_next {T}.
Arguments get_data {T}.
Arguments set_previous {T}.
Arguments set_next {T}.
Arguments set_data {T}.
Arguments detail_New {T}.
Arguments detail_Delete {T}.
Arguments Node_New {T}.
Arguments Node_Delete {T}.
Arguments Iterator_incr {T}.
Arguments Iterator_decr {T}.
Arguments Iterator_add_loop {T}.
Arguments Iterator_add {T}.
Arguments Iterator_sub_loop {T}.
Arguments Iterator_sub {T}.
Arguments Iterator_deref {T}.
Arguments Iterator_assign {T}.
Arguments RemoveAllNodes_loop {T}.
Arguments RemoveAllNodes {T}.
Arguments Clear {T}.
Arguments PushFront {T}.
Arguments PushBack {T}.
Arguments Insert {T}.
Arguments PopFront {T}.
Arguments PopBack {T}.
Arguments Remove {T}.
Arguments Resize_grow {T}.
Arguments Resize_shrink {T}.
Arguments Resize {T}.
Arguments List_at {T}.
Arguments Copy_loop {T}.
Arguments Copy {T}.
Arguments List_copy {T}.
Arguments iterate_loop {T}.
Arguments iterate {T}.
Arguments PushBack_all {T}.
Arguments PushFront_all {T}.
Arguments pushed {T}.
Arguments mutate {T}.
Arguments mutate_all {T}.
Arguments follow {T}.
Arguments list_invariant {T}.
Arguments addrs {T}.
Arguments values {T}.
Arguments dseg {T}.
Arguments is_list {T}.
Arguments evolves {T}.
Arguments alloc_next {T}.
Arguments mkNode {T}.
Arguments previous {T}.
Arguments next {T}.
Arguments data {T}.
Arguments mkMem {T}.
Arguments nodes {T}.
Arguments oracle {T}.
Arguments MPushFront {T}.
Arguments MPushBack {T}.
Arguments MPopFront {T}.
Arguments MPopBack {T}.
Arguments MClear {T}.
Arguments MResize {T}.
Arguments MInsert {T}.
Arguments MRemove {T}.
Arguments MAssign {T}.
Arguments addr_at {T}.
Arguments ret {T A}.
Arguments bind {T A B}.
Arguments List_destroy {T}.
Arguments List_sized {T}.
Arguments Copy_values_loop {T}.
Arguments Copy_values {T}.
Arguments List_of_values {T}.
Arguments List_subscript {T}.
Arguments List_subscript_assign {T}.
Arguments iterate_back_loop {T}.
Arguments iterate_back {T}.
Arguments accounts {T}.
Arguments can_allocate {T}.
Arguments prev_at {T}.

(** ** The scenarios of the specification, on lists of integers *)

(** A memory without nodes, in which six allocations succeed. *)
Definition m0 : Mem Z := mkMem ∅ [256; 264; 272; 280; 288; 296].

(** The list 1, 2, 3 as three calls of [PushBack] build it in [m0]. *)
Definition l123 : List := mkList 256 272 3.
Definition m123 : Mem Z :=
  mkMem (<[256 := mkNode 0 264 1]>
         (<[264 := mkNode 256 272 2]>
          (<[272 := mkNode 264 0 3]> ∅)))
        [280; 288; 296].
Definition cells123 : list (Z * Z) := [(256, 1); (264, 2); (272, 3)].

(** The same list in a memory in which every allocation fails. *)
Definition m123_exhausted : Mem Z := mkMem (nodes m123) [].

(** The list 1, 2, 3, 4 after one more [PushBack]. *)
Definition l1234 : List := mkList 256 280 4.
Definition m1234 : Mem Z :=
  mkMem (<[256 := mkNode 0 264 1]>
         (<[264 := mkNode 256 272 2]>
          (<[272 := mkNode 264 280 3]>
           (<[280 := mkNode 272 0 4]> ∅))))
        [288; 296].

(** Five nodes that hold 9, as [Resize] to 5 builds them in [m0]. *)
Definition l99999 : List := mkList 256 288 5.
Definition m99999 : Mem Z :=
  mkMem (<[256 := mkNode 0 264 9]>
         (<[264 := mkNode 256 272 9]>
          (<[272 := mkNode 264 280 9]>
           (<[280 := mkNode 272 288 9]>
            (<[288 := mkNode 280 0 9]> ∅)))))
        [296].

(** The list 3, 2, 1 as three calls of [PushFront] build it in [m0]. *)
Definition l321 : List := mkList 272 256 3.
Definition m321 : Mem Z :=
  mkMem (<[256 := mkNode 264 0 1]>
         (<[264 := mkNode 272 256 2]>
          (<[272 := mkNode 0 264 3]> ∅)))
        [280; 288; 296].

(** The list 1, 2, 3 in a memory whose allocator answers next with the
    address of the first node, once that node is freed. *)
Definition m123_reuse : Mem Z := mkMem (nodes m123) [256].

(** The list 2, 3 after a [PopFront] on 1, 2, 3. *)
Definition l23 : List := mkList 264 272 2.
Definition m23 : Mem Z :=
  mkMem (<[264 := mkNode 0 272 2]>
         (<[272 := mkNode 264 0 3]> ∅))
        [280; 288; 296].

(** The list 0, 1, 2, 3 after a [PushFront] of 0 on 1, 2, 3. *)
Definition l0123 : List := mkList 280 272 4.
Definition m0123 : Mem Z :=
  mkMem (<[280 := mkNode 0 256 0]>
         (<[256 := mkNode 280 264 1]>
          (<[264 := mkNode 256 272 2]>
           (<[272 := mkNode 264 0 3]> ∅))))
        [288; 296].

(** The list 1, 7, 2, 3 after an [Insert] of 7 before the node of 2. *)
Definition l1723 : List := mkList 256 272 4.
Definition m1723 : Mem Z :=
  mkMem (<[256 := mkNode 0 280 1]>
         (<[280 := mkNode 256 264 7]>
          (<[264 := mkNode 280 272 2]>
           (<[272 := mkNode 264 0 3]> ∅))))
        [288; 296].

(** * Verification *)

Section ListProofs.

Variable T : Type.

(** Inside this section the definitions of the model are used at the
    element type [T]. *)
#[local] Abbreviation Node := (@Node T).
#[local] Abbreviation Mem := (@Mem T).
#[local] Abbreviation ret := (@ret T).
#[local] Abbreviation bind := (@bind T).
#[local] Abbreviation load := (@load T).
#[local] Abbreviation store := (@store T).
#[local] Abbreviation get_previous := (@get_previous T).
#[local] Abbreviation get_next := (@get_next T).
#[local] Abbreviation get_data := (@get_data T).
#[local] Abbreviation set_previous := (@set_previous T).
#[local] Abbreviation set_next := (@set_next T).
#[local] Abbreviation set_data := (@set_data T).
#[local] Abbreviation detail_New := (@detail_New T).
#[local] Abbreviation detail_Delete := (@detail_Delete T).
#[local] Abbreviation Node_New := (@Node_New T).
#[local] Abbreviation Node_Delete := (@Node_Delete T).
#[local] Abbreviation Iterator_incr := (@Iterator_incr T).
#[local] Abbreviation Iterator_decr := (@Iterator_decr T).
#[local] Abbreviation Iterator_add_loop := (@Iterator_add_loop T).
#[local] Abbreviation Iterator_add := (@Iterator_add T).
#[local] Abbreviation Iterator_sub_loop := (@Iterator_sub_loop T).
#[local] Abbreviation Iterator_sub := (@Iterator_sub T).
#[local] Abbreviation Iterator_deref := (@Iterator_deref T).
#[local] Abbreviation Iterator_assign := (@Iterator_assign T).
#[local] Abbreviation RemoveAllNodes_loop := (@RemoveAllNodes_loop T).
#[local] Abbreviation RemoveAllNodes := (@RemoveAllNodes T).
#[local] Abbreviation Clear := (@Clear T).
#[local] Abbreviation PushFront := (@PushFront T).
#[local] Abbreviation PushBack := (@PushBack T).
#[local] Abbreviation Insert := (@Insert T).
#[local] Abbreviation PopFront := (@PopFront T).
#[local] Abbreviation PopBack := (@PopBack T).
#[local] Abbreviation Remove := (@Remove T).
#[local] Abbreviation Resize_grow := (@Resize_grow T).
#[local] Abbreviation Resize_shrink := (@Resize_shrink T).
#[local] Abbreviation Resize := (@Resize T).
#[local] Abbreviation List_at := (@List_at T).
#[local] Abbreviation Copy_loop := (@Copy_loop T).
#[local] Abbreviation Copy := (@Copy T).
#[local] Abbreviation List_copy := (@List_copy T).
#[local] Abbreviation iterate_loop := (@iterate_loop T).
#[local] Abbreviation iterate := (@iterate T).
#[local] Abbreviation PushBack_all := (@PushBack_all T).
#[local] Abbreviation PushFront_all := (@PushFront_all T).
#[local] Abbreviation pushed := (@pushed T).
#[local] Abbreviation mutation := (@mutation T).
#[local] Abbreviation mutate := (@mutate T).
#[local] Abbreviation mutate_all := (@mutate_all T).
#[local] Abbreviation follow := (@follow T).
#[local] Abbreviation list_invariant := (@list_invariant T).
#[local] Abbreviation cells := (@cells T).
#[local] Abbreviation addrs := (@addrs T).
#[local] Abbreviation values := (@values T).
#[local] Abbreviation dseg := (@dseg T).
#[local] Abbreviation is_list := (@is_list T).
#[local] Abbreviation evolves := (@evolves T).
#[local] Abbreviation alloc_next := (@alloc_next T).
#[local] Abbreviation mkNode := (@mkNode T).
#[local] Abbreviation previous := (@previous T).
#[local] Abbreviation next := (@next T).
#[local] Abbreviation data := (@data T).
#[local] Abbreviation mkMem := (@mkMem T).
#[local] Abbreviation nodes := (@nodes T).
#[local] Abbreviation oracle := (@oracle T).
#[local] Abbreviation MPushFront := (@MPushFront T).
#[local] Abbreviation MPushBack := (@MPushBack T).
#[local] Abbreviation MPopFront := (@MPopFront T).
#[local] Abbreviation MPopBack := (@MPopBack T).
#[local] Abbreviation MClear := (@MClear T).
#[local] Abbreviation MResize := (@MResize T).
#[local] Abbreviation MInsert := (@MInsert T).
#[local] Abbreviation MRemove := (@MRemove T).
#[local] Abbreviation MAssign := (@MAssign T).
#[local] Abbreviation M := (@M T).
#[local] Abbreviation addr_at := (@addr_at T).
#[local] Abbreviation List_destroy := (@List_destroy T).
#[local] Abbreviation List_sized := (@List_sized T).
#[local] Abbreviation Copy_values_loop := (@Copy_values_loop T).
#[local] Abbreviation Copy_values := (@Copy_values T).
#[local] Abbreviation List_of_values := (@List_of_values T).
#[local] Abbreviation List_subscript := (@List_subscript T).
#[local] Abbreviation List_subscript_assign := (@List_subscript_assign T).
#[local] Abbreviation iterate_back_loop := (@iterate_back_loop T).
#[local] Abbreviation iterate_back := (@iterate_back T).
#[local] Abbreviation accounts := (@accounts T).
#[local] Abbreviation can_allocate := (@can_allocate T).
#[local] Abbreviation prev_at := (@prev_at T).

(** ** Primitive steps *)

Lemma size_modulus_pos : 0 < size_modulus.
Proof. reflexivity. Qed.

Lemma wrap_small z : 0 <= z < size_modulus -> wrap z = z.
Proof. intros Hz. unfold wrap. apply Z.mod_small. exact Hz. Qed.

Lemma load_ok p n m :
  p <> nullptr -> nodes m !! p = Some n -> load p m = Ok (n, m).
Proof.
  intros Hp Hn. unfold load. rewrite decide_False by exact Hp.
  rewrite Hn. reflexivity.
Qed.

Lemma load_null m : load nullptr m = Fault.
Proof. reflexivity. Qed.

Lemma load_dangling p m : nodes m !! p = None -> load p m = Fault.
Proof. intros Hn. unfold load. case_decide; [reflexivity|]. rewrite Hn. reflexivity. Qed.

Lemma get_next_ok p n m :
  p <> nullptr -> nodes m !! p = Some n -> get_next p m = Ok (next n, m).
Proof. intros Hp Hn. unfold get_next, bind. rewrite (load_ok p n) by done. reflexivity. Qed.

Lemma get_previous_ok p n m :
  p <> nullptr -> nodes m !! p = Some n -> get_previous p m = Ok (previous n, m).
Proof. intros Hp Hn. unfold get_previous, bind. rewrite (load_ok p n) by done. reflexivity. Qed.

Lemma get_data_ok p n m :
  p <> nullptr -> nodes m !! p = Some n -> get_data p m = Ok (data n, m).
Proof. intros Hp Hn. unfold get_data, bind. rewrite (load_ok p n) by done. reflexivity. Qed.

Lemma set_next_ok p q n m :
  p <> nullptr -> nodes m !! p = Some n ->
  set_next p q m =
    Ok (tt, mkMem (<[p := mkNode (previous n) q (data n)]> (nodes m)) (oracle m)).
Proof.
  intros Hp Hn. unfold set_next, bind. rewrite (load_ok p n) by done.
  unfold store. rewrite decide_False by exact Hp. rewrite Hn. reflexivity.
Qed.

Lemma set_previous_ok p q n m :
  p <> nullptr -> nodes m !! p = Some n ->
  set_previous p q m =
    Ok (tt, mkMem (<[p := mkNode q (next n) (data n)]> (nodes m)) (oracle m)).
Proof.
  intros Hp Hn. unfold set_previous, bind. rewrite (load_ok p n) by done.
  unfold store. rewrite decide_False by exact Hp. rewrite Hn. reflexivity.
Qed.

Lemma Node_Delete_ok p n m :
  p <> nullptr -> nodes m !! p = Some n ->
  Node_Delete p m = Ok (tt, mkMem (delete p (nodes m)) (oracle m)).
Proof.
  intros Hp Hn. unfold Node_Delete, detail_Delete.
  rewrite decide_False by exact Hp. rewrite Hn. reflexivity.
Qed.

Lemma detail_New_eq m :
  detail_New m = Ok (alloc_next m, mkMem (nodes m) (tail (oracle m))).
Proof.
  unfold detail_New, alloc_next. destruct m as [h [|a o]]; simpl; [reflexivity|].
  case_decide; reflexivity.
Qed.

Lemma alloc_next_fresh m :
  alloc_next m <> nullptr ->
  valid_addr (alloc_next m) /\ nodes m !! alloc_next m = None.
Proof.
  unfold alloc_next, valid_addr. destruct (oracle m) as [|a o]; [done|].
  case_decide; [tauto | done].
Qed.

Lemma Node_New_fail v m :
  alloc_next m = nullptr ->
  Node_New v m = Ok (nullptr, mkMem (nodes m) (tail (oracle m))).
Proof.
  intros Ha. unfold Node_New, bind. rewrite detail_New_eq, Ha.
  rewrite decide_True by reflexivity. reflexivity.
Qed.

Lemma Node_New_ok v m :
  alloc_next m <> nullptr ->
  Node_New v m =
    Ok (alloc_next m,
        mkMem (<[alloc_next m := mkNode nullptr nullptr v]> (nodes m))
              (tail (oracle m))).
Proof.
  intros Ha. unfold Node_New, bind. rewrite detail_New_eq.
  rewrite decide_False by exact Ha. reflexivity.
Qed.

(** ** The loops of the model end

    The fuel that the model gives to a loop of the list is never used up,
    in any state: no behaviour of the source is cut short. *)

Lemma bind_total {A B : Type} (c : M A) (k : A -> M B) m :
  c m <> OutOfFuel ->
  (forall a m', c m = Ok (a, m') -> k a m' <> OutOfFuel) ->
  bind c k m <> OutOfFuel.
Proof.
  intros Hc Hk. unfold bind. destruct (c m) as [[a m']| |]; [by apply Hk|done|done].
Qed.

Lemma load_total p m : load p m <> OutOfFuel.
Proof. unfold load. repeat case_match; discriminate. Qed.

Lemma get_next_total p m : get_next p m <> OutOfFuel.
Proof. unfold get_next, bind, load, ret. repeat case_match; discriminate. Qed.

Lemma get_next_inv p m q m' :
  get_next p m = Ok (q, m') -> m' = m /\ p <> nullptr /\ is_Some (nodes m !! p).
Proof.
  unfold get_next, bind, load, ret. destruct (decide (p = nullptr)); [discriminate|].
  destruct (nodes m !! p) as [nd|] eqn:Hn; [|discriminate].
  intros [= <- <-]. repeat split; [done|by exists nd].
Qed.

Lemma Node_Delete_total p m : Node_Delete p m <> OutOfFuel.
Proof. unfold Node_Delete, detail_Delete. repeat case_match; discriminate. Qed.

Lemma RemoveAllNodes_loop_total fuel : forall i h o,
  (size h < fuel)%nat -> RemoveAllNodes_loop fuel i (mkMem h o) <> OutOfFuel.
Proof.
  induction fuel as [|fuel IH]; intros i h o Hf; [lia|].
  cbn [RemoveAllNodes_loop]. destruct (Iterator_ne i end_); [|discriminate].
  apply bind_total; [apply get_next_total|]. intros nxt m' Hg.
  apply get_next_inv in Hg as (-> & Hz & [n Hn]). simpl in Hn.
  unfold bind. rewrite (Node_Delete_ok _ n (mkMem h o) Hz Hn). apply IH.
  rewrite map_size_delete_Some by (by exists n).
  assert (size h <> 0%nat).
  { intros H0. apply map_size_empty_iff in H0. subst h. by rewrite lookup_empty in Hn. }
  simpl. lia.
Qed.

Lemma RemoveAllNodes_total l m : RemoveAllNodes l m <> OutOfFuel.
Proof. destruct m as [h o]. unfold RemoveAllNodes. apply RemoveAllNodes_loop_total. simpl. lia. Qed.

Lemma Clear_total l m : Clear l m <> OutOfFuel.
Proof. unfold Clear. apply bind_total; [apply RemoveAllNodes_total|]. discriminate. Qed.

Lemma Clear_result l m l' m' : Clear l m = Ok (l', m') -> l' = List_new.
Proof.
  unfold Clear, bind, ret. destruct (RemoveAllNodes l m) as [[[] m1]| |]; [|discriminate..].
  by intros [= <- _].
Qed.

Lemma PopFront_total l m : PopFront l m <> OutOfFuel.
Proof.
  unfold PopFront. case_decide; [apply Clear_total|].
  unfold get_next, set_previous, Node_Delete, detail_Delete, bind, load, store, ret.
  repeat case_match; discriminate.
Qed.

Lemma PopBack_total l m : PopBack l m <> OutOfFuel.
Proof.
  unfold PopBack. case_decide; [apply Clear_total|].
  unfold get_previous, set_next, Node_Delete, detail_Delete, bind, load, store, ret.
  repeat case_match; discriminate.
Qed.

Lemma PopFront_size l m l' m' :
  PopFront l m = Ok (l', m') ->
  (size_ l <= 1 /\ size_ l' = 0) \/ (1 < size_ l /\ size_ l' = wrap (size_ l - 1)).
Proof.
  unfold PopFront. case_decide as Hs.
  - intros Hc. apply Clear_result in Hc as ->. by left.
  - unfold get_next, set_previous, Node_Delete, detail_Delete, bind, load, store, ret.
    intros Hr. right. split; [lia|].
    repeat case_match; simplify_eq; done.
Qed.

Lemma PushBack_total v l m : PushBack v l m <> OutOfFuel.
Proof.
  unfold PushBack, Node_New, detail_New, set_next, set_previous, bind, load, store, ret.
  repeat case_match; discriminate.
Qed.

Lemma PushBack_size v l m b l' m' :
  PushBack v l m = Ok ((b, l'), m') ->
  if b then size_ l' = wrap (size_ l + 1) else l' = l.
Proof.
  unfold PushBack, Node_New, detail_New, set_next, set_previous, bind, load, store, ret.
  intros Hr. repeat case_match; simplify_eq; done.
Qed.

Lemma Resize_grow_total v new_size fuel : forall l m,
  0 <= size_ l -> new_size < size_modulus ->
  (Z.to_nat (new_size - size_ l) < fuel)%nat ->
  Resize_grow fuel new_size v l m <> OutOfFuel.
Proof.
  induction fuel as [|fuel IH]; intros l m Hs Hn Hf; [lia|].
  cbn [Resize_grow]. case_decide as Hlt; [|discriminate].
  apply bind_total; [apply PushBack_total|]. intros [b l'] m' Hp.
  apply PushBack_size in Hp. destruct b; simpl; [|discriminate].
  rewrite wrap_small in Hp by lia. apply IH; lia.
Qed.

Lemma Resize_shrink_total new_size fuel : forall l m,
  0 <= new_size -> size_ l < size_modulus ->
  (Z.to_nat (size_ l - new_size) < fuel)%nat ->
  Resize_shrink fuel new_size l m <> OutOfFuel.
Proof.
  induction fuel as [|fuel IH]; intros l m Hn Hs Hf; [lia|].
  cbn [Resize_shrink]. case_decide as Hgt; [|discriminate].
  apply bind_total; [apply PopFront_total|]. intros l' m' Hp.
  apply PopFront_size in Hp as [[_ Hz]|[H1 Hw]].
  - pose proof size_modulus_pos. apply IH; lia.
  - rewrite wrap_small in Hw by lia. apply IH; lia.
Qed.

Lemma Resize_grow_size v new_size fuel : forall l m b l' m',
  0 <= size_ l < size_modulus -> new_size < size_modulus ->
  Resize_grow fuel new_size v l m = Ok ((b, l'), m') ->
  0 <= size_ l' < size_modulus.
Proof.
  induction fuel as [|fuel IH]; intros l m b l' m' Hs Hn; [discriminate|].
  cbn [Resize_grow]. case_decide as Hlt; [|by intros [= _ <- _]].
  unfold bind. destruct (PushBack v l m) as [[[b1 l1] m1]| |] eqn:Hp; [|discriminate..].
  apply PushBack_size in Hp. destruct b1; simpl.
  - rewrite wrap_small in Hp by lia. apply IH; lia.
  - subst l1. by intros [= _ <- _].
Qed.

(** [Resize] of a list whose size is a value of [size_t], to a size that
    is one, never runs out of fuel. *)
Lemma Resize_total v new_size l m :
  0 <= size_ l < size_modulus -> 0 <= new_size < size_modulus ->
  Resize new_size v l m <> OutOfFuel.
Proof.
  intros Hs Hn. unfold Resize.
  apply bind_total; [apply Resize_grow_total; lia|]. intros [b l1] m1 Hg.
  apply Resize_grow_size in Hg; [|lia|lia]. destruct b; cbn [fst snd negb]; [|discriminate].
  apply bind_total; [apply Resize_shrink_total; lia|]. discriminate.
Qed.

Lemma Iterator_add_loop_total n : forall it m, Iterator_add_loop n it m <> OutOfFuel.
Proof.
  induction n as [|n IH]; intros it m; [discriminate|].
  cbn [Iterator_add_loop]. apply bind_total; [|by intros].
  unfold Iterator_incr. apply bind_total; [apply get_next_total|]. discriminate.
Qed.

Lemma List_at_total i source m : List_at i source m <> OutOfFuel.
Proof.
  unfold List_at. apply bind_total; [apply Iterator_add_loop_total|]. intros it m' _.
  unfold Iterator_deref, get_data, bind, load, ret. repeat case_match; discriminate.
Qed.

Lemma Copy_loop_total fuel : forall i source this m,
  0 <= i -> Size source < size_modulus ->
  (Z.to_nat (Size source - i) < fuel)%nat ->
  Copy_loop fuel i source this m <> OutOfFuel.
Proof.
  induction fuel as [|fuel IH]; intros i source this m Hi Hs Hf; [lia|].
  cbn [Copy_loop]. case_decide as Hlt; [|discriminate].
  apply bind_total; [apply List_at_total|]. intros v m1 _.
  apply bind_total; [apply PushBack_total|]. intros [b l'] m' _.
  destruct b; simpl; [|discriminate].
  rewrite wrap_small by lia. apply IH; lia.
Qed.

(** [Copy] from a list whose size is a value of [size_t] never runs out
    of fuel. *)
Lemma Copy_total source this m :
  Size source < size_modulus -> Copy source this m <> OutOfFuel.
Proof.
  intros Hs. unfold Copy. apply bind_total; [apply Clear_total|]. intros l' m' _.
  apply Copy_loop_total; lia.
Qed.

(** ** Segments *)

Lemma dseg_frame h h' pp p cs q qn :
  (forall a, a ∈ addrs cs -> h' !! a = h !! a) ->
  dseg h pp p cs q qn -> dseg h' pp p cs q qn.
Proof.
  revert pp p. induction cs as [|[a v] cs IH]; intros pp p Hf; simpl; [done|].
  intros [-> (r & Ha & Hd)]. split; [done|]. exists r. split.
  - rewrite Hf; [done|]. unfold addrs. simpl. left.
  - apply IH; [|done]. intros b Hb. apply Hf. unfold addrs. simpl. by right.
Qed.

Lemma dseg_snoc h pp p cs a v q qn :
  dseg h pp p (cs ++ [(a, v)]) q qn <->
  q = a /\ exists r, h !! a = Some (mkNode r qn v) /\ dseg h pp p cs r a.
Proof.
  revert pp p. induction cs as [|[b w] cs IH]; intros pp p; simpl.
  - split.
    + intros [-> (r & Ha & -> & ->)]. split; [done|]. by exists pp.
    + intros [-> (r & Ha & -> & ->)]. split; [done|]. by exists qn.
  - rewrite_strat (bottomup (terms IH)). split.
    + intros [-> (r & Hb & -> & r' & Ha & Hd)]. split; [done|].
      exists r'. split; [done|]. split; [done|]. by exists r.
    + intros [-> (r' & Ha & -> & r & Hb & Hd)]. split; [done|].
      exists r. split; [done|]. split; [done|]. by exists r'.
Qed.

Lemma dseg_app h pp p cs1 cs2 q qn :
  dseg h pp p (cs1 ++ cs2) q qn <->
  exists j jn, dseg h pp p cs1 j jn /\ dseg h j jn cs2 q qn.
Proof.
  revert pp p. induction cs1 as [|[b w] cs1 IH]; intros pp p; simpl.
  - split.
    + intros Hd. by exists pp, p.
    + by intros (j & jn & [-> ->] & Hd).
  - split.
    + intros [-> (r & Hb & Hd)]. apply IH in Hd as (j & jn & H1 & H2).
      exists j, jn. split; [|done]. split; [done|]. by exists r.
    + intros (j & jn & [-> (r & Hb & H1)] & H2). split; [done|].
      exists r. split; [done|]. apply IH. by exists j, jn.
Qed.

Lemma dseg_lookup h pp p cs q qn a :
  dseg h pp p cs q qn -> a ∈ addrs cs -> is_Some (h !! a).
Proof.
  revert pp p. induction cs as [|[b w] cs IH]; intros pp p; simpl.
  - intros _ Ha. unfold addrs in Ha. simpl in Ha. by apply elem_of_nil in Ha.
  - intros [-> (r & Hb & Hd)] Ha. unfold addrs in Ha. simpl in Ha.
    apply elem_of_cons in Ha as [-> | Ha]; [by eexists|]. by eapply IH.
Qed.


(** ** Facts about [is_list] *)

Lemma valid_addr_nonnull a : valid_addr a -> a <> nullptr.
Proof. unfold valid_addr, nullptr. lia. Qed.

(** Distinct addresses are fewer than there are addresses. *)
Lemma addrs_bound (l : list ptr) :
  NoDup l -> Forall valid_addr l -> Z.of_nat (length l) < size_modulus.
Proof.
  intros Hnd Hv.
  assert (Hsub : l ⊆+ seqZ 1 (size_modulus - 1)).
  { apply NoDup_submseteq; [exact Hnd|]. intros x Hx.
    rewrite Forall_forall in Hv. specialize (Hv x Hx).
    apply elem_of_seqZ. unfold valid_addr in Hv. lia. }
  apply submseteq_length in Hsub. rewrite length_seqZ in Hsub.
  pose proof size_modulus_pos. lia.
Qed.

Lemma is_list_bound m l cs :
  is_list m l cs -> Z.of_nat (length cs) < size_modulus.
Proof.
  intros (_ & Hnd & Hv & _). unfold addrs in *.
  apply addrs_bound in Hnd; [|exact Hv]. by rewrite length_fmap in Hnd.
Qed.

Lemma is_list_nil_inv m l : is_list m l [] -> l = List_new.
Proof.
  intros ([H1 H2] & _ & _ & Hs). destruct l as [f la s]. simpl in *.
  unfold List_new. by subst.
Qed.

Lemma is_list_nil m : is_list m List_new [].
Proof.
  unfold is_list, List_new; simpl. repeat split; [constructor | constructor].
Qed.

Lemma is_list_lookup m l cs a :
  is_list m l cs -> a ∈ addrs cs -> is_Some (nodes m !! a).
Proof. intros (Hd & _). by eapply dseg_lookup. Qed.

Lemma is_list_fresh m l cs a :
  is_list m l cs -> nodes m !! a = None -> a ∉ addrs cs.
Proof.
  intros Hl Ha Hin. destruct (is_list_lookup _ _ _ _ Hl Hin) as [n Hn]. rewrite Ha in Hn. discriminate.
Qed.

Lemma dseg_length_le h pp p cs q qn :
  dseg h pp p cs q qn -> NoDup (addrs cs) -> (length cs <= size h)%nat.
Proof.
  intros Hd Hnd.
  assert (Hsub : addrs cs ⊆+ (map_to_list h).*1).
  { apply NoDup_submseteq; [exact Hnd|]. intros a Ha.
    destruct (dseg_lookup _ _ _ _ _ _ _ Hd Ha) as [n Hn].
    apply list_elem_of_fmap. exists (a, n). split; [done|].
    by apply elem_of_map_to_list. }
  apply submseteq_length in Hsub. unfold addrs in Hsub.
  rewrite !length_fmap, length_map_to_list in Hsub. exact Hsub.
Qed.

Lemma is_list_frame m m' l cs :
  (forall a, a ∈ addrs cs -> nodes m' !! a = nodes m !! a) ->
  is_list m l cs -> is_list m' l cs.
Proof.
  intros Hf (Hd & Hrest). split; [|exact Hrest]. by eapply dseg_frame.
Qed.


(** ** The operations at the two ends *)

Lemma PushBack_fail v l m :
  alloc_next m = nullptr ->
  PushBack v l m = Ok ((false, l), mkMem (nodes m) (tail (oracle m))).
Proof.
  intros Ha. unfold PushBack, bind. rewrite Node_New_fail by exact Ha.
  rewrite decide_True by reflexivity. reflexivity.
Qed.

Lemma PushFront_fail v l m :
  alloc_next m = nullptr ->
  PushFront v l m = Ok ((false, l), mkMem (nodes m) (tail (oracle m))).
Proof.
  intros Ha. unfold PushFront, bind. rewrite Node_New_fail by exact Ha.
  rewrite decide_True by reflexivity. reflexivity.
Qed.

(** What a successful [PushBack] does to a well-formed list. *)
Lemma PushBack_ok v l m cs :
  is_list m l cs -> alloc_next m <> nullptr ->
  exists l' m',
    PushBack v l m = Ok ((true, l'), m') /\
    is_list m' l' (cs ++ [(alloc_next m, v)]) /\
    oracle m' = tail (oracle m) /\
    (forall p, p <> alloc_next m -> p ∉ addrs cs -> nodes m' !! p = nodes m !! p).
Proof.
  intros Hl Ha. set (a := alloc_next m) in *.
  destruct (alloc_next_fresh m Ha) as [Hva Hfa]. fold a in Hva, Hfa.
  pose proof (is_list_fresh _ _ _ _ Hl Hfa) as Hnin.
  assert (Hnd' : NoDup (addrs (cs ++ [(a, v)]))).
  { unfold addrs in *. rewrite fmap_app. simpl. apply NoDup_app.
    destruct Hl as (_ & Hnd & _). split; [done|]. split.
    - intros x Hx Hx'. apply list_elem_of_singleton in Hx'. by subst.
    - apply NoDup_singleton. }
  assert (Hv' : Forall valid_addr (addrs (cs ++ [(a, v)]))).
  { unfold addrs in *. rewrite fmap_app. simpl. apply Forall_app.
    destruct Hl as (_ & _ & Hv & _). split; [done|]. by constructor. }
  assert (Hlen : Z.of_nat (length (cs ++ [(a, v)])) < size_modulus).
  { pose proof (addrs_bound _ Hnd' Hv') as Hb. unfold addrs in Hb.
    by rewrite length_fmap in Hb. }
  rewrite length_app in Hlen. simpl in Hlen.
  unfold PushBack, bind. rewrite Node_New_ok by exact Ha. fold a.
  rewrite decide_False by exact Ha.
  destruct Hl as (Hd & Hnd & Hv & Hs).
  destruct cs as [|c cs0 _] using rev_ind.
  - destruct Hd as [Hf Hla]. simpl in Hs.
    rewrite decide_True by exact Hs. unfold ret.
    eexists _, _. split; [reflexivity|]. split; [|split].
    + split; [|split; [done|split; [done|]]]; simpl.
      * split; [done|]. exists nullptr. rewrite lookup_insert_eq. done.
      * rewrite Hs. rewrite wrap_small; [done|]. pose proof size_modulus_pos. lia.
    + done.
    + intros p Hp _. simpl. by rewrite lookup_insert_ne.
  - destruct c as [b w]. apply dseg_snoc in Hd as (Hq & r & Hb & Hd).
    rewrite length_app in Hs, Hlen. simpl in Hs, Hlen.
    rewrite decide_False by lia.
    assert (Hvb : valid_addr b).
    { rewrite Forall_forall in Hv. apply Hv. unfold addrs. rewrite fmap_app.
      apply elem_of_app. right. simpl. left. }
    assert (Hba : b <> a) by (intros ->; rewrite Hfa in Hb; discriminate).
    rewrite Hq.
    erewrite set_next_ok; [|by apply valid_addr_nonnull|]; cycle 1.
    { simpl. rewrite lookup_insert_ne by done. exact Hb. }
    simpl.
    erewrite set_previous_ok; [|exact Ha|]; cycle 1.
    { simpl. rewrite lookup_insert_ne by done. apply lookup_insert_eq. }
    simpl. unfold ret.
    eexists _, _. split; [reflexivity|]. split; [|split].
    + split; [|split; [done|split; [done|]]]; simpl.
      * apply dseg_snoc. split; [done|]. exists b. split.
        { by rewrite lookup_insert_eq. }
        apply dseg_snoc. split; [done|]. exists r. split.
        { rewrite lookup_insert_ne by done. by rewrite lookup_insert_eq. }
        eapply dseg_frame; [|exact Hd]. intros x Hx.
        assert (x <> a).
        { intros ->. apply Hnin. unfold addrs. rewrite fmap_app.
          apply elem_of_app. by left. }
        assert (x <> b).
        { intros ->. unfold addrs in Hnd. rewrite fmap_app in Hnd.
          apply NoDup_app in Hnd as (_ & Hdis & _). apply (Hdis b Hx). simpl. left. }
        by rewrite !lookup_insert_ne by done.
      * rewrite !length_app. simpl. rewrite Hs.
        rewrite wrap_small; lia.
    + done.
    + intros p Hp Hpn. simpl.
      assert (p <> b).
      { intros ->. apply Hpn. unfold addrs. rewrite fmap_app.
        apply elem_of_app. right. simpl. left. }
      by rewrite !lookup_insert_ne by done.
Qed.


(** What a successful [PushFront] does to a well-formed list. *)
Lemma PushFront_ok v l m cs :
  is_list m l cs -> alloc_next m <> nullptr ->
  exists l' m',
    PushFront v l m = Ok ((true, l'), m') /\
    is_list m' l' ((alloc_next m, v) :: cs) /\
    oracle m' = tail (oracle m) /\
    (forall p, p <> alloc_next m -> p ∉ addrs cs -> nodes m' !! p = nodes m !! p).
Proof.
  intros Hl Ha. set (a := alloc_next m) in *.
  destruct (alloc_next_fresh m Ha) as [Hva Hfa]. fold a in Hva, Hfa.
  pose proof (is_list_fresh _ _ _ _ Hl Hfa) as Hnin.
  destruct Hl as (Hd & Hnd & Hv & Hs).
  assert (Hnd' : NoDup (addrs ((a, v) :: cs))).
  { unfold addrs in *. simpl. by apply NoDup_cons. }
  assert (Hv' : Forall valid_addr (addrs ((a, v) :: cs))).
  { unfold addrs in *. simpl. by constructor. }
  assert (Hlen : Z.of_nat (length ((a, v) :: cs)) < size_modulus).
  { pose proof (addrs_bound _ Hnd' Hv') as Hb. unfold addrs in Hb.
    by rewrite length_fmap in Hb. }
  simpl in Hlen.
  unfold PushFront, bind. rewrite Node_New_ok by exact Ha. fold a.
  rewrite decide_False by exact Ha.
  destruct cs as [|[b w] cs0].
  - destruct Hd as [Hf Hla]. simpl in Hs.
    rewrite decide_True by exact Hs. unfold ret.
    eexists _, _. split; [reflexivity|]. split; [|split].
    + split; [|split; [done|split; [done|]]]; simpl.
      * split; [done|]. exists nullptr. rewrite lookup_insert_eq. done.
      * rewrite Hs. rewrite wrap_small; [done|]. pose proof size_modulus_pos. lia.
    + done.
    + intros p Hp _. simpl. by rewrite lookup_insert_ne.
  - simpl in Hd. destruct Hd as (Hf & r & Hb & Hd). simpl in Hs, Hlen.
    rewrite decide_False by lia.
    assert (Hvb : valid_addr b).
    { unfold addrs in Hv. simpl in Hv. by inversion Hv. }
    assert (Hba : b <> a) by (intros ->; rewrite Hfa in Hb; discriminate).
    rewrite Hf.
    erewrite set_next_ok; [|exact Ha|]; cycle 1.
    { simpl. apply lookup_insert_eq. }
    simpl.
    erewrite set_previous_ok; [|by apply valid_addr_nonnull|]; cycle 1.
    { simpl. rewrite !lookup_insert_ne by done. exact Hb. }
    simpl. unfold ret.
    eexists _, _. split; [reflexivity|]. split; [|split].
    + split; [|split; [done|split; [done|]]]; simpl.
      * split; [done|]. exists b. split.
        { rewrite lookup_insert_ne by done. by rewrite lookup_insert_eq. }
        split; [done|]. exists r. split.
        { by rewrite lookup_insert_eq. }
        eapply dseg_frame; [|exact Hd]. intros x Hx.
        assert (x <> a).
        { intros ->. apply Hnin. unfold addrs. simpl. by right. }
        assert (x <> b).
        { intros ->. unfold addrs in Hnd. simpl in Hnd.
          apply NoDup_cons in Hnd as [Hnb _]. by apply Hnb. }
        by rewrite !lookup_insert_ne by done.
      * rewrite Hs. rewrite wrap_small; lia.
    + done.
    + intros p Hp Hpn. simpl.
      assert (p <> b).
      { intros ->. apply Hpn. unfold addrs. simpl. left. }
      by rewrite !lookup_insert_ne by done.
Qed.

Lemma foldr_delete_commute (a : ptr) (h : gmap Z Node) (l : list ptr) :
  delete a (foldr delete h l) = foldr delete (delete a h) l.
Proof.
  induction l as [|x xs IH]; simpl; [reflexivity|].
  rewrite <- IH. apply map_eq. intros k. rewrite !lookup_delete. repeat case_decide; done.
Qed.

Lemma lookup_foldr_delete (h : gmap Z Node) (l : list ptr) (p : ptr) :
  foldr delete h l !! p = if decide (p ∈ l) then None else h !! p.
Proof.
  induction l as [|x xs IH]; cbn [foldr].
  - destruct (decide (p ∈ [])) as [Hin|_]; [|done]. by apply elem_of_nil in Hin.
  - destruct (decide (x = p)) as [->|Hne].
    + rewrite lookup_delete_eq. destruct (decide (p ∈ p :: xs)) as [_|Hn]; [done|].
      exfalso. apply Hn. left.
    + rewrite lookup_delete_ne by done. rewrite IH.
      destruct (decide (p ∈ xs)) as [Hin|Hnin];
        destruct (decide (p ∈ x :: xs)) as [Hin'|Hnin']; try done.
      * exfalso. apply Hnin'. by right.
      * apply elem_of_cons in Hin' as [->|Hc]; done.
Qed.

(** [RemoveAllNodes] frees the cells of a segment that ends in a null
    next link, in order. *)
Lemma RemoveAllNodes_loop_ok fuel cs : forall h o pp p q,
  dseg h pp p cs q nullptr -> NoDup (addrs cs) -> Forall valid_addr (addrs cs) ->
  (length cs < fuel)%nat ->
  RemoveAllNodes_loop fuel (mkIterator p) (mkMem h o) =
    Ok (tt, mkMem (foldr delete h (addrs cs)) o).
Proof.
  revert fuel. induction cs as [|[a v] cs IH]; intros fuel h o pp p q Hd Hnd Hv Hf.
  - destruct fuel as [|fuel]; [simpl in Hf; lia|]. destruct Hd as [-> _].
    reflexivity.
  - destruct fuel as [|fuel]; [simpl in Hf; lia|]. simpl in Hf.
    destruct Hd as (-> & r & Ha & Hd).
    unfold addrs in *. simpl in Hnd, Hv.
    apply NoDup_cons in Hnd as [Hna Hnd]. inversion Hv as [|? ? Hva Hv']; subst.
    pose proof (valid_addr_nonnull _ Hva) as Hnz.
    cbn [RemoveAllNodes_loop]. unfold Iterator_ne, Iterator_eq, end_. simpl.
    rewrite bool_decide_eq_false_2 by exact Hnz. simpl.
    unfold bind, Node_Get, Address. simpl.
    erewrite get_next_ok; [|exact Hnz|exact Ha]. simpl.
    erewrite Node_Delete_ok; [|exact Hnz|exact Ha]. simpl.
    erewrite IH; [| |exact Hnd|exact Hv'|lia].
    + do 3 f_equal. symmetry. apply foldr_delete_commute.
    + eapply dseg_frame; [|exact Hd]. intros x Hx.
      apply lookup_delete_ne. intros ->. by apply Hna.
Qed.

Lemma Clear_ok m l cs :
  is_list m l cs ->
  Clear l m = Ok (List_new, mkMem (foldr delete (nodes m) (addrs cs)) (oracle m)).
Proof.
  intros (Hd & Hnd & Hv & Hs). destruct m as [h o]. simpl in *.
  unfold Clear, bind, RemoveAllNodes, begin. cbn [nodes].
  erewrite RemoveAllNodes_loop_ok; [reflexivity|exact Hd|exact Hnd|exact Hv|].
  pose proof (dseg_length_le _ _ _ _ _ _ Hd Hnd). lia.
Qed.

Lemma Clear_empty m : Clear List_new m = Ok (List_new, m).
Proof.
  rewrite (Clear_ok m List_new []) by apply is_list_nil. simpl. by destruct m.
Qed.


Lemma PopFront_nil m : PopFront List_new m = Ok (List_new, m).
Proof.
  unfold PopFront. rewrite decide_True by (simpl; lia). apply Clear_empty.
Qed.

Lemma PopBack_nil m : PopBack List_new m = Ok (List_new, m).
Proof.
  unfold PopBack. rewrite decide_True by (simpl; lia). apply Clear_empty.
Qed.

(** [PopFront] on a well-formed list that is not empty frees the first
    cell. *)
Lemma PopFront_cons m l a v cs :
  is_list m l ((a, v) :: cs) ->
  exists l' m',
    PopFront l m = Ok (l', m') /\
    is_list m' l' cs /\
    oracle m' = oracle m /\
    nodes m' !! a = None /\
    (forall p, p ∉ addrs ((a, v) :: cs) -> nodes m' !! p = nodes m !! p).
Proof.
  intros Hl. pose proof (is_list_bound _ _ _ Hl) as Hlen. simpl in Hlen.
  pose proof Hl as (Hd & Hnd & Hv & Hs).
  unfold addrs in Hnd, Hv. simpl in Hnd, Hv, Hs.
  apply NoDup_cons in Hnd as [Hna Hnd]. inversion Hv as [|? ? Hva Hv']; subst.
  pose proof (valid_addr_nonnull _ Hva) as Hnz.
  unfold PopFront. destruct cs as [|[b w] cs0].
  - rewrite decide_True by (rewrite Hs; simpl; lia).
    rewrite (Clear_ok _ _ _ Hl). unfold addrs. simpl.
    eexists _, _. split; [reflexivity|]. split; [apply is_list_nil|].
    split; [done|]. simpl. split; [apply lookup_delete_eq|].
    intros p Hp. apply lookup_delete_ne. intros ->. apply Hp. left.
  - simpl in Hs, Hlen. rewrite decide_False by lia.
    simpl in Hd. destruct Hd as (Hf & r & Ha & Hb' & r' & Hb & Hd). subst r.
    simpl in Hnd, Hv'. apply NoDup_cons in Hnd as [Hnb Hnd].
    inversion Hv' as [|? ? Hvb Hv'']; subst.
    pose proof (valid_addr_nonnull _ Hvb) as Hbz.
    assert (Hab : first_ l <> b).
    { intros Heq. apply Hna. rewrite Heq. simpl. left. }
    unfold bind. erewrite get_next_ok; [|exact Hnz|exact Ha]. simpl.
    erewrite set_previous_ok; [|exact Hbz|exact Hb]. simpl.
    erewrite Node_Delete_ok; [|exact Hnz|]; cycle 1.
    { simpl. rewrite lookup_insert_ne by done. exact Ha. }
    simpl. unfold ret.
    eexists _, _. split; [reflexivity|]. split; [|split; [done|split]].
    + split; [|split; [|split]]; simpl.
      * split; [done|]. exists r'. split.
        { rewrite lookup_delete_ne by done. by rewrite lookup_insert_eq. }
        eapply dseg_frame; [|exact Hd]. intros x Hx.
        assert (x <> first_ l).
        { intros ->. apply Hna. simpl. by right. }
        assert (x <> b) by (intros ->; by apply Hnb).
        rewrite lookup_delete_ne by done. by rewrite lookup_insert_ne.
      * unfold addrs. simpl. by apply NoDup_cons.
      * unfold addrs. simpl. by constructor.
      * rewrite Hs. rewrite wrap_small; lia.
    + simpl. apply lookup_delete_eq.
    + intros p Hp. simpl. unfold addrs in Hp. simpl in Hp.
      assert (p <> first_ l) by (intros ->; apply Hp; left).
      assert (p <> b) by (intros ->; apply Hp; right; left).
      rewrite lookup_delete_ne by done. by rewrite lookup_insert_ne.
Qed.

(** [PopBack] on a well-formed list that is not empty frees the last
    cell. *)
Lemma PopBack_snoc m l a v cs :
  is_list m l (cs ++ [(a, v)]) ->
  exists l' m',
    PopBack l m = Ok (l', m') /\
    is_list m' l' cs /\
    oracle m' = oracle m /\
    nodes m' !! a = None /\
    (forall p, p ∉ addrs (cs ++ [(a, v)]) -> nodes m' !! p = nodes m !! p).
Proof.
  intros Hl. pose proof (is_list_bound _ _ _ Hl) as Hlen.
  rewrite length_app in Hlen. simpl in Hlen.
  pose proof Hl as (Hd & Hnd & Hv & Hs).
  unfold addrs in Hnd, Hv. rewrite fmap_app in Hnd, Hv. simpl in Hnd, Hv.
  rewrite length_app in Hs. simpl in Hs.
  apply NoDup_app in Hnd as (Hnd & Hdis & _).
  apply Forall_app in Hv as [Hv' Hva]. pose proof (proj1 (Forall_singleton _ _) Hva) as Hva'.
  pose proof (valid_addr_nonnull _ Hva') as Hnz.
  assert (Hna : a ∉ cs.*1).
  { intros Hin. apply (Hdis a Hin). left. }
  apply dseg_snoc in Hd as (Hq & r & Ha & Hd).
  unfold PopBack. destruct cs as [|[b w] cs0 _] using rev_ind.
  - rewrite decide_True by (rewrite Hs; simpl; lia).
    rewrite (Clear_ok _ _ _ Hl). unfold addrs. simpl.
    eexists _, _. split; [reflexivity|]. split; [apply is_list_nil|].
    split; [done|]. simpl. split; [apply lookup_delete_eq|].
    intros p Hp. apply lookup_delete_ne. intros ->. apply Hp. left.
  - rewrite length_app in Hs, Hlen. simpl in Hs, Hlen. rewrite decide_False by lia.
    apply dseg_snoc in Hd as (Hr & r' & Hb & Hd). subst r.
    rewrite fmap_app in Hnd, Hv', Hna. simpl in Hnd, Hv', Hna.
    apply NoDup_app in Hnd as (Hnd & Hdis' & _).
    apply Forall_app in Hv' as [Hv'' Hvb]. pose proof (proj1 (Forall_singleton _ _) Hvb) as Hvb'.
    pose proof (valid_addr_nonnull _ Hvb') as Hbz.
    assert (Hnb : b ∉ cs0.*1).
    { intros Hin. apply (Hdis' b Hin). left. }
    assert (Hab : a <> b).
    { intros Heq. apply Hna. apply elem_of_app. right. rewrite Heq. left. }
    rewrite Hq.
    unfold bind. erewrite get_previous_ok; [|exact Hnz|exact Ha]. simpl.
    erewrite set_next_ok; [|exact Hbz|exact Hb]. simpl.
    erewrite Node_Delete_ok; [|exact Hnz|]; cycle 1.
    { simpl. rewrite lookup_insert_ne by done. exact Ha. }
    simpl. unfold ret.
    eexists _, _. split; [reflexivity|]. split; [|split; [done|split]].
    + split; [|split; [|split]]; simpl.
      * apply dseg_snoc. split; [done|]. exists r'. split.
        { rewrite lookup_delete_ne by done. by rewrite lookup_insert_eq. }
        eapply dseg_frame; [|exact Hd]. intros x Hx.
        assert (x <> a).
        { intros ->. apply Hna. apply elem_of_app. by left. }
        assert (x <> b) by (intros ->; by apply Hnb).
        rewrite lookup_delete_ne by done. by rewrite lookup_insert_ne.
      * unfold addrs. rewrite fmap_app. simpl. apply NoDup_app.
        split; [done|]. split; [exact Hdis'|]. apply NoDup_singleton.
      * unfold addrs. rewrite fmap_app. simpl. apply Forall_app. by split.
      * rewrite length_app. simpl. rewrite Hs. rewrite wrap_small; lia.
    + simpl. apply lookup_delete_eq.
    + intros p Hp. simpl. unfold addrs in Hp. rewrite !fmap_app in Hp. simpl in Hp.
      assert (p <> a).
      { intros ->. apply Hp. apply elem_of_app. right. left. }
      assert (p <> b).
      { intros ->. apply Hp. apply elem_of_app. left. apply elem_of_app. right. left. }
      rewrite lookup_delete_ne by done. by rewrite lookup_insert_ne.
Qed.


(** ** Insertion and removal inside the list *)

(** [Insert] before a cell that has a predecessor. *)
Lemma Insert_middle v m l cs1 b w c u cs2 :
  is_list m l (cs1 ++ (b, w) :: (c, u) :: cs2) -> alloc_next m <> nullptr ->
  exists l' m',
    Insert (mkIterator c) v l m = Ok ((true, l'), m') /\
    is_list m' l' (cs1 ++ (b, w) :: (alloc_next m, v) :: (c, u) :: cs2) /\
    oracle m' = tail (oracle m) /\
    (forall p, p <> alloc_next m -> p <> b -> p <> c -> nodes m' !! p = nodes m !! p).
Proof.
  intros Hl Ha. set (a := alloc_next m) in *.
  destruct (alloc_next_fresh m Ha) as [Hva Hfa]. fold a in Hva, Hfa.
  pose proof (is_list_fresh _ _ _ _ Hl Hfa) as Hnin.
  destruct Hl as (Hd & Hnd & Hv & Hs).
  unfold addrs in Hnd, Hv, Hnin. rewrite fmap_app in Hnd, Hv, Hnin.
  simpl in Hnd, Hv, Hnin.
  apply NoDup_app in Hnd as (Hnd1 & Hdis & Hnd2).
  apply NoDup_cons in Hnd2 as [Hnb Hnd2]. apply NoDup_cons in Hnd2 as [Hnc Hnd2].
  apply Forall_app in Hv as [Hv1 Hv2].
  apply Forall_cons in Hv2 as [Hvb Hv2]. apply Forall_cons in Hv2 as [Hvc Hv2].
  pose proof (valid_addr_nonnull _ Hvb) as Hbz.
  pose proof (valid_addr_nonnull _ Hvc) as Hcz.
  assert (Hab : a <> b) by set_solver.
  assert (Hac : a <> c) by set_solver.
  assert (Hbc : b <> c) by set_solver.
  assert (Hnd' : NoDup (addrs (cs1 ++ (b, w) :: (a, v) :: (c, u) :: cs2))).
  { unfold addrs. rewrite fmap_app. simpl. apply NoDup_app. split; [done|]. split.
    - intros x Hx. specialize (Hdis x Hx). set_solver.
    - apply NoDup_cons. split; [set_solver|]. apply NoDup_cons. split; [set_solver|].
      apply NoDup_cons. by split. }
  assert (Hv' : Forall valid_addr (addrs (cs1 ++ (b, w) :: (a, v) :: (c, u) :: cs2))).
  { unfold addrs. rewrite fmap_app. simpl. apply Forall_app. split; [done|].
    repeat (apply Forall_cons; split; [done|]). done. }
  assert (Hlen : Z.of_nat (length (cs1 ++ (b, w) :: (a, v) :: (c, u) :: cs2)) < size_modulus).
  { pose proof (addrs_bound _ Hnd' Hv') as Hb. unfold addrs in Hb.
    by rewrite length_fmap in Hb. }
  rewrite length_app in Hlen, Hs. simpl in Hlen, Hs.
  apply dseg_app in Hd as (j & jn & Hd1 & Hd2). simpl in Hd2.
  destruct Hd2 as (-> & r & Hb & -> & r' & Hc & Hd2).
  unfold Insert, Iterator_eq. simpl.
  rewrite bool_decide_eq_false_2 by exact Hcz.
  unfold bind. rewrite Node_New_ok by exact Ha. fold a.
  rewrite decide_False by exact Ha.
  unfold Node_Get, Address. simpl.
  erewrite get_previous_ok; [|exact Hcz|]; cycle 1.
  { simpl. rewrite lookup_insert_ne by done. exact Hc. }
  simpl.
  erewrite get_next_ok; [|exact Hbz|]; cycle 1.
  { simpl. rewrite lookup_insert_ne by done. exact Hb. }
  simpl.
  erewrite set_next_ok; [|exact Hbz|]; cycle 1.
  { simpl. rewrite lookup_insert_ne by done. exact Hb. }
  simpl.
  erewrite set_previous_ok; [|exact Ha|]; cycle 1.
  { simpl. rewrite lookup_insert_ne by done. apply lookup_insert_eq. }
  simpl.
  erewrite set_next_ok; [|exact Ha|]; cycle 1.
  { simpl. apply lookup_insert_eq. }
  simpl.
  erewrite set_previous_ok; [|exact Hcz|]; cycle 1.
  { simpl. rewrite !lookup_insert_ne by done. exact Hc. }
  simpl. unfold ret.
  eexists _, _. split; [reflexivity|]. split; [|split; [done|]].
  - split; [|split; [done|split; [done|]]]; simpl.
    + apply dseg_app. exists j, b. split.
      * eapply dseg_frame; [|exact Hd1]. intros x Hx. specialize (Hdis x Hx).
        assert (x <> a) by set_solver.
        assert (x <> b) by set_solver.
        assert (x <> c) by set_solver.
        by rewrite !lookup_insert_ne by done.
      * simpl. split; [done|]. exists a. split.
        { rewrite !lookup_insert_ne by done. by rewrite lookup_insert_eq. }
        split; [done|]. exists c. split.
        { rewrite lookup_insert_ne by done. by rewrite lookup_insert_eq. }
        split; [done|]. exists r'. split.
        { by rewrite lookup_insert_eq. }
        eapply dseg_frame; [|exact Hd2]. intros x Hx.
        assert (x <> a) by set_solver.
        assert (x <> b) by set_solver.
        assert (x <> c) by set_solver.
        by rewrite !lookup_insert_ne by done.
    + rewrite length_app. simpl. rewrite Hs. rewrite wrap_small; lia.
  - intros p Hpa Hpb Hpc. simpl. by rewrite !lookup_insert_ne by done.
Qed.

(** [Remove] of a cell that has a predecessor and a successor. *)
Lemma Remove_middle m l cs1 b w c u d x cs2 :
  is_list m l (cs1 ++ (b, w) :: (c, u) :: (d, x) :: cs2) ->
  exists l' m',
    Remove (mkIterator c) l m = Ok ((true, l'), m') /\
    is_list m' l' (cs1 ++ (b, w) :: (d, x) :: cs2) /\
    oracle m' = oracle m /\
    nodes m' !! c = None /\
    (forall p, p <> b -> p <> c -> p <> d -> nodes m' !! p = nodes m !! p).
Proof.
  intros Hl. pose proof (is_list_bound _ _ _ Hl) as Hlen.
  destruct Hl as (Hd & Hnd & Hv & Hs).
  unfold addrs in Hnd, Hv. rewrite fmap_app in Hnd, Hv. simpl in Hnd, Hv.
  apply NoDup_app in Hnd as (Hnd1 & Hdis & Hnd2).
  apply NoDup_cons in Hnd2 as [Hnb Hnd2]. apply NoDup_cons in Hnd2 as [Hnc Hnd2].
  apply NoDup_cons in Hnd2 as [Hndd Hnd2].
  apply Forall_app in Hv as [Hv1 Hv2].
  apply Forall_cons in Hv2 as [Hvb Hv2]. apply Forall_cons in Hv2 as [Hvc Hv2].
  apply Forall_cons in Hv2 as [Hvd Hv2].
  pose proof (valid_addr_nonnull _ Hvb) as Hbz.
  pose proof (valid_addr_nonnull _ Hvc) as Hcz.
  pose proof (valid_addr_nonnull _ Hvd) as Hdz.
  assert (Hbc : b <> c) by set_solver.
  assert (Hbd : b <> d) by set_solver.
  assert (Hcd : c <> d) by set_solver.
  rewrite length_app in Hlen, Hs. simpl in Hlen, Hs.
  apply dseg_app in Hd as (j & jn & Hd1 & Hd2). simpl in Hd2.
  destruct Hd2 as (-> & r & Hb & -> & r' & Hc & -> & r'' & Hdd & Hd2).
  unfold Remove, Iterator_eq, This. simpl.
  rewrite bool_decide_eq_false_2 by exact Hcz.
  unfold bind.
  erewrite get_previous_ok; [|exact Hcz|exact Hc]. simpl.
  erewrite get_next_ok; [|exact Hcz|exact Hc]. simpl.
  erewrite set_next_ok; [|exact Hbz|exact Hb]. simpl.
  erewrite set_previous_ok; [|exact Hdz|]; cycle 1.
  { simpl. rewrite lookup_insert_ne by done. exact Hdd. }
  simpl.
  erewrite Node_Delete_ok; [|exact Hcz|]; cycle 1.
  { simpl. rewrite !lookup_insert_ne by done. exact Hc. }
  simpl. unfold ret.
  eexists _, _. split; [reflexivity|]. split; [|split; [done|split]].
  - split; [|split; [|split]]; simpl.
    + apply dseg_app. exists j, b. split.
      * eapply dseg_frame; [|exact Hd1]. intros y Hy. specialize (Hdis y Hy).
        assert (y <> b) by set_solver.
        assert (y <> c) by set_solver.
        assert (y <> d) by set_solver.
        rewrite lookup_delete_ne by done. by rewrite !lookup_insert_ne by done.
      * simpl. split; [done|]. exists d. split.
        { rewrite lookup_delete_ne by done. rewrite lookup_insert_ne by done.
          by rewrite lookup_insert_eq. }
        split; [done|]. exists r''. split.
        { rewrite lookup_delete_ne by done. by rewrite lookup_insert_eq. }
        eapply dseg_frame; [|exact Hd2]. intros y Hy.
        assert (y <> b) by set_solver.
        assert (y <> c) by set_solver.
        assert (y <> d) by set_solver.
        rewrite lookup_delete_ne by done. by rewrite !lookup_insert_ne by done.
    + unfold addrs. rewrite fmap_app. simpl. apply NoDup_app. split; [done|]. split.
      * intros y Hy. specialize (Hdis y Hy). set_solver.
      * apply NoDup_cons. split; [set_solver|]. apply NoDup_cons. by split.
    + unfold addrs. rewrite fmap_app. simpl. apply Forall_app. split; [done|].
      repeat (apply Forall_cons; split; [done|]). done.
    + rewrite length_app. simpl. rewrite Hs. rewrite wrap_small; lia.
  - simpl. apply lookup_delete_eq.
  - intros p Hpb Hpc Hpd. simpl.
    rewrite lookup_delete_ne by done. by rewrite !lookup_insert_ne by done.
Qed.


(** ** Reading a well-formed list *)

(** The cells of a segment determine the nodes: two heaps that hold the
    same segment agree on its ends and on every node of it. *)
Lemma dseg_agree cs : forall h h' pp p p' q q' qn,
  dseg h pp p cs q qn -> dseg h' pp p' cs q' qn ->
  p = p' /\ q = q' /\ forall a, a ∈ addrs cs -> h !! a = h' !! a.
Proof.
  induction cs as [|[a v] cs IH]; intros h h' pp p p' q q' qn; simpl.
  - intros [-> <-] [-> <-]. repeat split. intros a Ha.
    unfold addrs in Ha. simpl in Ha. by apply elem_of_nil in Ha.
  - intros (-> & r & Ha & Hd) (-> & r' & Ha' & Hd').
    destruct (IH _ _ _ _ _ _ _ _ Hd Hd') as (<- & <- & Hag).
    repeat split. intros x Hx. unfold addrs in Hx. simpl in Hx.
    apply elem_of_cons in Hx as [->|Hx]; [by rewrite Ha, Ha'|]. by apply Hag.
Qed.

Lemma is_list_agree m m' l l' cs :
  is_list m l cs -> is_list m' l' cs ->
  l = l' /\ forall a, a ∈ addrs cs -> nodes m !! a = nodes m' !! a.
Proof.
  intros (Hd & _ & _ & Hs) (Hd' & _ & _ & Hs').
  destruct (dseg_agree _ _ _ _ _ _ _ _ _ Hd Hd') as (Hf & Hla & Hag).
  split; [|exact Hag]. destruct l, l'. simpl in *. congruence.
Qed.

Lemma iterate_loop_ok fuel cs : forall m pp p q,
  dseg (nodes m) pp p cs q nullptr -> Forall valid_addr (addrs cs) ->
  (length cs < fuel)%nat ->
  iterate_loop fuel (mkIterator p) m = Ok (values cs, m).
Proof.
  revert fuel. induction cs as [|[a v] cs IH]; intros fuel m pp p q Hd Hv Hf.
  - destruct fuel as [|fuel]; [simpl in Hf; lia|]. destruct Hd as [-> _].
    reflexivity.
  - destruct fuel as [|fuel]; [simpl in Hf; lia|]. simpl in Hf.
    destruct Hd as (-> & r & Ha & Hd).
    unfold addrs in Hv. simpl in Hv. apply Forall_cons in Hv as [Hva Hv].
    pose proof (valid_addr_nonnull _ Hva) as Hnz.
    cbn [iterate_loop]. unfold Iterator_ne, Iterator_eq, end_. simpl.
    rewrite bool_decide_eq_false_2 by exact Hnz. simpl.
    unfold bind, Iterator_deref, Iterator_incr, bind. simpl.
    erewrite get_data_ok; [|exact Hnz|exact Ha]. simpl.
    erewrite get_next_ok; [|exact Hnz|exact Ha]. simpl.
    erewrite IH; [reflexivity|exact Hd|exact Hv|lia].
Qed.

Lemma iterate_ok m l cs : is_list m l cs -> iterate l m = Ok (values cs, m).
Proof.
  intros (Hd & Hnd & Hv & _). unfold iterate, begin.
  eapply iterate_loop_ok; [exact Hd|exact Hv|].
  pose proof (dseg_length_le _ _ _ _ _ _ Hd Hnd). lia.
Qed.


Lemma is_list_Size m l cs : is_list m l cs -> Size l = Z.of_nat (length cs).
Proof. by intros (_ & _ & _ & Hs). Qed.

(** ** Enough memory *)

Lemma can_allocate_next n m :
  can_allocate (S n) m ->
  alloc_next m <> nullptr /\ oracle m = alloc_next m :: tail (oracle m).
Proof.
  intros (Hlen & Hnd & Hv). unfold alloc_next.
  destruct (oracle m) as [|a o]; [simpl in Hlen; lia|]. simpl in Hv.
  apply Forall_cons in Hv as [[Hva Hfa] _].
  rewrite decide_True by (by split). split; [by apply valid_addr_nonnull|done].
Qed.

Lemma can_allocate_step n m m' :
  can_allocate (S n) m ->
  oracle m' = tail (oracle m) ->
  (forall p, p <> alloc_next m -> nodes m !! p = None -> nodes m' !! p = None) ->
  can_allocate n m'.
Proof.
  intros Hcan Ho Hfr. destruct (can_allocate_next _ _ Hcan) as [_ Heq].
  destruct Hcan as (Hlen & Hnd & Hv). rewrite Heq in Hlen, Hnd, Hv.
  simpl in Hlen, Hnd, Hv. apply NoDup_cons in Hnd as [Hna Hnd].
  apply Forall_cons in Hv as [_ Hv]. unfold can_allocate. rewrite Ho.
  split; [lia|]. split; [exact Hnd|].
  rewrite Forall_forall in Hv. apply Forall_forall. intros x Hx.
  destruct (Hv x Hx) as [Hvx Hfx]. split; [exact Hvx|]. apply Hfr; [|exact Hfx].
  intros ->. by apply Hna.
Qed.

Lemma can_allocate_mono n m m' :
  can_allocate n m -> oracle m' = oracle m ->
  (forall p, nodes m !! p = None -> nodes m' !! p = None) ->
  can_allocate n m'.
Proof.
  intros (Hlen & Hnd & Hv) Ho Hfr. unfold can_allocate. rewrite Ho.
  split; [exact Hlen|].
  split; [exact Hnd|]. eapply Forall_impl; [exact Hv|].
  intros x [Hvx Hfx]. split; [exact Hvx|by apply Hfr].
Qed.

(** A [PushBack] when the allocator has memory. *)
Lemma PushBack_enough v n m l cs :
  is_list m l cs -> can_allocate (S n) m ->
  exists l' m',
    PushBack v l m = Ok ((true, l'), m') /\
    is_list m' l' (cs ++ [(alloc_next m, v)]) /\
    can_allocate n m' /\
    nodes m !! alloc_next m = None /\
    oracle m = alloc_next m :: oracle m' /\
    (forall p, p <> alloc_next m -> p ∉ addrs cs -> nodes m' !! p = nodes m !! p).
Proof.
  intros Hl Hcan. destruct (can_allocate_next _ _ Hcan) as [Ha Heq].
  destruct (PushBack_ok v _ _ _ Hl Ha) as (l' & m' & Hrun & Hl' & Ho & Hfr).
  destruct (alloc_next_fresh m Ha) as [_ Hfa].
  exists l', m'. split; [exact Hrun|]. split; [exact Hl'|]. split; [|split; [|split]].
  - apply (can_allocate_step _ _ _ Hcan Ho). intros p Hp Hn.
    rewrite Hfr; [exact Hn|exact Hp|]. by eapply is_list_fresh.
  - exact Hfa.
  - by rewrite Ho.
  - exact Hfr.
Qed.

(** A [PushFront] when the allocator has memory. *)
Lemma PushFront_enough v n m l cs :
  is_list m l cs -> can_allocate (S n) m ->
  exists l' m',
    PushFront v l m = Ok ((true, l'), m') /\
    is_list m' l' ((alloc_next m, v) :: cs) /\
    can_allocate n m'.
Proof.
  intros Hl Hcan. destruct (can_allocate_next _ _ Hcan) as [Ha Heq].
  destruct (PushFront_ok v _ _ _ Hl Ha) as (l' & m' & Hrun & Hl' & Ho & Hfr).
  exists l', m'. split; [exact Hrun|]. split; [exact Hl'|].
  apply (can_allocate_step _ _ _ Hcan Ho). intros p Hp Hn.
  rewrite Hfr; [exact Hn|exact Hp|]. by eapply is_list_fresh.
Qed.

(** The pushes succeed as long as the allocator has memory: when its next
    [n] answers are distinct free addresses, the first [n] pushes of a
    sequence return true. *)
Lemma PushBack_all_prefix vs : forall n m l cs bs l' m',
  is_list m l cs -> can_allocate n m ->
  PushBack_all vs l m = Ok ((bs, l'), m') ->
  take n bs = replicate (n `min` length vs) true.
Proof.
  induction vs as [|v vs IH]; intros n m l cs bs l' m' Hl Hcan Hrun.
  - injection Hrun as <- _ _. rewrite take_nil. by rewrite Nat.min_0_r.
  - destruct n as [|n]; [by rewrite take_0|].
    destruct (PushBack_enough v _ _ _ _ Hl Hcan) as (l1 & m1 & Hpush & Hl1 & Hcan1 & _).
    cbn [PushBack_all] in Hrun. unfold bind in Hrun. rewrite Hpush in Hrun.
    cbn [fst snd] in Hrun.
    destruct (PushBack_all vs l1 m1) as [[[bs1 l2] m2]| |] eqn:Hrest; try discriminate.
    unfold ret in Hrun. cbn [fst snd] in Hrun. injection Hrun as <- _ _.
    cbn [take length]. rewrite <- Nat.succ_min_distr. cbn [replicate].
    f_equal. exact (IH n m1 l1 _ bs1 l2 m2 Hl1 Hcan1 Hrest).
Qed.

Lemma PushFront_all_prefix vs : forall n m l cs bs l' m',
  is_list m l cs -> can_allocate n m ->
  PushFront_all vs l m = Ok ((bs, l'), m') ->
  take n bs = replicate (n `min` length vs) true.
Proof.
  induction vs as [|v vs IH]; intros n m l cs bs l' m' Hl Hcan Hrun.
  - injection Hrun as <- _ _. rewrite take_nil. by rewrite Nat.min_0_r.
  - destruct n as [|n]; [by rewrite take_0|].
    destruct (PushFront_enough v _ _ _ _ Hl Hcan) as (l1 & m1 & Hpush & Hl1 & Hcan1).
    cbn [PushFront_all] in Hrun. unfold bind in Hrun. rewrite Hpush in Hrun.
    cbn [fst snd] in Hrun.
    destruct (PushFront_all vs l1 m1) as [[[bs1 l2] m2]| |] eqn:Hrest; try discriminate.
    unfold ret in Hrun. cbn [fst snd] in Hrun. injection Hrun as <- _ _.
    cbn [take length]. rewrite <- Nat.succ_min_distr. cbn [replicate].
    f_equal. exact (IH n m1 l1 _ bs1 l2 m2 Hl1 Hcan1 Hrest).
Qed.

Lemma prefix_all_true (bs : list bool) (n : nat) :
  length bs = n -> take n bs = replicate (n `min` n) true ->
  bs = replicate n true.
Proof.
  intros Hlen Ht. rewrite Nat.min_id in Ht. rewrite <- Ht.
  symmetry. apply take_ge. lia.
Qed.

(** ** Sequences of pushes *)

Lemma PushBack_all_ok vs : forall m l cs,
  is_list m l cs ->
  exists bs l' m' cs',
    PushBack_all vs l m = Ok ((bs, l'), m') /\
    is_list m' l' (cs ++ cs') /\
    values cs' = pushed vs bs /\
    length bs = length vs /\
    Z.of_nat (length cs') = successes bs.
Proof.
  induction vs as [|v vs IH]; intros m l cs Hl.
  - exists [], l, m, []. rewrite app_nil_r.
    split; [reflexivity|]. split; [exact Hl|]. by repeat split.
  - cbn [PushBack_all]. unfold bind.
    destruct (decide (alloc_next m = nullptr)) as [Hf|Hs].
    + rewrite PushBack_fail by exact Hf. simpl.
      assert (Hl' : is_list (mkMem (nodes m) (tail (oracle m))) l cs).
      { eapply is_list_frame; [|exact Hl]. done. }
      destruct (IH _ _ _ Hl') as (bs & l' & m' & cs' & Hrun & Hl'' & Hvs & Hlen & Hcnt).
      rewrite Hrun. unfold ret. simpl.
      exists (false :: bs), l', m', cs'.
      split; [reflexivity|]. split; [exact Hl''|]. split; [exact Hvs|].
      split; [simpl; by rewrite Hlen|exact Hcnt].
    + destruct (PushBack_ok v _ _ _ Hl Hs) as (l1 & m1 & Hpush & Hl1 & _ & _).
      rewrite Hpush. simpl.
      destruct (IH _ _ _ Hl1) as (bs & l' & m' & cs' & Hrun & Hl'' & Hvs & Hlen & Hcnt).
      rewrite Hrun. unfold ret. simpl.
      exists (true :: bs), l', m', ((alloc_next m, v) :: cs').
      split; [reflexivity|]. split; [|split; [|split]].
      * by rewrite <- app_assoc in Hl''.
      * change (v :: values cs' = v :: pushed vs bs). by rewrite Hvs.
      * simpl. by rewrite Hlen.
      * simpl length. cbn [successes]. lia.
Qed.

Lemma pushed_all_true vs : pushed vs (replicate (length vs) true) = vs.
Proof. induction vs as [|v vs IH]; simpl; [done|]. by rewrite IH. Qed.

(** C6: for every sequence of PushBack calls that starts from the empty
    list, in every memory and whatever the allocator answers, the calls
    return, iterating from begin() to end() yields the values whose push
    succeeded, in push order, and the size is the number of successful
    pushes.  The pushes succeed as long as the allocator has memory: when
    its next n answers are distinct free addresses the first n pushes
    return true, and when this holds for as many answers as there are
    values, every push returns true and the iteration yields all the
    values in push order. *)
Theorem PushBack_sequence_in_push_order (vs : list T) (m : Mem) :
  exists bs l m',
    PushBack_all vs List_new m = Ok ((bs, l), m') /\
    length bs = length vs /\
    iterate l m' = Ok (pushed vs bs, m') /\
    Size l = successes bs /\
    Size l = Z.of_nat (length (pushed vs bs)) /\
    (forall n, can_allocate n m ->
       take n bs = replicate (n `min` length vs) true) /\
    (can_allocate (length vs) m ->
       bs = replicate (length vs) true /\
       iterate l m' = Ok (vs, m') /\
       Size l = Z.of_nat (length vs)).
Proof.
  destruct (PushBack_all_ok vs m List_new [] (is_list_nil m))
    as (bs & l & m' & cs' & Hrun & Hl & Hvs & Hlen & Hcnt).
  simpl in Hl. exists bs, l, m'. split; [exact Hrun|]. split; [exact Hlen|].
  assert (Hit : iterate l m' = Ok (pushed vs bs, m')).
  { rewrite (iterate_ok _ _ _ Hl). by rewrite Hvs. }
  assert (Hsz : Size l = Z.of_nat (length (pushed vs bs))).
  { rewrite (is_list_Size _ _ _ Hl). rewrite <- Hvs. unfold values.
    by rewrite length_fmap. }
  assert (Hpre : forall n, can_allocate n m ->
            take n bs = replicate (n `min` length vs) true).
  { intros n Hcan.
    exact (PushBack_all_prefix vs n m List_new [] bs l m' (is_list_nil m) Hcan Hrun). }
  split; [exact Hit|]. split; [|split; [exact Hsz|split; [exact Hpre|]]].
  - rewrite (is_list_Size _ _ _ Hl). exact Hcnt.
  - intros Hcan.
    assert (Hbs : bs = replicate (length vs) true).
    { apply prefix_all_true; [exact Hlen|]. by apply Hpre. }
    rewrite Hbs, pushed_all_true in Hit, Hsz. by split.
Qed.

Lemma PushFront_all_ok vs : forall m l cs,
  is_list m l cs ->
  exists bs l' m' cs',
    PushFront_all vs l m = Ok ((bs, l'), m') /\
    is_list m' l' (cs' ++ cs) /\
    values cs' = reverse (pushed vs bs) /\
    length bs = length vs.
Proof.
  induction vs as [|v vs IH]; intros m l cs Hl.
  - exists [], l, m, []. split; [reflexivity|]. split; [exact Hl|]. by split.
  - cbn [PushFront_all]. unfold bind.
    destruct (decide (alloc_next m = nullptr)) as [Hf|Hs].
    + rewrite PushFront_fail by exact Hf. simpl.
      assert (Hl' : is_list (mkMem (nodes m) (tail (oracle m))) l cs).
      { eapply is_list_frame; [|exact Hl]. done. }
      destruct (IH _ _ _ Hl') as (bs & l' & m' & cs' & Hrun & Hl'' & Hvs & Hlen).
      rewrite Hrun. unfold ret. simpl.
      exists (false :: bs), l', m', cs'.
      split; [reflexivity|]. split; [exact Hl''|]. split; [exact Hvs|].
      simpl. by rewrite Hlen.
    + destruct (PushFront_ok v _ _ _ Hl Hs) as (l1 & m1 & Hpush & Hl1 & _ & _).
      rewrite Hpush. simpl.
      destruct (IH _ _ _ Hl1) as (bs & l' & m' & cs' & Hrun & Hl'' & Hvs & Hlen).
      rewrite Hrun. unfold ret. simpl.
      exists (true :: bs), l', m', (cs' ++ [(alloc_next m, v)]).
      split; [reflexivity|]. split; [by rewrite <- app_assoc|]. split.
      * unfold values in *. rewrite fmap_app, Hvs. cbn [pushed].
        by rewrite reverse_cons.
      * simpl. by rewrite Hlen.
Qed.

(** X2: for every sequence of PushFront calls that starts from the empty
    list, in every memory and whatever the allocator answers, the calls
    return and iterating from begin() to end() yields the values whose
    push succeeded in reverse push order.  The pushes succeed as long as
    the allocator has memory: when its next n answers are distinct free
    addresses the first n pushes return true, and when this holds for as
    many answers as there are values, every push returns true and the
    iteration yields all the values in reverse push order. *)
Theorem PushFront_sequence_in_reverse_order (vs : list T) (m : Mem) :
  exists bs l m',
    PushFront_all vs List_new m = Ok ((bs, l), m') /\
    length bs = length vs /\
    iterate l m' = Ok (reverse (pushed vs bs), m') /\
    Size l = Z.of_nat (length (pushed vs bs)) /\
    (forall n, can_allocate n m ->
       take n bs = replicate (n `min` length vs) true) /\
    (can_allocate (length vs) m ->
       bs = replicate (length vs) true /\
       iterate l m' = Ok (reverse vs, m') /\
       Size l = Z.of_nat (length vs)).
Proof.
  destruct (PushFront_all_ok vs m List_new [] (is_list_nil m))
    as (bs & l & m' & cs' & Hrun & Hl & Hvs & Hlen).
  rewrite app_nil_r in Hl. exists bs, l, m'. split; [exact Hrun|].
  split; [exact Hlen|].
  assert (Hit : iterate l m' = Ok (reverse (pushed vs bs), m')).
  { rewrite (iterate_ok _ _ _ Hl). by rewrite Hvs. }
  assert (Hsz : Size l = Z.of_nat (length (pushed vs bs))).
  { rewrite (is_list_Size _ _ _ Hl).
    rewrite <- (length_reverse (pushed vs bs)), <- Hvs. unfold values.
    by rewrite length_fmap. }
  assert (Hpre : forall n, can_allocate n m ->
            take n bs = replicate (n `min` length vs) true).
  { intros n Hcan.
    exact (PushFront_all_prefix vs n m List_new [] bs l m' (is_list_nil m) Hcan Hrun). }
  split; [exact Hit|]. split; [exact Hsz|]. split; [exact Hpre|].
  intros Hcan.
  assert (Hbs : bs = replicate (length vs) true).
  { apply prefix_all_true; [exact Hlen|]. by apply Hpre. }
  rewrite Hbs, pushed_all_true in Hit, Hsz. by split.
Qed.

(** X1: Clear() on every well-formed list returns; it frees every node of
    the list and no other, the size is 0 afterwards and begin() equals
    end(), so that an iteration ends at once. *)
Theorem Clear_empties_the_list (m : Mem) (l : List) (cs : cells) :
  is_list m l cs ->
  exists l' m',
    Clear l m = Ok (l', m') /\
    Size l' = 0 /\
    begin l' = end_ /\
    iterate l' m' = Ok ([], m') /\
    (forall a, a ∈ addrs cs -> nodes m' !! a = None) /\
    (forall p, p ∉ addrs cs -> nodes m' !! p = nodes m !! p).
Proof.
  intros Hl. rewrite (Clear_ok _ _ _ Hl). eexists _, _. split; [reflexivity|].
  split; [reflexivity|]. split; [reflexivity|]. split; [reflexivity|]. split.
  - intros a Ha. simpl. rewrite lookup_foldr_delete. by rewrite decide_True.
  - intros p Hp. simpl. rewrite lookup_foldr_delete. by rewrite decide_False.
Qed.

(** ** Round trip at the back *)

(** C7: for every well-formed list state and every value x, a successful
    PushBack(x) followed by PopBack() gives back the list object (head,
    tail and size) and the node heap exactly as they were before, hence the
    same sequence of contents. *)
Theorem PushBack_PopBack_roundtrip (m : Mem) (l : List) (cs : cells) (x : T)
    (l1 : List) (m1 : Mem) :
  is_list m l cs ->
  PushBack x l m = Ok ((true, l1), m1) ->
  exists m2,
    PopBack l1 m1 = Ok (l, m2) /\
    nodes m2 = nodes m /\
    Size l1 = Size l + 1 /\
    iterate l1 m1 = Ok (values cs ++ [x], m1) /\
    iterate l m2 = Ok (values cs, m2).
Proof.
  intros Hl Hpush.
  assert (Ha : alloc_next m <> nullptr).
  { intros Hf. rewrite PushBack_fail in Hpush by exact Hf. discriminate. }
  destruct (PushBack_ok x _ _ _ Hl Ha) as (l1' & m1' & Hpush' & Hl1 & _ & Hfr1).
  rewrite Hpush in Hpush'. injection Hpush' as <- <-.
  destruct (alloc_next_fresh m Ha) as [Hva Hfa].
  destruct (PopBack_snoc _ _ _ _ _ Hl1) as (l2 & m2 & Hpop & Hl2 & _ & Hgone & Hfr2).
  destruct (is_list_agree _ _ _ _ _ Hl Hl2) as [<- Hag].
  exists m2. split; [exact Hpop|]. split; [|split; [|split]].
  - apply map_eq. intros p.
    destruct (decide (p = alloc_next m)) as [->|Hne]; [by rewrite Hgone, Hfa|].
    destruct (decide (p ∈ addrs cs)) as [Hin|Hnin]; [symmetry; by apply Hag|].
    rewrite Hfr2.
    + by apply Hfr1.
    + unfold addrs in *. rewrite fmap_app. simpl. set_solver.
  - destruct Hl as (_ & _ & _ & Hs). destruct Hl1 as (_ & _ & _ & Hs1).
    unfold Size. rewrite Hs, Hs1, length_app. simpl. lia.
  - rewrite (iterate_ok _ _ _ Hl1). unfold values. by rewrite fmap_app.
  - by rewrite (iterate_ok _ _ _ Hl2).
Qed.

(** ** Popping an empty list *)

(** C8: PopFront() and PopBack() on an empty list return without any
    undefined access and leave the list empty, with size 0, and the memory
    as it was; at a size of at most 1 either of them is Clear(). *)
Theorem Pop_on_empty_list_is_Clear (m : Mem) :
  PopFront List_new m = Ok (List_new, m) /\
  PopBack List_new m = Ok (List_new, m) /\
  Size List_new = 0 /\
  Empty List_new = true /\
  begin List_new = end_ /\
  (forall l : List, size_ l <= 1 ->
     PopFront l m = Clear l m /\ PopBack l m = Clear l m).
Proof.
  split; [apply PopFront_nil|]. split; [apply PopBack_nil|].
  split; [reflexivity|]. split; [reflexivity|]. split; [reflexivity|].
  intros l Hs. unfold PopFront, PopBack. by rewrite !decide_True by exact Hs.
Qed.


(** ** Allocation failure in the pushes *)

Lemma PushBack_not_false v l m l' m' :
  alloc_next m <> nullptr -> PushBack v l m <> Ok ((false, l'), m').
Proof.
  intros Ha. unfold PushBack, bind. rewrite Node_New_ok by exact Ha.
  rewrite decide_False by exact Ha.
  unfold set_next, set_previous, bind, load, store, ret.
  repeat case_match; discriminate.
Qed.

Lemma PushFront_not_false v l m l' m' :
  alloc_next m <> nullptr -> PushFront v l m <> Ok ((false, l'), m').
Proof.
  intros Ha. unfold PushFront, bind. rewrite Node_New_ok by exact Ha.
  rewrite decide_False by exact Ha.
  unfold set_next, set_previous, bind, load, store, ret.
  repeat case_match; discriminate.
Qed.

(** C9: when the allocation fails, PushFront(value) and PushBack(value)
    return false and leave the list object (head, tail, size) and every
    node as they were, in every list state; they return false only when
    the allocation failed; and on a well-formed list they succeed whenever
    the allocation does. *)
Theorem Push_fails_only_on_allocation_failure (v : T) (l : List) (m : Mem) :
  (alloc_next m = nullptr ->
     PushFront v l m = Ok ((false, l), mkMem (nodes m) (tail (oracle m))) /\
     PushBack v l m = Ok ((false, l), mkMem (nodes m) (tail (oracle m)))) /\
  (forall l' m', PushFront v l m = Ok ((false, l'), m') ->
     alloc_next m = nullptr /\ l' = l /\ nodes m' = nodes m) /\
  (forall l' m', PushBack v l m = Ok ((false, l'), m') ->
     alloc_next m = nullptr /\ l' = l /\ nodes m' = nodes m) /\
  (forall cs, is_list m l cs -> alloc_next m <> nullptr ->
     (exists l' m', PushFront v l m = Ok ((true, l'), m')) /\
     (exists l' m', PushBack v l m = Ok ((true, l'), m'))).
Proof.
  split; [|split; [|split]].
  - intros Hf. split; [by apply PushFront_fail | by apply PushBack_fail].
  - intros l' m' Hr. destruct (decide (alloc_next m = nullptr)) as [Hf|Hs].
    + rewrite PushFront_fail in Hr by exact Hf. injection Hr as <- <-. done.
    + by apply PushFront_not_false in Hr.
  - intros l' m' Hr. destruct (decide (alloc_next m = nullptr)) as [Hf|Hs].
    + rewrite PushBack_fail in Hr by exact Hf. injection Hr as <- <-. done.
    + by apply PushBack_not_false in Hr.
  - intros cs Hl Ha. split.
    + destruct (PushFront_ok v _ _ _ Hl Ha) as (l' & m' & Hr & _). eauto.
    + destruct (PushBack_ok v _ _ _ Hl Ha) as (l' & m' & Hr & _). eauto.
Qed.

(** ** Iterators at the end of the list *)

Lemma Iterator_incr_end m : Iterator_incr end_ m = Fault.
Proof. reflexivity. Qed.

Lemma Iterator_incr_ok m it n :
  node_ it <> nullptr -> nodes m !! node_ it = Some n ->
  Iterator_incr it m = Ok (mkIterator (next n), m).
Proof.
  intros Hz Hn. unfold Iterator_incr, bind. erewrite get_next_ok; [|exact Hz|exact Hn].
  reflexivity.
Qed.

Lemma Iterator_incr_inv m it it' m' :
  Iterator_incr it m = Ok (it', m') ->
  node_ it <> nullptr /\ exists n, nodes m !! node_ it = Some n /\
    it' = mkIterator (next n) /\ m' = m.
Proof.
  unfold Iterator_incr, get_next, bind, load, ret.
  destruct (decide (node_ it = nullptr)) as [|Hz]; [discriminate|].
  destruct (nodes m !! node_ it) as [n|] eqn:Hn; [|discriminate].
  intros [= <- <-]. split; [exact Hz|]. by exists n.
Qed.

(** The node of every cell of a well-formed list is live. *)
Lemma is_list_node m l cs a :
  is_list m l cs -> a ∈ addrs cs ->
  a <> nullptr /\ exists n, nodes m !! a = Some n.
Proof.
  intros Hl Ha. split.
  - destruct Hl as (_ & _ & Hv & _). rewrite Forall_forall in Hv.
    apply valid_addr_nonnull. by apply Hv.
  - by apply (is_list_lookup _ _ _ _ Hl Ha).
Qed.

(** C10: advancing an iterator that holds the end sentinel, by ++ or by
    += of a positive count, dereferences the null pointer in every memory;
    so does advancing twice from the last node of a list: the first step
    reaches the sentinel.  An advance that returns started at a live node,
    and it returns from every node of a well-formed list. *)
Theorem Iterator_advance_at_end_faults (m : Mem) :
  Iterator_incr end_ m = Fault /\
  (forall n, 0 < n -> Iterator_add n end_ m = Fault) /\
  (forall l cs a v, is_list m l (cs ++ [(a, v)]) ->
     Iterator_incr (last l) m = Ok (end_, m) /\
     Iterator_add 2 (last l) m = Fault) /\
  (forall it it' m', Iterator_incr it m = Ok (it', m') ->
     node_ it <> nullptr /\ is_Some (nodes m !! node_ it)) /\
  (forall l cs it, is_list m l cs -> node_ it ∈ addrs cs ->
     exists it', Iterator_incr it m = Ok (it', m)).
Proof.
  split; [reflexivity|]. split; [|split; [|split]].
  - intros n Hn. unfold Iterator_add.
    destruct (Z.to_nat n) as [|k] eqn:Hk; [lia|]. reflexivity.
  - intros l cs a v Hl.
    assert (Hin : a ∈ addrs (cs ++ [(a, v)])).
    { unfold addrs. rewrite fmap_app. simpl. set_solver. }
    destruct (is_list_node _ _ _ _ Hl Hin) as [Hz _].
    destruct Hl as (Hd & _). apply dseg_snoc in Hd as (Hq & r & Ha & _).
    assert (Hstep : Iterator_incr (last l) m = Ok (end_, m)).
    { rewrite (Iterator_incr_ok m (last l) (mkNode r nullptr v)); [reflexivity| |].
      - simpl. by rewrite Hq.
      - simpl. rewrite Hq. exact Ha. }
    split; [exact Hstep|].
    unfold Iterator_add. simpl. unfold bind. rewrite Hstep. reflexivity.
  - intros it it' m' Hr. apply Iterator_incr_inv in Hr as (Hz & n & Hn & _).
    split; [exact Hz|]. by exists n.
  - intros l cs it Hl Hin. destruct (is_list_node _ _ _ _ Hl Hin) as [Hz [n Hn]].
    eexists. by apply Iterator_incr_ok.
Qed.


(** ** Frames *)

Lemma evolves_refl m m' cs :
  nodes m' = nodes m -> evolves m cs m' cs.
Proof. intros Hn. split; [by left|]. intros p _ _. by rewrite Hn. Qed.

Lemma evolves_trans m cs m1 cs1 m2 cs2 :
  evolves m cs m1 cs1 -> evolves m1 cs1 m2 cs2 -> evolves m cs m2 cs2.
Proof.
  intros [Hin1 Hfr1] [Hin2 Hfr2]. split.
  - intros a Ha. destruct (Hin2 a Ha) as [Ha1|Hnone]; [by apply Hin1|].
    destruct (decide (a ∈ addrs cs)) as [|Hnin]; [by left|]. right.
    destruct (nodes m !! a) as [n|] eqn:Hn; [|done].
    rewrite Hfr1 in Hnone; [|done|by rewrite Hn]. by rewrite Hn in Hnone.
  - intros p Hp [n Hn].
    assert (Hp1 : p ∉ addrs cs1).
    { intros Hc. destruct (Hin1 p Hc) as [|Hnone]; [done|]. by rewrite Hn in Hnone. }
    rewrite Hfr2; [by apply Hfr1|done|]. rewrite Hfr1; [by rewrite Hn|done|by rewrite Hn].
Qed.

(** A second list, with cells of its own, is not touched. *)
Lemma evolves_frame m cs m' cs' l2 cs2 :
  evolves m cs m' cs' -> is_list m l2 cs2 ->
  (forall a, a ∈ addrs cs2 -> a ∉ addrs cs) ->
  is_list m' l2 cs2 /\ (forall a, a ∈ addrs cs2 -> a ∉ addrs cs').
Proof.
  intros [Hin Hfr] Hl2 Hdis. split.
  - eapply is_list_frame; [|exact Hl2]. intros a Ha. apply Hfr; [by apply Hdis|].
    by eapply is_list_lookup.
  - intros a Ha Hc. destruct (Hin a Hc) as [Hcs|Hnone]; [by eapply Hdis|].
    destruct (is_list_lookup _ _ _ _ Hl2 Ha) as [n Hn]. by rewrite Hn in Hnone.
Qed.

Lemma evolves_alloc_fail m cs :
  evolves m cs (mkMem (nodes m) (tail (oracle m))) cs.
Proof. by apply evolves_refl. Qed.

Lemma evolves_PushBack m cs m' a v :
  nodes m !! a = None ->
  (forall p, p <> a -> p ∉ addrs cs -> nodes m' !! p = nodes m !! p) ->
  evolves m cs m' (cs ++ [(a, v)]).
Proof.
  intros Hfa Hfr. split.
  - intros x Hx. unfold addrs in *. rewrite fmap_app in Hx. simpl in Hx.
    apply elem_of_app in Hx as [Hx|Hx]; [by left|]. right.
    apply list_elem_of_singleton in Hx. by subst.
  - intros p Hp [n Hn]. apply Hfr; [|done]. intros ->. by rewrite Hn in Hfa.
Qed.

Lemma evolves_PushFront m cs m' a v :
  nodes m !! a = None ->
  (forall p, p <> a -> p ∉ addrs cs -> nodes m' !! p = nodes m !! p) ->
  evolves m cs m' ((a, v) :: cs).
Proof.
  intros Hfa Hfr. split.
  - intros x Hx. unfold addrs in *. simpl in Hx.
    apply elem_of_cons in Hx as [->|Hx]; [by right|by left].
  - intros p Hp [n Hn]. apply Hfr; [|done]. intros ->. by rewrite Hn in Hfa.
Qed.

(** ** Resize *)

Lemma Resize_grow_ok v new_size fuel : forall m l cs,
  is_list m l cs -> (Z.to_nat (new_size - size_ l) < fuel)%nat ->
  exists b l' m' added,
    Resize_grow fuel new_size v l m = Ok ((b, l'), m') /\
    is_list m' l' (cs ++ added) /\
    values added = replicate (length added) v /\
    evolves m cs m' (cs ++ added) /\
    (if b then Z.of_nat (length added) = Z.max 0 (new_size - size_ l)
     else Z.of_nat (length added) < new_size - size_ l).
Proof.
  induction fuel as [|fuel IH]; intros m l cs Hl Hf; [lia|].
  cbn [Resize_grow]. destruct (decide (size_ l < new_size)) as [Hlt|Hge].
  - unfold bind. destruct (decide (alloc_next m = nullptr)) as [Hfail|Hsucc].
    + rewrite PushBack_fail by exact Hfail. simpl. unfold ret.
      exists false, l, (mkMem (nodes m) (tail (oracle m))), [].
      rewrite app_nil_r. split; [reflexivity|]. split.
      { eapply is_list_frame; [|exact Hl]. done. }
      split; [reflexivity|]. split; [apply evolves_alloc_fail|]. simpl. lia.
    + destruct (PushBack_ok v _ _ _ Hl Hsucc) as (l1 & m1 & Hpush & Hl1 & _ & Hfr).
      rewrite Hpush. simpl.
      destruct (alloc_next_fresh m Hsucc) as [_ Hfa].
      assert (Hs1 : size_ l1 = size_ l + 1).
      { destruct Hl as (_ & _ & _ & Hs). destruct Hl1 as (_ & _ & _ & Hs1).
        rewrite Hs, Hs1, length_app. simpl. lia. }
      destruct (IH m1 l1 _ Hl1) as (b & l' & m' & added & Hrun & Hl' & Hvs & Hev & Hb);
        [lia|].
      rewrite Hrun. exists b, l', m', ((alloc_next m, v) :: added).
      split; [reflexivity|]. split; [by rewrite <- app_assoc in Hl'|].
      split; [|split].
      * change (v :: values added = v :: replicate (length added) v). by rewrite Hvs.
      * rewrite <- app_assoc in Hev. eapply evolves_trans; [|exact Hev].
        by apply evolves_PushBack.
      * simpl length. destruct b; lia.
  - unfold ret. exists true, l, m, []. rewrite app_nil_r.
    split; [reflexivity|]. split; [exact Hl|]. split; [reflexivity|].
    split; [by apply evolves_refl|]. simpl. lia.
Qed.

Lemma evolves_PopFront m a v cs m' :
  (forall p, p ∉ addrs ((a, v) :: cs) -> nodes m' !! p = nodes m !! p) ->
  evolves m ((a, v) :: cs) m' cs.
Proof.
  intros Hfr. split.
  - intros x Hx. left. unfold addrs in *. simpl. by right.
  - intros p Hp _. by apply Hfr.
Qed.

Lemma Resize_shrink_ok new_size cs : forall fuel m l,
  is_list m l cs -> 0 <= new_size ->
  (Z.to_nat (size_ l - new_size) < fuel)%nat ->
  exists l' m',
    Resize_shrink fuel new_size l m = Ok (l', m') /\
    is_list m' l' (drop (length cs - Z.to_nat new_size) cs) /\
    evolves m cs m' (drop (length cs - Z.to_nat new_size) cs).
Proof.
  induction cs as [|[a v] cs IH]; intros fuel m l Hl Hn Hf.
  - destruct fuel as [|fuel]; [lia|]. cbn [Resize_shrink].
    pose proof Hl as (_ & _ & _ & Hs). simpl in Hs.
    rewrite decide_False by lia. unfold ret. exists l, m.
    split; [reflexivity|]. rewrite drop_nil. split; [exact Hl|by apply evolves_refl].
  - destruct fuel as [|fuel]; [lia|]. cbn [Resize_shrink].
    pose proof Hl as (_ & _ & _ & Hs). simpl length in Hs.
    destruct (decide (size_ l > new_size)) as [Hgt|Hle].
    + unfold bind.
      destruct (PopFront_cons _ _ _ _ _ Hl) as (l1 & m1 & Hpop & Hl1 & _ & _ & Hfr).
      rewrite Hpop. pose proof Hl1 as (_ & _ & _ & Hs1).
      destruct (IH fuel m1 l1 Hl1 Hn) as (l' & m' & Hrun & Hl' & Hev); [lia|].
      rewrite Hrun. exists l', m'. split; [reflexivity|].
      replace (length ((a, v) :: cs) - Z.to_nat new_size)%nat
        with (S (length cs - Z.to_nat new_size))%nat by (simpl length; lia).
      simpl drop. split; [exact Hl'|].
      eapply evolves_trans; [|exact Hev]. by apply evolves_PopFront.
    + unfold ret. exists l, m. split; [reflexivity|].
      replace (length ((a, v) :: cs) - Z.to_nat new_size)%nat with 0%nat
        by (simpl length; lia).
      rewrite drop_0. split; [exact Hl|by apply evolves_refl].
Qed.

(** What [Resize] does to a well-formed list. *)
Lemma Resize_ok v new_size m l cs :
  is_list m l cs -> 0 <= new_size ->
  exists b l' m' cs',
    Resize new_size v l m = Ok ((b, l'), m') /\
    is_list m' l' cs' /\
    evolves m cs m' cs' /\
    (b = true -> Size l' = new_size) /\
    (Size l <= new_size ->
       exists added, cs' = cs ++ added /\
         values added = replicate (length added) v /\
         (b = false -> Size l' < new_size)) /\
    (new_size < Size l ->
       b = true /\ cs' = drop (length cs - Z.to_nat new_size) cs).
Proof.
  intros Hl Hn. unfold Resize, bind, Size.
  destruct (Resize_grow_ok v new_size (S (Z.to_nat (new_size - size_ l))) m l cs Hl)
    as (b & l1 & m1 & added & Hrun & Hl1 & Hvs & Hev & Hb); [lia|].
  rewrite Hrun. cbn [fst snd].
  pose proof Hl as (_ & _ & _ & Hs). pose proof Hl1 as (_ & _ & _ & Hs1).
  rewrite length_app in Hs1.
  destruct b; cbn [fst snd negb].
  - destruct (Resize_shrink_ok new_size _ (S (Z.to_nat (size_ l1 - new_size))) m1 l1 Hl1 Hn)
      as (l2 & m2 & Hrun2 & Hl2 & Hev2); [lia|].
    rewrite Hrun2. unfold ret.
    exists true, l2, m2, (drop (length (cs ++ added) - Z.to_nat new_size) (cs ++ added)).
    split; [reflexivity|]. split; [exact Hl2|].
    split; [by eapply evolves_trans|].
    pose proof Hl2 as (_ & _ & _ & Hs2). rewrite length_drop, length_app in Hs2.
    split; [|split].
    + intros _. lia.
    + intros Hle. exists added.
      replace (length (cs ++ added) - Z.to_nat new_size)%nat with 0%nat
        by (rewrite length_app; lia).
      rewrite drop_0. split; [reflexivity|]. split; [exact Hvs|]. discriminate.
    + intros Hlt. split; [reflexivity|].
      assert (added = []) as -> by (apply length_zero_iff_nil; lia).
      by rewrite app_nil_r.
  - unfold ret. exists false, l1, m1, (cs ++ added).
    split; [reflexivity|]. split; [exact Hl1|]. split; [exact Hev|].
    split; [discriminate|]. split.
    + intros _. exists added. split; [reflexivity|]. split; [exact Hvs|].
      intros _. lia.
    + intros Hlt. lia.
Qed.


Lemma values_drop (n : nat) (cs : cells) : values (drop n cs) = drop n (values cs).
Proof. unfold values. apply fmap_drop. Qed.



(** ** Positions *)

Lemma Iterator_add_loop_in cs : forall i m pp p q qn,
  dseg (nodes m) pp p cs q qn -> Forall valid_addr (addrs cs) ->
  (i <= length cs)%nat ->
  Iterator_add_loop i (mkIterator p) m = Ok (mkIterator (addr_at cs i qn), m).
Proof.
  induction cs as [|[a v] cs IH]; intros i m pp p q qn Hd Hv Hi.
  - simpl in Hi. destruct i; [|lia]. destruct Hd as [-> _]. reflexivity.
  - destruct Hd as (-> & r & Ha & Hd). unfold addrs in Hv. simpl in Hv.
    apply Forall_cons in Hv as [Hva Hv].
    destruct i as [|i]; [reflexivity|]. simpl in Hi.
    cbn [Iterator_add_loop]. unfold bind.
    rewrite (Iterator_incr_ok m (mkIterator a) _ (valid_addr_nonnull _ Hva) Ha). simpl.
    rewrite (IH i m _ _ _ _ Hd Hv) by lia. reflexivity.
Qed.

Lemma Iterator_add_loop_out cs : forall i m pp p q,
  dseg (nodes m) pp p cs q nullptr -> Forall valid_addr (addrs cs) ->
  (length cs < i)%nat ->
  Iterator_add_loop i (mkIterator p) m = Fault.
Proof.
  induction cs as [|[a v] cs IH]; intros i m pp p q Hd Hv Hi.
  - destruct i; [simpl in Hi; lia|]. destruct Hd as [-> _]. reflexivity.
  - destruct Hd as (-> & r & Ha & Hd). unfold addrs in Hv. simpl in Hv.
    apply Forall_cons in Hv as [Hva Hv].
    destruct i as [|i]; [simpl in Hi; lia|]. simpl in Hi.
    cbn [Iterator_add_loop]. unfold bind.
    rewrite (Iterator_incr_ok m (mkIterator a) _ (valid_addr_nonnull _ Hva) Ha). simpl.
    rewrite (IH i m _ _ _ Hd Hv) by lia. reflexivity.
Qed.

(** The iterator that [begin()] and [+= i] produce on a well-formed
    list. *)
Lemma Iterator_add_begin m l cs (i : nat) :
  is_list m l cs -> (i <= length cs)%nat ->
  Iterator_add (Z.of_nat i) (begin l) m = Ok (mkIterator (addr_at cs i nullptr), m).
Proof.
  intros (Hd & _ & Hv & _) Hi. unfold Iterator_add, begin. rewrite Nat2Z.id.
  by eapply Iterator_add_loop_in.
Qed.

Lemma Iterator_add_begin_out m l cs (i : nat) :
  is_list m l cs -> (length cs < i)%nat ->
  Iterator_add (Z.of_nat i) (begin l) m = Fault.
Proof.
  intros (Hd & _ & Hv & _) Hi. unfold Iterator_add, begin. rewrite Nat2Z.id.
  by eapply Iterator_add_loop_out.
Qed.

Lemma addr_at_lookup cs i a v qn : cs !! i = Some (a, v) -> addr_at cs i qn = a.
Proof. intros H. unfold addr_at. by rewrite H. Qed.

Lemma addr_at_length cs qn : addr_at cs (length cs) qn = qn.
Proof.
  unfold addr_at. destruct (cs !! length cs) as [[a v]|] eqn:H; [|done].
  apply lookup_lt_Some in H. lia.
Qed.

Lemma cells_lookup_addr (cs : cells) i a v : cs !! i = Some (a, v) -> a ∈ addrs cs.
Proof.
  intros H. unfold addrs. apply list_elem_of_fmap. exists (a, v).
  split; [done|]. by eapply list_elem_of_lookup_2.
Qed.

(** The node of the cell at index [i]. *)
Lemma is_list_cell m l cs i a v :
  is_list m l cs -> cs !! i = Some (a, v) ->
  a <> nullptr /\ exists pp r, nodes m !! a = Some (mkNode pp r v).
Proof.
  intros Hl Hi. pose proof (cells_lookup_addr _ _ _ _ Hi) as Hin.
  destruct (is_list_node _ _ _ _ Hl Hin) as [Hz _]. split; [exact Hz|].
  destruct Hl as (Hd & _).
  apply list_elem_of_split_length in Hi as (cs1 & cs2 & -> & _).
  apply dseg_app in Hd as (j & jn & _ & Hd). destruct Hd as (_ & r & Ha & _).
  by exists j, r.
Qed.

Lemma List_at_ok m l cs (i : nat) a v :
  is_list m l cs -> cs !! i = Some (a, v) ->
  List_at (Z.of_nat i) l m = Ok (v, m).
Proof.
  intros Hl Hi. unfold List_at, bind.
  rewrite (Iterator_add_begin _ _ _ _ Hl)
    by (apply lookup_lt_Some in Hi; lia).
  rewrite (addr_at_lookup _ _ _ _ _ Hi).
  destruct (is_list_cell _ _ _ _ _ _ Hl Hi) as (Hz & pp & r & Ha).
  unfold Iterator_deref. simpl. by rewrite (get_data_ok _ _ _ Hz Ha).
Qed.


(** ** Copy *)

Lemma Copy_loop_ok n : forall fuel (i : nat) m L cs this cs2,
  is_list m L cs -> is_list m this cs2 ->
  (forall a, a ∈ addrs cs -> a ∉ addrs cs2) ->
  (i + n = length cs)%nat -> (n < fuel)%nat ->
  exists b this' m' added,
    Copy_loop fuel (Z.of_nat i) L this m = Ok ((b, this'), m') /\
    is_list m' L cs /\
    is_list m' this' (cs2 ++ added) /\
    evolves m cs2 m' (cs2 ++ added) /\
    (forall a, a ∈ addrs cs -> a ∉ addrs (cs2 ++ added)) /\
    (exists k, values added = take k (drop i (values cs))) /\
    (b = true -> values added = drop i (values cs)) /\
    (b = false -> (length added < n)%nat).
Proof.
  induction n as [|n IH]; intros fuel i m L cs this cs2 HL Hthis Hdis Hin Hf.
  - destruct fuel as [|fuel]; [lia|]. cbn [Copy_loop].
    rewrite (is_list_Size _ _ _ HL). rewrite decide_False by lia.
    unfold ret. exists true, this, m, []. rewrite app_nil_r.
    split; [reflexivity|]. split; [exact HL|]. split; [exact Hthis|].
    split; [by apply evolves_refl|]. split; [exact Hdis|].
    assert (Hdrop : drop i (values cs) = []).
    { apply drop_ge. unfold values. rewrite length_fmap. lia. }
    rewrite Hdrop. split; [by exists 0%nat|]. split; [done|discriminate].
  - destruct fuel as [|fuel]; [lia|]. cbn [Copy_loop].
    rewrite (is_list_Size _ _ _ HL). rewrite decide_True by lia.
    destruct (lookup_lt_is_Some_2 cs i) as [[a v] Hi]; [lia|].
    unfold bind. rewrite (List_at_ok _ _ _ _ _ _ HL Hi).
    assert (Hdrop : drop i (values cs) = v :: drop (S i) (values cs)).
    { apply drop_S. unfold values. rewrite list_lookup_fmap, Hi. reflexivity. }
    destruct (decide (alloc_next m = nullptr)) as [Hfail|Hsucc].
    + rewrite PushBack_fail by exact Hfail. simpl. unfold ret.
      exists false, this, (mkMem (nodes m) (tail (oracle m))), [].
      rewrite app_nil_r. split; [reflexivity|].
      split; [eapply is_list_frame; [|exact HL]; done|].
      split; [eapply is_list_frame; [|exact Hthis]; done|].
      split; [apply evolves_alloc_fail|]. split; [exact Hdis|].
      split; [by exists 0%nat|]. split; [discriminate|]. intros _. simpl. lia.
    + destruct (PushBack_ok v _ _ _ Hthis Hsucc) as (this1 & m1 & Hpush & Hthis1 & _ & Hfr).
      rewrite Hpush. simpl.
      destruct (alloc_next_fresh m Hsucc) as [_ Hfa].
      pose proof (evolves_PushBack m cs2 m1 _ v Hfa Hfr) as Hev1.
      destruct (evolves_frame _ _ _ _ _ _ Hev1 HL Hdis) as [HL1 Hdis1'].
      pose proof (is_list_bound _ _ _ HL) as Hbound.
      rewrite wrap_small by lia.
      replace (Z.of_nat i + 1) with (Z.of_nat (S i)) by lia.
      destruct (IH fuel (S i) m1 L cs this1 _ HL1 Hthis1 Hdis1')
        as (b & this' & m' & added & Hrun & HL' & Hthis' & Hev & Hdis2 & [k Hk] & Hb & Hbf);
        [lia|lia|].
      rewrite Hrun. exists b, this', m', ((alloc_next m, v) :: added).
      split; [reflexivity|]. split; [exact HL'|].
      split; [by rewrite <- app_assoc in Hthis'|].
      split; [rewrite <- app_assoc in Hev; by eapply evolves_trans|].
      split; [by rewrite <- app_assoc in Hdis2|].
      rewrite Hdrop. split.
      * exists (S k). change (v :: values added = v :: take k (drop (S i) (values cs))).
        by rewrite Hk.
      * split.
        { intros Hbt. change (v :: values added = v :: drop (S i) (values cs)).
          by rewrite (Hb Hbt). }
        { intros Hbf'. specialize (Hbf Hbf'). simpl. lia. }
Qed.

(** What [Copy] into a new list does, from a well-formed source. *)
Lemma Copy_ok m L cs :
  is_list m L cs ->
  exists b L2 m' cs2,
    Copy L List_new m = Ok ((b, L2), m') /\
    is_list m' L cs /\
    is_list m' L2 cs2 /\
    evolves m [] m' cs2 /\
    (forall a, a ∈ addrs cs -> a ∉ addrs cs2) /\
    (exists k, values cs2 = take k (values cs)) /\
    (b = true -> values cs2 = values cs) /\
    (b = false -> (length cs2 < length cs)%nat).
Proof.
  intros HL. unfold Copy, bind. rewrite Clear_empty.
  destruct (Copy_loop_ok (length cs) (S (Z.to_nat (Size L))) 0 m L cs List_new [])
    as (b & L2 & m' & cs2 & Hrun & Hrest); try done.
  - apply is_list_nil.
  - intros a _ Hc. unfold addrs in Hc. simpl in Hc. by apply elem_of_nil in Hc.
  - rewrite (is_list_Size _ _ _ HL). lia.
  - simpl in Hrun, Hrest. exists b, L2, m', cs2. split; [exact Hrun|exact Hrest].
Qed.


(** The copy goes on as long as the allocator has memory: when its next
    [j] answers are distinct free addresses, the loop of [Copy] either
    copies every remaining element and reports true, or has added at
    least [j] elements. *)
Lemma Copy_loop_progress n : forall fuel (i : nat) m L cs this cs2 j b this' m',
  is_list m L cs -> is_list m this cs2 ->
  (forall a, a ∈ addrs cs -> a ∉ addrs cs2) ->
  (i + n = length cs)%nat -> (n < fuel)%nat ->
  can_allocate j m ->
  Copy_loop fuel (Z.of_nat i) L this m = Ok ((b, this'), m') ->
  b = true \/ Size this + Z.of_nat j <= Size this'.
Proof.
  induction n as [|n IH];
    intros fuel i m L cs this cs2 j b this' m' HL Hthis Hdis Hin Hf Hcan Hrun.
  - destruct fuel as [|fuel]; [lia|]. cbn [Copy_loop] in Hrun.
    rewrite (is_list_Size _ _ _ HL) in Hrun. rewrite decide_False in Hrun by lia.
    injection Hrun as <- _ _. by left.
  - destruct j as [|j].
    + right.
      destruct (Copy_loop_ok (S n) fuel i m L cs this cs2 HL Hthis Hdis Hin Hf)
        as (b0 & this0 & m0 & added & Hrun0 & _ & Hthis0 & _).
      rewrite Hrun in Hrun0. injection Hrun0 as -> -> ->.
      rewrite (is_list_Size _ _ _ Hthis), (is_list_Size _ _ _ Hthis0), length_app.
      lia.
    + destruct fuel as [|fuel]; [lia|]. cbn [Copy_loop] in Hrun.
      rewrite (is_list_Size _ _ _ HL) in Hrun. rewrite decide_True in Hrun by lia.
      destruct (lookup_lt_is_Some_2 cs i) as [[a v] Hi]; [lia|].
      unfold bind in Hrun. rewrite (List_at_ok _ _ _ _ _ _ HL Hi) in Hrun.
      destruct (PushBack_enough v _ _ _ _ Hthis Hcan)
        as (this1 & m1 & Hpush & Hthis1 & Hcan1 & Hfa & Ho & Hfr).
      rewrite Hpush in Hrun. cbn [fst snd negb] in Hrun.
      pose proof (evolves_PushBack m cs2 m1 _ v Hfa Hfr) as Hev1.
      destruct (evolves_frame _ _ _ _ _ _ Hev1 HL Hdis) as [HL1 Hdis1].
      pose proof (is_list_bound _ _ _ HL) as Hbound.
      rewrite wrap_small in Hrun by lia.
      replace (Z.of_nat i + 1) with (Z.of_nat (S i)) in Hrun by lia.
      destruct (IH fuel (S i) m1 L cs this1 _ j b this' m' HL1 Hthis1 Hdis1)
        as [Hb|Hsz]; [lia|lia|exact Hcan1|exact Hrun| |].
      * by left.
      * right. rewrite (is_list_Size _ _ _ Hthis).
        rewrite (is_list_Size _ _ _ Hthis1), length_app in Hsz. simpl in Hsz. lia.
Qed.

(** ** Insertion and removal at the sentinel and at the two ends *)

Lemma Insert_end v l m : Insert end_ v l m = Ok ((false, l), m).
Proof. reflexivity. Qed.

Lemma Remove_end l m : Remove end_ l m = Ok ((false, l), m).
Proof. reflexivity. Qed.

Lemma Insert_alloc_fail it v l m :
  node_ it <> nullptr -> alloc_next m = nullptr ->
  Insert it v l m = Ok ((false, l), mkMem (nodes m) (tail (oracle m))).
Proof.
  intros Hz Hf. unfold Insert, Iterator_eq. simpl.
  rewrite bool_decide_eq_false_2 by exact Hz.
  unfold bind. rewrite Node_New_fail by exact Hf.
  rewrite decide_True by reflexivity. reflexivity.
Qed.

(** [Insert] before the first cell: the previous link of the first node
    is null and [node1->next] is read through it. *)
Lemma Insert_first_faults v m l a u cs :
  is_list m l ((a, u) :: cs) -> alloc_next m <> nullptr ->
  Insert (mkIterator a) v l m = Fault.
Proof.
  intros Hl Ha.
  destruct (alloc_next_fresh m Ha) as [_ Hfa].
  assert (Hin : a ∈ addrs ((a, u) :: cs)) by (unfold addrs; simpl; left).
  destruct (is_list_node _ _ _ _ Hl Hin) as [Hz _].
  destruct Hl as (Hd & _). simpl in Hd. destruct Hd as (_ & r & Hn & _).
  assert (Hne : alloc_next m <> a) by (intros Heq; rewrite Heq, Hn in Hfa; discriminate).
  unfold Insert, Iterator_eq. simpl.
  rewrite bool_decide_eq_false_2 by exact Hz.
  unfold bind. rewrite Node_New_ok by exact Ha.
  rewrite decide_False by exact Ha.
  unfold Node_Get, Address. simpl.
  erewrite get_previous_ok; [|exact Hz|]; cycle 1.
  { simpl. rewrite lookup_insert_ne by done. exact Hn. }
  reflexivity.
Qed.

(** [Remove] of the first cell: [node1] is null and [node1->next] is
    written through it. *)
Lemma Remove_first_faults m l a u cs :
  is_list m l ((a, u) :: cs) -> Remove (mkIterator a) l m = Fault.
Proof.
  intros Hl.
  assert (Hin : a ∈ addrs ((a, u) :: cs)) by (unfold addrs; simpl; left).
  destruct (is_list_node _ _ _ _ Hl Hin) as [Hz _].
  destruct Hl as (Hd & _). simpl in Hd. destruct Hd as (_ & r & Hn & _).
  unfold Remove, Iterator_eq, This. simpl.
  rewrite bool_decide_eq_false_2 by exact Hz.
  unfold bind.
  erewrite get_previous_ok; [|exact Hz|exact Hn].
  erewrite get_next_ok; [|exact Hz|exact Hn].
  reflexivity.
Qed.

(** [Remove] of the last cell: [node3] is null and [node3->previous] is
    written through it. *)
Lemma Remove_last_faults m l cs a u :
  is_list m l (cs ++ [(a, u)]) -> Remove (mkIterator a) l m = Fault.
Proof.
  intros Hl. destruct cs as [|[b w] cs0 _] using rev_ind.
  - by eapply Remove_first_faults.
  - assert (Hin : a ∈ addrs ((cs0 ++ [(b, w)]) ++ [(a, u)])).
    { unfold addrs. rewrite !fmap_app. simpl. set_solver. }
    assert (Hinb : b ∈ addrs ((cs0 ++ [(b, w)]) ++ [(a, u)])).
    { unfold addrs. rewrite !fmap_app. simpl. set_solver. }
    destruct (is_list_node _ _ _ _ Hl Hin) as [Hz _].
    destruct (is_list_node _ _ _ _ Hl Hinb) as [Hbz _].
    destruct Hl as (Hd & _).
    apply dseg_snoc in Hd as (_ & r & Hn & Hd).
    apply dseg_snoc in Hd as (-> & r' & Hb & _).
    unfold Remove, Iterator_eq, This. simpl.
    rewrite bool_decide_eq_false_2 by exact Hz.
    unfold bind.
    erewrite get_previous_ok; [|exact Hz|exact Hn].
    erewrite get_next_ok; [|exact Hz|exact Hn]. simpl.
    erewrite set_next_ok; [|exact Hbz|exact Hb].
    reflexivity.
Qed.

(** Assignment through an iterator at a cell of the list. *)
Lemma Assign_ok v m l cs1 a u cs2 :
  is_list m l (cs1 ++ (a, u) :: cs2) ->
  exists m',
    Iterator_assign (mkIterator a) v m = Ok (tt, m') /\
    is_list m' l (cs1 ++ (a, v) :: cs2) /\
    oracle m' = oracle m /\
    (forall p, p <> a -> nodes m' !! p = nodes m !! p).
Proof.
  intros Hl.
  assert (Hin : a ∈ addrs (cs1 ++ (a, u) :: cs2)).
  { unfold addrs. rewrite fmap_app. simpl. set_solver. }
  destruct (is_list_node _ _ _ _ Hl Hin) as [Hz _].
  destruct Hl as (Hd & Hnd & Hv & Hs).
  apply dseg_app in Hd as (j & jn & Hd1 & Hd2). simpl in Hd2.
  destruct Hd2 as (-> & r & Hn & Hd2).
  unfold addrs in Hnd. rewrite fmap_app in Hnd. simpl in Hnd.
  apply NoDup_app in Hnd as (Hnd1 & Hdis & Hnd2).
  apply NoDup_cons in Hnd2 as [Hna Hnd2].
  unfold Iterator_assign, set_data, bind. simpl.
  rewrite (load_ok _ _ _ Hz Hn). unfold store.
  rewrite decide_False by exact Hz. rewrite Hn. simpl.
  eexists. split; [reflexivity|]. split; [|split; [done|]].
  - split; [|split; [|split]]; simpl.
    + apply dseg_app. exists j, a. split.
      * eapply dseg_frame; [|exact Hd1]. intros x Hx. specialize (Hdis x Hx).
        apply lookup_insert_ne. set_solver.
      * simpl. split; [done|]. exists r. split; [by rewrite lookup_insert_eq|].
        eapply dseg_frame; [|exact Hd2]. intros x Hx.
        apply lookup_insert_ne. intros ->. by apply Hna.
    + unfold addrs. rewrite fmap_app. simpl. apply NoDup_app.
      split; [done|]. split; [exact Hdis|]. by apply NoDup_cons.
    + unfold addrs in *. rewrite fmap_app in *. exact Hv.
    + rewrite Hs. rewrite !length_app. reflexivity.
  - intros p Hp. simpl. by apply lookup_insert_ne.
Qed.


(** ** Mutations keep the list well formed and leave other lists alone *)

Lemma evolves_same_addrs m cs m' cs' :
  addrs cs' = addrs cs ->
  (forall p, p ∉ addrs cs -> nodes m' !! p = nodes m !! p) ->
  evolves m cs m' cs'.
Proof.
  intros Heq Hfr. split.
  - intros a Ha. left. by rewrite <- Heq.
  - intros p Hp _. by apply Hfr.
Qed.

(** A cell at an index that is not the first has a predecessor. *)
Lemma cells_split_pred (cs : cells) (i : nat) c u :
  cs !! S i = Some (c, u) ->
  exists cs1 b w cs2, cs = cs1 ++ (b, w) :: (c, u) :: cs2.
Proof.
  intros Hi. apply list_elem_of_split_length in Hi as (l1 & cs2 & -> & Hlen).
  destruct l1 as [|[b w] cs1 _] using rev_ind; [simpl in Hlen; lia|].
  exists cs1, b, w, cs2. by rewrite <- app_assoc.
Qed.

(** Every mutation that returns leaves a well-formed list, whose new
    cells were free addresses, and no other live node is changed. *)
Lemma mutate_ok op m l cs l' m' :
  is_list m l cs -> mutate op l m = Ok (l', m') ->
  exists cs', is_list m' l' cs' /\ evolves m cs m' cs'.
Proof.
  intros Hl Hrun. destruct op as [v|v| | | |n v|i v|i|i v]; simpl in Hrun.
  - (* PushFront *)
    unfold bind in Hrun. destruct (decide (alloc_next m = nullptr)) as [Hf|Hs].
    + rewrite PushFront_fail in Hrun by exact Hf. injection Hrun as <- <-.
      exists cs. split; [eapply is_list_frame; [|exact Hl]; done|].
      apply evolves_alloc_fail.
    + destruct (PushFront_ok v _ _ _ Hl Hs) as (l1 & m1 & Hp & Hl1 & _ & Hfr).
      rewrite Hp in Hrun. injection Hrun as <- <-.
      eexists. split; [exact Hl1|]. apply evolves_PushFront; [|exact Hfr].
      by destruct (alloc_next_fresh m Hs).
  - (* PushBack *)
    unfold bind in Hrun. destruct (decide (alloc_next m = nullptr)) as [Hf|Hs].
    + rewrite PushBack_fail in Hrun by exact Hf. injection Hrun as <- <-.
      exists cs. split; [eapply is_list_frame; [|exact Hl]; done|].
      apply evolves_alloc_fail.
    + destruct (PushBack_ok v _ _ _ Hl Hs) as (l1 & m1 & Hp & Hl1 & _ & Hfr).
      rewrite Hp in Hrun. injection Hrun as <- <-.
      eexists. split; [exact Hl1|]. apply evolves_PushBack; [|exact Hfr].
      by destruct (alloc_next_fresh m Hs).
  - (* PopFront *)
    destruct cs as [|[a v] cs].
    + rewrite (is_list_nil_inv _ _ Hl), PopFront_nil in Hrun. injection Hrun as <- <-.
      exists []. split; [apply is_list_nil|by apply evolves_refl].
    + destruct (PopFront_cons _ _ _ _ _ Hl) as (l1 & m1 & Hp & Hl1 & _ & _ & Hfr).
      rewrite Hp in Hrun. injection Hrun as <- <-.
      exists cs. split; [exact Hl1|by apply evolves_PopFront].
  - (* PopBack *)
    destruct cs as [|[a v] cs _] using rev_ind.
    + rewrite (is_list_nil_inv _ _ Hl), PopBack_nil in Hrun. injection Hrun as <- <-.
      exists []. split; [apply is_list_nil|by apply evolves_refl].
    + destruct (PopBack_snoc _ _ _ _ _ Hl) as (l1 & m1 & Hp & Hl1 & _ & _ & Hfr).
      rewrite Hp in Hrun. injection Hrun as <- <-.
      exists cs. split; [exact Hl1|]. split.
      * intros x Hx. left. unfold addrs in *. rewrite fmap_app. set_solver.
      * intros p Hp' _. by apply Hfr.
  - (* Clear *)
    rewrite (Clear_ok _ _ _ Hl) in Hrun. injection Hrun as <- <-.
    exists []. split; [apply is_list_nil|]. split.
    + intros a Ha. unfold addrs in Ha. simpl in Ha. by apply elem_of_nil in Ha.
    + intros p Hp _. simpl. rewrite lookup_foldr_delete. by rewrite decide_False.
  - (* Resize *)
    unfold bind in Hrun.
    destruct (Resize_ok v (Z.of_nat n) m l cs Hl)
      as (b & l1 & m1 & cs' & Hr & Hl1 & Hev & _); [lia|].
    rewrite Hr in Hrun. injection Hrun as <- <-. by exists cs'.
  - (* Insert *)
    unfold bind in Hrun.
    destruct (decide (i <= length cs)%nat) as [Hi|Hi]; cycle 1.
    { rewrite (Iterator_add_begin_out _ _ _ _ Hl) in Hrun by lia. discriminate. }
    rewrite (Iterator_add_begin _ _ _ _ Hl Hi) in Hrun.
    destruct (cs !! i) as [[c u]|] eqn:Hc.
    + rewrite (addr_at_lookup _ _ _ _ _ Hc) in Hrun.
      destruct (is_list_cell _ _ _ _ _ _ Hl Hc) as [Hcz _].
      destruct (decide (alloc_next m = nullptr)) as [Hf|Hs].
      * rewrite Insert_alloc_fail in Hrun by done. injection Hrun as <- <-.
        exists cs. split; [eapply is_list_frame; [|exact Hl]; done|].
        apply evolves_alloc_fail.
      * destruct i as [|i].
        { destruct cs as [|[c' u'] cs0]; [discriminate|]. injection Hc as -> ->.
          rewrite (Insert_first_faults _ _ _ _ _ _ Hl Hs) in Hrun. discriminate. }
        destruct (cells_split_pred _ _ _ _ Hc) as (cs1 & b & w & cs2 & ->).
        destruct (Insert_middle v _ _ _ _ _ _ _ _ Hl Hs) as (l1 & m1 & Hp & Hl1 & _ & Hfr).
        rewrite Hp in Hrun. injection Hrun as <- <-.
        destruct (alloc_next_fresh m Hs) as [_ Hfa].
        eexists. split; [exact Hl1|]. split.
        { intros x Hx. unfold addrs in *. rewrite fmap_app in *. simpl in *.
          destruct (decide (x = alloc_next m)) as [->|Hne]; [by right|].
          left. set_solver. }
        { intros p Hp' [n Hn]. apply Hfr.
          - intros ->. by rewrite Hn in Hfa.
          - intros ->. apply Hp'. unfold addrs. rewrite fmap_app. simpl. set_solver.
          - intros ->. apply Hp'. unfold addrs. rewrite fmap_app. simpl. set_solver. }
    + unfold addr_at in Hrun. rewrite Hc in Hrun.
      change (mkIterator nullptr) with end_ in Hrun. rewrite Insert_end in Hrun.
      injection Hrun as <- <-. exists cs. split; [exact Hl|by apply evolves_refl].
  - (* Remove *)
    unfold bind in Hrun.
    destruct (decide (i <= length cs)%nat) as [Hi|Hi]; cycle 1.
    { rewrite (Iterator_add_begin_out _ _ _ _ Hl) in Hrun by lia. discriminate. }
    rewrite (Iterator_add_begin _ _ _ _ Hl Hi) in Hrun.
    destruct (cs !! i) as [[c u]|] eqn:Hc.
    + rewrite (addr_at_lookup _ _ _ _ _ Hc) in Hrun.
      destruct i as [|i].
      { destruct cs as [|[c' u'] cs0]; [discriminate|]. injection Hc as -> ->.
        rewrite (Remove_first_faults _ _ _ _ _ Hl) in Hrun. discriminate. }
      destruct (cells_split_pred _ _ _ _ Hc) as (cs1 & b & w & cs2 & ->).
      destruct cs2 as [|[d x] cs2].
      { replace (cs1 ++ [(b, w); (c, u)]) with ((cs1 ++ [(b, w)]) ++ [(c, u)]) in Hl
          by (by rewrite <- app_assoc).
        rewrite (Remove_last_faults _ _ _ _ _ Hl) in Hrun. discriminate. }
      destruct (Remove_middle _ _ _ _ _ _ _ _ _ _ Hl) as (l1 & m1 & Hp & Hl1 & _ & _ & Hfr).
      rewrite Hp in Hrun. injection Hrun as <- <-.
      eexists. split; [exact Hl1|]. split.
      { intros y Hy. left. unfold addrs in *. rewrite fmap_app in *. simpl in *.
        set_solver. }
      { intros p Hp' _. apply Hfr.
        - intros ->. apply Hp'. unfold addrs. rewrite fmap_app. simpl. set_solver.
        - intros ->. apply Hp'. unfold addrs. rewrite fmap_app. simpl. set_solver.
        - intros ->. apply Hp'. unfold addrs. rewrite fmap_app. simpl. set_solver. }
    + unfold addr_at in Hrun. rewrite Hc in Hrun.
      change (mkIterator nullptr) with end_ in Hrun. rewrite Remove_end in Hrun.
      injection Hrun as <- <-. exists cs. split; [exact Hl|by apply evolves_refl].
  - (* assignment *)
    unfold bind in Hrun.
    destruct (decide (i <= length cs)%nat) as [Hi|Hi]; cycle 1.
    { rewrite (Iterator_add_begin_out _ _ _ _ Hl) in Hrun by lia. discriminate. }
    rewrite (Iterator_add_begin _ _ _ _ Hl Hi) in Hrun.
    destruct (cs !! i) as [[c u]|] eqn:Hc.
    + rewrite (addr_at_lookup _ _ _ _ _ Hc) in Hrun.
      apply list_elem_of_split_length in Hc as (cs1 & cs2 & -> & _).
      destruct (Assign_ok v _ _ _ _ _ _ Hl) as (m1 & Hp & Hl1 & _ & Hfr).
      rewrite Hp in Hrun. injection Hrun as <- <-.
      eexists. split; [exact Hl1|]. apply evolves_same_addrs.
      * unfold addrs. by rewrite !fmap_app.
      * intros p Hp'. apply Hfr. intros ->. apply Hp'.
        unfold addrs. rewrite fmap_app. simpl. set_solver.
    + unfold addr_at in Hrun. rewrite Hc in Hrun. discriminate.
Qed.

Lemma mutate_all_ok ops : forall m l cs l' m',
  is_list m l cs -> mutate_all ops l m = Ok (l', m') ->
  exists cs', is_list m' l' cs' /\ evolves m cs m' cs'.
Proof.
  induction ops as [|op ops IH]; intros m l cs l' m' Hl Hrun.
  - injection Hrun as <- <-. exists cs. split; [exact Hl|by apply evolves_refl].
  - cbn [mutate_all] in Hrun. unfold bind in Hrun.
    destruct (mutate op l m) as [[l1 m1]| |] eqn:Hop; try discriminate.
    destruct (mutate_ok _ _ _ _ _ _ Hl Hop) as (cs1 & Hl1 & Hev1).
    destruct (IH _ _ _ _ _ Hl1 Hrun) as (cs' & Hl' & Hev').
    exists cs'. split; [exact Hl'|by eapply evolves_trans].
Qed.


(** ** Deep copies *)


(** ** The invariant *)

Lemma follow_next_dseg cs : forall h pp p z w q qn,
  dseg h pp p (cs ++ [(z, w)]) q qn -> Forall valid_addr (addrs (cs ++ [(z, w)])) ->
  follow next h (length cs) p = Some z.
Proof.
  induction cs as [|[a v] cs IH]; intros h pp p z w q qn Hd Hv.
  - simpl in Hd. destruct Hd as (-> & _). reflexivity.
  - simpl in Hd. destruct Hd as (-> & r & Ha & Hd).
    unfold addrs in Hv. simpl in Hv. apply Forall_cons in Hv as [Hva Hv].
    simpl. rewrite decide_False by (by apply valid_addr_nonnull).
    rewrite Ha. simpl. by eapply IH.
Qed.

Lemma follow_previous_dseg cs : forall h pp p a v q qn,
  dseg h pp p ((a, v) :: cs) q qn -> Forall valid_addr (addrs ((a, v) :: cs)) ->
  follow previous h (length cs) q = Some a.
Proof.
  induction cs as [|[z w] cs IH] using rev_ind; intros h pp p a v q qn Hd Hv.
  - simpl in Hd. destruct Hd as (_ & r & _ & _ & ->). reflexivity.
  - rewrite app_comm_cons in Hd, Hv. apply dseg_snoc in Hd as (-> & r & Hz & Hd).
    unfold addrs in Hv. rewrite fmap_app in Hv. apply Forall_app in Hv as [Hv Hvz].
    simpl in Hvz. pose proof (proj1 (Forall_singleton _ _) Hvz) as Hvz'.
    rewrite length_app. simpl. rewrite Nat.add_1_r. simpl.
    rewrite decide_False by (by apply valid_addr_nonnull).
    rewrite Hz. simpl. by eapply IH.
Qed.

(** A well-formed list satisfies the invariant of the specification. *)
Lemma is_list_invariant m l cs : is_list m l cs -> list_invariant m l.
Proof.
  intros Hl. pose proof (is_list_bound _ _ _ Hl) as Hb.
  pose proof Hl as (Hd & Hnd & Hv & Hs). unfold list_invariant.
  split; [lia|]. destruct cs as [|[a v] cs].
  - destruct Hd as [-> <-]. simpl in Hs. split; [by rewrite Hs|]. lia.
  - assert (Hz : a <> nullptr).
    { unfold addrs in Hv. simpl in Hv. apply Forall_cons in Hv as [Hva _].
      by apply valid_addr_nonnull. }
    pose proof Hd as (Hf & r & Ha & _). simpl length in Hs.
    split.
    { split; [lia|]. intros [Hf0 _]. congruence. }
    intros _. replace (Z.to_nat (size_ l - 1)) with (length cs) by lia.
    split; [|split; [|split]].
    + exists (mkNode nullptr r v). rewrite Hf. done.
    + destruct cs as [|[z w] cs0 _] using rev_ind.
      * destruct Hd as (_ & r' & Ha' & Hr' & <-). rewrite Ha in Ha'.
        injection Ha' as ->. subst r'. exists (mkNode nullptr nullptr v). done.
      * rewrite app_comm_cons in Hd, Hv. apply dseg_snoc in Hd as (Hq & r' & Hz' & _).
        unfold addrs in Hv. rewrite fmap_app in Hv. apply Forall_app in Hv as [_ Hvz].
        simpl in Hvz. pose proof (proj1 (Forall_singleton _ _) Hvz) as Hvz'.
        exists (mkNode r' nullptr w). rewrite Hq.
        split; [by apply valid_addr_nonnull|done].
    + destruct cs as [|[z w] cs0 _] using rev_ind.
      * destruct Hd as (_ & r' & _ & _ & <-). simpl. by rewrite Hf.
      * rewrite app_comm_cons in Hd, Hv. pose proof Hd as Hd'.
        apply dseg_snoc in Hd' as (Hq & _). rewrite Hq.
        rewrite length_app. simpl. rewrite Nat.add_1_r.
        change (S (length cs0)) with (length ((a, v) :: cs0)).
        by eapply follow_next_dseg.
    + rewrite Hf. by eapply follow_previous_dseg.
Qed.


Lemma is_list_first m l a v cs : is_list m l ((a, v) :: cs) -> first_ l = a.
Proof. by intros ((Hf & _) & _). Qed.

Lemma is_list_last m l a v cs : is_list m l (cs ++ [(a, v)]) -> last_ l = a.
Proof. intros (Hd & _). by apply dseg_snoc in Hd as (Hq & _). Qed.

(** C1: the invariant holds in the empty list and in every well-formed
    list, every mutation that returns gives a well-formed list again, and
    so the invariant holds in every state that mutations reach from the
    empty list; but Remove at the first node and at the last node of a
    list, and Insert before the first node, are positions of the list at
    which the operation does not return: it goes through a null link, and
    the head and tail links are not maintained. *)
Theorem invariant_kept_except_at_the_ends :
  (forall m, list_invariant m List_new) /\
  (forall m l cs, is_list m l cs -> list_invariant m l) /\
  (forall op m l cs l' m',
     is_list m l cs -> mutate op l m = Ok (l', m') ->
     exists cs', is_list m' l' cs' /\ list_invariant m' l') /\
  (forall ops m l' m',
     mutate_all ops List_new m = Ok (l', m') -> list_invariant m' l') /\
  (forall m l a u cs,
     is_list m l ((a, u) :: cs) -> Remove (begin l) l m = Fault) /\
  (forall m l a u cs,
     is_list m l (cs ++ [(a, u)]) -> Remove (last l) l m = Fault) /\
  (forall v m l a u cs,
     is_list m l ((a, u) :: cs) -> alloc_next m <> nullptr ->
     Insert (begin l) v l m = Fault).
Proof.
  split; [|split; [|split; [|split; [|split; [|split]]]]].
  - intros m. apply (is_list_invariant m List_new []). apply is_list_nil.
  - intros m l cs. apply is_list_invariant.
  - intros op m l cs l' m' Hl Hrun.
    destruct (mutate_ok _ _ _ _ _ _ Hl Hrun) as (cs' & Hl' & _).
    exists cs'. split; [exact Hl'|by eapply is_list_invariant].
  - intros ops m l' m' Hrun.
    destruct (mutate_all_ok ops _ _ _ _ _ (is_list_nil m) Hrun) as (cs' & Hl' & _).
    by eapply is_list_invariant.
  - intros m l a u cs Hl. unfold begin. rewrite (is_list_first _ _ _ _ _ Hl).
    by eapply Remove_first_faults.
  - intros m l a u cs Hl. unfold last. rewrite (is_list_last _ _ _ _ _ Hl).
    by eapply Remove_last_faults.
  - intros v m l a u cs Hl Ha. unfold begin. rewrite (is_list_first _ _ _ _ _ Hl).
    by eapply Insert_first_faults.
Qed.

(** C4: Insert(position, value) returns false and leaves the list and the
    nodes as they are when position is the end sentinel or the allocation
    fails; before a node that has a predecessor it makes the new node the
    neighbour in front of it, adds one to the size and keeps every other
    element in place; before the first node of the list it reads through
    the null previous link of that node and does not return. *)
Theorem Insert_splices_except_before_first (v : T) (m : Mem) (l : List) :
  Insert end_ v l m = Ok ((false, l), m) /\
  (forall it, node_ it <> nullptr -> alloc_next m = nullptr ->
     Insert it v l m = Ok ((false, l), mkMem (nodes m) (tail (oracle m)))) /\
  (forall cs1 b w c u cs2,
     is_list m l (cs1 ++ (b, w) :: (c, u) :: cs2) -> alloc_next m <> nullptr ->
     exists l' m',
       Insert (mkIterator c) v l m = Ok ((true, l'), m') /\
       is_list m' l' (cs1 ++ (b, w) :: (alloc_next m, v) :: (c, u) :: cs2) /\
       Size l' = Size l + 1 /\
       iterate l' m' = Ok (values cs1 ++ w :: v :: u :: values cs2, m')) /\
  (forall a u cs,
     is_list m l ((a, u) :: cs) -> alloc_next m <> nullptr ->
     Insert (begin l) v l m = Fault).
Proof.
  split; [reflexivity|]. split; [|split].
  - intros it Hz Hf. by apply Insert_alloc_fail.
  - intros cs1 b w c u cs2 Hl Ha.
    destruct (Insert_middle v _ _ _ _ _ _ _ _ Hl Ha) as (l' & m' & Hrun & Hl' & _).
    exists l', m'. split; [exact Hrun|]. split; [exact Hl'|]. split.
    + rewrite (is_list_Size _ _ _ Hl), (is_list_Size _ _ _ Hl').
      rewrite !length_app. simpl. lia.
    + rewrite (iterate_ok _ _ _ Hl'). unfold values. by rewrite fmap_app.
  - intros a u cs Hl Ha. unfold begin. rewrite (is_list_first _ _ _ _ _ Hl).
    by eapply Insert_first_faults.
Qed.

(** C5: Remove(position) returns false and removes nothing when position
    is the end sentinel; at a node that has a predecessor and a successor
    it unlinks the node, frees it, takes one off the size and keeps the
    other elements in order; at the first node and at the last node of the
    list it writes through a null link and does not return. *)
Theorem Remove_unlinks_except_at_the_ends (m : Mem) (l : List) :
  Remove end_ l m = Ok ((false, l), m) /\
  (forall cs1 b w c u d x cs2,
     is_list m l (cs1 ++ (b, w) :: (c, u) :: (d, x) :: cs2) ->
     exists l' m',
       Remove (mkIterator c) l m = Ok ((true, l'), m') /\
       is_list m' l' (cs1 ++ (b, w) :: (d, x) :: cs2) /\
       nodes m' !! c = None /\
       Size l' = Size l - 1 /\
       iterate l' m' = Ok (values cs1 ++ w :: x :: values cs2, m')) /\
  (forall a u cs,
     is_list m l ((a, u) :: cs) -> Remove (begin l) l m = Fault) /\
  (forall a u cs,
     is_list m l (cs ++ [(a, u)]) -> Remove (last l) l m = Fault).
Proof.
  split; [reflexivity|]. split; [|split].
  - intros cs1 b w c u d x cs2 Hl.
    destruct (Remove_middle _ _ _ _ _ _ _ _ _ _ Hl) as (l' & m' & Hrun & Hl' & _ & Hc & _).
    exists l', m'. split; [exact Hrun|]. split; [exact Hl'|]. split; [exact Hc|].
    split.
    + rewrite (is_list_Size _ _ _ Hl), (is_list_Size _ _ _ Hl').
      rewrite !length_app. simpl. lia.
    + rewrite (iterate_ok _ _ _ Hl'). unfold values. by rewrite fmap_app.
  - intros a u cs Hl. unfold begin. rewrite (is_list_first _ _ _ _ _ Hl).
    by eapply Remove_first_faults.
  - intros a u cs Hl. unfold last. rewrite (is_list_last _ _ _ _ _ Hl).
    by eapply Remove_last_faults.
Qed.


(** ** Accounting *)

Lemma accounts_evolves m cs m' cs' : accounts m cs m' cs' -> evolves m cs m' cs'.
Proof.
  intros [Hnew Hacc]. split; [exact Hnew|]. intros p Hp [n Hn].
  assert (Hp' : p ∉ addrs cs').
  { intros Hc. destruct (Hnew p Hc) as [|Hnone]; [done|]. by rewrite Hn in Hnone. }
  rewrite (Hacc p Hp'). by rewrite decide_False.
Qed.

Lemma accounts_refl m m' cs : nodes m' = nodes m -> accounts m cs m' cs.
Proof.
  intros Hn. split; [by left|]. intros p Hp. rewrite Hn. by rewrite decide_False.
Qed.

Lemma accounts_trans m cs m1 cs1 m2 cs2 :
  accounts m cs m1 cs1 -> accounts m1 cs1 m2 cs2 -> accounts m cs m2 cs2.
Proof.
  intros H1 H2. pose proof (accounts_evolves _ _ _ _ H1) as Hev1.
  pose proof (accounts_evolves _ _ _ _ H2) as Hev2.
  destruct (evolves_trans _ _ _ _ _ _ Hev1 Hev2) as [Hnew _].
  split; [exact Hnew|]. intros p Hp.
  destruct H1 as [Hnew1 Hacc1]. destruct H2 as [_ Hacc2].
  rewrite (Hacc2 p Hp). destruct (decide (p ∈ addrs cs1)) as [Hin1|Hnin1].
  - destruct (decide (p ∈ addrs cs)) as [|Hnin]; [done|].
    destruct (Hnew1 p Hin1) as [|Hnone]; [done|]. by rewrite Hnone.
  - by apply Hacc1.
Qed.

Lemma accounts_push m cs m' cs' a :
  nodes m !! a = None ->
  (forall x, x ∈ addrs cs' <-> x = a \/ x ∈ addrs cs) ->
  (forall p, p <> a -> p ∉ addrs cs -> nodes m' !! p = nodes m !! p) ->
  accounts m cs m' cs'.
Proof.
  intros Hfa Hin Hfr. split.
  - intros x Hx. apply Hin in Hx as [->|Hx]; [by right|by left].
  - intros p Hp.
    assert (p <> a) by (intros ->; apply Hp, Hin; by left).
    assert (p ∉ addrs cs) by (intros Hc; apply Hp, Hin; by right).
    rewrite decide_False by done. by apply Hfr.
Qed.

Lemma accounts_pop m cs m' cs' a :
  nodes m' !! a = None ->
  (forall x, x ∈ addrs cs <-> x = a \/ x ∈ addrs cs') ->
  (forall p, p ∉ addrs cs -> nodes m' !! p = nodes m !! p) ->
  accounts m cs m' cs'.
Proof.
  intros Hgone Hin Hfr. split.
  - intros x Hx. left. apply Hin. by right.
  - intros p Hp. destruct (decide (p ∈ addrs cs)) as [Hc|Hc].
    + apply Hin in Hc as [->|Hc]; [exact Hgone|done].
    + by apply Hfr.
Qed.

Lemma addrs_app (cs1 cs2 : cells) : addrs (cs1 ++ cs2) = addrs cs1 ++ addrs cs2.
Proof. unfold addrs. apply fmap_app. Qed.

Lemma addrs_cons a (v : T) (cs : cells) : addrs ((a, v) :: cs) = a :: addrs cs.
Proof. reflexivity. Qed.

(** What the first loop of [Resize] does to the nodes. *)
Lemma Resize_grow_accounts v new_size fuel : forall m l cs b l' m',
  is_list m l cs ->
  Resize_grow fuel new_size v l m = Ok ((b, l'), m') ->
  exists cs', is_list m' l' cs' /\ accounts m cs m' cs'.
Proof.
  induction fuel as [|fuel IH]; intros m l cs b l' m' Hl; [discriminate|].
  cbn [Resize_grow]. destruct (decide (size_ l < new_size)) as [Hlt|Hge].
  - unfold bind. destruct (decide (alloc_next m = nullptr)) as [Hfail|Hsucc].
    + rewrite PushBack_fail by exact Hfail. simpl. intros [= <- <- <-].
      exists cs. split; [eapply is_list_frame; [|exact Hl]; done|].
      by apply accounts_refl.
    + destruct (PushBack_ok v _ _ _ Hl Hsucc) as (l1 & m1 & Hpush & Hl1 & _ & Hfr).
      rewrite Hpush. simpl. intros Hrun.
      destruct (alloc_next_fresh m Hsucc) as [_ Hfa].
      destruct (IH _ _ _ _ _ _ Hl1 Hrun) as (cs' & Hl' & Hacc).
      exists cs'. split; [exact Hl'|]. eapply accounts_trans; [|exact Hacc].
      apply (accounts_push _ _ _ _ (alloc_next m)); [exact Hfa| |exact Hfr].
      intros x. rewrite addrs_app, addrs_cons. set_solver.
  - intros [= <- <- <-]. exists cs. split; [exact Hl|by apply accounts_refl].
Qed.

(** What the second loop of [Resize] does to the nodes. *)
Lemma Resize_shrink_accounts new_size fuel : forall m l cs l' m',
  is_list m l cs ->
  Resize_shrink fuel new_size l m = Ok (l', m') ->
  exists cs', is_list m' l' cs' /\ accounts m cs m' cs'.
Proof.
  induction fuel as [|fuel IH]; intros m l cs l' m' Hl; [discriminate|].
  cbn [Resize_shrink]. destruct (decide (size_ l > new_size)) as [Hgt|Hle].
  - unfold bind. destruct cs as [|[a v] cs].
    + rewrite (is_list_nil_inv _ _ Hl), PopFront_nil. intros Hrun.
      by apply (IH _ _ _ _ _ (is_list_nil m) Hrun).
    + destruct (PopFront_cons _ _ _ _ _ Hl) as (l1 & m1 & Hpop & Hl1 & _ & Hgone & Hfr).
      rewrite Hpop. intros Hrun.
      destruct (IH _ _ _ _ _ Hl1 Hrun) as (cs' & Hl' & Hacc).
      exists cs'. split; [exact Hl'|]. eapply accounts_trans; [|exact Hacc].
      apply (accounts_pop _ _ _ _ a); [exact Hgone| |exact Hfr].
      intros x. rewrite addrs_cons. set_solver.
  - intros [= <- <-]. exists cs. split; [exact Hl|by apply accounts_refl].
Qed.

Lemma Resize_accounts v new_size m l cs b l' m' :
  is_list m l cs ->
  Resize new_size v l m = Ok ((b, l'), m') ->
  exists cs', is_list m' l' cs' /\ accounts m cs m' cs'.
Proof.
  intros Hl. unfold Resize, bind.
  destruct (Resize_grow _ new_size v l m) as [[[b1 l1] m1]| |] eqn:Hg; [|discriminate..].
  destruct (Resize_grow_accounts _ _ _ _ _ _ _ _ _ Hl Hg) as (cs1 & Hl1 & Hacc1).
  cbn [fst snd]. destruct b1; cbn [negb].
  - destruct (Resize_shrink _ new_size l1 m1) as [[l2 m2]| |] eqn:Hs; [|discriminate..].
    intros [= <- <- <-].
    destruct (Resize_shrink_accounts _ _ _ _ _ _ _ Hl1 Hs) as (cs2 & Hl2 & Hacc2).
    exists cs2. split; [exact Hl2|by eapply accounts_trans].
  - intros [= <- <- <-]. by exists cs1.
Qed.

(** Every mutation that returns leaves a well-formed list and accounts
    for every node. *)
Lemma mutate_accounts op m l cs l' m' :
  is_list m l cs -> mutate op l m = Ok (l', m') ->
  exists cs', is_list m' l' cs' /\ accounts m cs m' cs'.
Proof.
  intros Hl Hrun. destruct op as [v|v| | | |n v|i v|i|i v]; simpl in Hrun.
  - (* PushFront *)
    unfold bind in Hrun. destruct (decide (alloc_next m = nullptr)) as [Hf|Hs].
    + rewrite PushFront_fail in Hrun by exact Hf. injection Hrun as <- <-.
      exists cs. split; [eapply is_list_frame; [|exact Hl]; done|by apply accounts_refl].
    + destruct (PushFront_ok v _ _ _ Hl Hs) as (l1 & m1 & Hp & Hl1 & _ & Hfr).
      rewrite Hp in Hrun. injection Hrun as <- <-.
      destruct (alloc_next_fresh m Hs) as [_ Hfa].
      eexists. split; [exact Hl1|].
      apply (accounts_push _ _ _ _ (alloc_next m)); [exact Hfa| |exact Hfr].
      intros x. rewrite addrs_cons. set_solver.
  - (* PushBack *)
    unfold bind in Hrun. destruct (decide (alloc_next m = nullptr)) as [Hf|Hs].
    + rewrite PushBack_fail in Hrun by exact Hf. injection Hrun as <- <-.
      exists cs. split; [eapply is_list_frame; [|exact Hl]; done|by apply accounts_refl].
    + destruct (PushBack_ok v _ _ _ Hl Hs) as (l1 & m1 & Hp & Hl1 & _ & Hfr).
      rewrite Hp in Hrun. injection Hrun as <- <-.
      destruct (alloc_next_fresh m Hs) as [_ Hfa].
      eexists. split; [exact Hl1|].
      apply (accounts_push _ _ _ _ (alloc_next m)); [exact Hfa| |exact Hfr].
      intros x. rewrite addrs_app, addrs_cons. set_solver.
  - (* PopFront *)
    destruct cs as [|[a v] cs].
    + rewrite (is_list_nil_inv _ _ Hl), PopFront_nil in Hrun. injection Hrun as <- <-.
      exists []. split; [apply is_list_nil|by apply accounts_refl].
    + destruct (PopFront_cons _ _ _ _ _ Hl) as (l1 & m1 & Hp & Hl1 & _ & Hgone & Hfr).
      rewrite Hp in Hrun. injection Hrun as <- <-.
      exists cs. split; [exact Hl1|].
      apply (accounts_pop _ _ _ _ a); [exact Hgone| |exact Hfr].
      intros x. rewrite addrs_cons. set_solver.
  - (* PopBack *)
    destruct cs as [|[a v] cs _] using rev_ind.
    + rewrite (is_list_nil_inv _ _ Hl), PopBack_nil in Hrun. injection Hrun as <- <-.
      exists []. split; [apply is_list_nil|by apply accounts_refl].
    + destruct (PopBack_snoc _ _ _ _ _ Hl) as (l1 & m1 & Hp & Hl1 & _ & Hgone & Hfr).
      rewrite Hp in Hrun. injection Hrun as <- <-.
      exists cs. split; [exact Hl1|].
      apply (accounts_pop _ _ _ _ a); [exact Hgone| |exact Hfr].
      intros x. rewrite addrs_app, addrs_cons. set_solver.
  - (* Clear *)
    rewrite (Clear_ok _ _ _ Hl) in Hrun. injection Hrun as <- <-.
    exists []. split; [apply is_list_nil|]. split.
    + intros a Ha. unfold addrs in Ha. simpl in Ha. by apply elem_of_nil in Ha.
    + intros p _. simpl. apply lookup_foldr_delete.
  - (* Resize *)
    unfold bind in Hrun.
    destruct (Resize (Z.of_nat n) v l m) as [[[b l1] m1]| |] eqn:Hr; [|discriminate..].
    injection Hrun as <- <-. by eapply Resize_accounts.
  - (* Insert *)
    unfold bind in Hrun.
    destruct (decide (i <= length cs)%nat) as [Hi|Hi]; cycle 1.
    { rewrite (Iterator_add_begin_out _ _ _ _ Hl) in Hrun by lia. discriminate. }
    rewrite (Iterator_add_begin _ _ _ _ Hl Hi) in Hrun.
    destruct (cs !! i) as [[c u]|] eqn:Hc.
    + rewrite (addr_at_lookup _ _ _ _ _ Hc) in Hrun.
      destruct (is_list_cell _ _ _ _ _ _ Hl Hc) as [Hcz _].
      destruct (decide (alloc_next m = nullptr)) as [Hf|Hs].
      * rewrite Insert_alloc_fail in Hrun by done. injection Hrun as <- <-.
        exists cs. split; [eapply is_list_frame; [|exact Hl]; done|by apply accounts_refl].
      * destruct i as [|i].
        { destruct cs as [|[c' u'] cs0]; [discriminate|]. injection Hc as -> ->.
          rewrite (Insert_first_faults _ _ _ _ _ _ Hl Hs) in Hrun. discriminate. }
        destruct (cells_split_pred _ _ _ _ Hc) as (cs1 & b & w & cs2 & ->).
        destruct (Insert_middle v _ _ _ _ _ _ _ _ Hl Hs) as (l1 & m1 & Hp & Hl1 & _ & Hfr).
        rewrite Hp in Hrun. injection Hrun as <- <-.
        destruct (alloc_next_fresh m Hs) as [_ Hfa].
        eexists. split; [exact Hl1|].
        apply (accounts_push _ _ _ _ (alloc_next m)); [exact Hfa| |].
        { intros x. rewrite !addrs_app, !addrs_cons. set_solver. }
        { intros p Hpa Hp'. apply Hfr; [done| |].
          - intros ->. apply Hp'. rewrite addrs_app, !addrs_cons. set_solver.
          - intros ->. apply Hp'. rewrite addrs_app, !addrs_cons. set_solver. }
    + unfold addr_at in Hrun. rewrite Hc in Hrun.
      change (mkIterator nullptr) with end_ in Hrun. rewrite Insert_end in Hrun.
      injection Hrun as <- <-. exists cs. split; [exact Hl|by apply accounts_refl].
  - (* Remove *)
    unfold bind in Hrun.
    destruct (decide (i <= length cs)%nat) as [Hi|Hi]; cycle 1.
    { rewrite (Iterator_add_begin_out _ _ _ _ Hl) in Hrun by lia. discriminate. }
    rewrite (Iterator_add_begin _ _ _ _ Hl Hi) in Hrun.
    destruct (cs !! i) as [[c u]|] eqn:Hc.
    + rewrite (addr_at_lookup _ _ _ _ _ Hc) in Hrun.
      destruct i as [|i].
      { destruct cs as [|[c' u'] cs0]; [discriminate|]. injection Hc as -> ->.
        rewrite (Remove_first_faults _ _ _ _ _ Hl) in Hrun. discriminate. }
      destruct (cells_split_pred _ _ _ _ Hc) as (cs1 & b & w & cs2 & ->).
      destruct cs2 as [|[d x] cs2].
      { replace (cs1 ++ [(b, w); (c, u)]) with ((cs1 ++ [(b, w)]) ++ [(c, u)]) in Hl
          by (by rewrite <- app_assoc).
        rewrite (Remove_last_faults _ _ _ _ _ Hl) in Hrun. discriminate. }
      destruct (Remove_middle _ _ _ _ _ _ _ _ _ _ Hl) as (l1 & m1 & Hp & Hl1 & _ & Hgone & Hfr).
      rewrite Hp in Hrun. injection Hrun as <- <-.
      eexists. split; [exact Hl1|].
      apply (accounts_pop _ _ _ _ c); [exact Hgone| |].
      { intros y. rewrite !addrs_app, !addrs_cons. set_solver. }
      { intros p Hp'. apply Hfr.
        - intros ->. apply Hp'. rewrite addrs_app, !addrs_cons. set_solver.
        - intros ->. apply Hp'. rewrite addrs_app, !addrs_cons. set_solver.
        - intros ->. apply Hp'. rewrite addrs_app, !addrs_cons. set_solver. }
    + unfold addr_at in Hrun. rewrite Hc in Hrun.
      change (mkIterator nullptr) with end_ in Hrun. rewrite Remove_end in Hrun.
      injection Hrun as <- <-. exists cs. split; [exact Hl|by apply accounts_refl].
  - (* assignment *)
    unfold bind in Hrun.
    destruct (decide (i <= length cs)%nat) as [Hi|Hi]; cycle 1.
    { rewrite (Iterator_add_begin_out _ _ _ _ Hl) in Hrun by lia. discriminate. }
    rewrite (Iterator_add_begin _ _ _ _ Hl Hi) in Hrun.
    destruct (cs !! i) as [[c u]|] eqn:Hc.
    + rewrite (addr_at_lookup _ _ _ _ _ Hc) in Hrun.
      apply list_elem_of_split_length in Hc as (cs1 & cs2 & -> & _).
      destruct (Assign_ok v _ _ _ _ _ _ Hl) as (m1 & Hp & Hl1 & _ & Hfr).
      rewrite Hp in Hrun. injection Hrun as <- <-.
      eexists. split; [exact Hl1|]. split.
      * intros x Hx. left. by rewrite addrs_app, addrs_cons in *.
      * intros p Hp'. rewrite !addrs_app, !addrs_cons in *.
        rewrite decide_False by done. apply Hfr. set_solver.
    + unfold addr_at in Hrun. rewrite Hc in Hrun. discriminate.
Qed.

Lemma mutate_all_accounts ops : forall m l cs l' m',
  is_list m l cs -> mutate_all ops l m = Ok (l', m') ->
  exists cs', is_list m' l' cs' /\ accounts m cs m' cs'.
Proof.
  induction ops as [|op ops IH]; intros m l cs l' m' Hl Hrun.
  - injection Hrun as <- <-. exists cs. split; [exact Hl|by apply accounts_refl].
  - cbn [mutate_all] in Hrun. unfold bind in Hrun.
    destruct (mutate op l m) as [[l1 m1]| |] eqn:Hop; try discriminate.
    destruct (mutate_accounts _ _ _ _ _ _ Hl Hop) as (cs1 & Hl1 & Hacc1).
    destruct (IH _ _ _ _ _ Hl1 Hrun) as (cs' & Hl' & Hacc').
    exists cs'. split; [exact Hl'|by eapply accounts_trans].
Qed.


(** ** The links of a cell *)

Lemma addr_at_cons c (u : T) (cs : cells) i d :
  addr_at ((c, u) :: cs) (S i) d = addr_at cs i d.
Proof. reflexivity. Qed.

Lemma addr_at_default (cs : cells) i d d' :
  (i < length cs)%nat -> addr_at cs i d = addr_at cs i d'.
Proof.
  intros Hi. unfold addr_at. destruct (cs !! i) as [[b w]|] eqn:Hb; [reflexivity|].
  apply lookup_ge_None in Hb. lia.
Qed.

Lemma dseg_cell_links cs : forall h pp p q qn i a v,
  dseg h pp p cs q qn -> cs !! i = Some (a, v) ->
  h !! a = Some (mkNode (prev_at cs i pp) (addr_at cs (S i) qn) v).
Proof.
  induction cs as [|[c u] cs IH]; intros h pp p q qn i a v Hd Hi; [done|].
  destruct Hd as (-> & r & Hc & Hd). destruct i as [|j].
  - injection Hi as -> ->. rewrite Hc. f_equal. f_equal.
    unfold addr_at. simpl. destruct cs as [|[b w] cs']; simpl in *; by destruct Hd.
  - simpl in Hi. rewrite (IH _ _ _ _ _ _ _ _ Hd Hi). rewrite addr_at_cons.
    f_equal. f_equal. destruct j as [|k]; [reflexivity|].
    cbn [prev_at]. rewrite addr_at_cons. apply addr_at_default.
    apply lookup_lt_Some in Hi. lia.
Qed.

Lemma is_list_cell_links m l cs i a v :
  is_list m l cs -> cs !! i = Some (a, v) ->
  a <> nullptr /\
  nodes m !! a = Some (mkNode (prev_at cs i nullptr) (addr_at cs (S i) nullptr) v).
Proof.
  intros Hl Hi. destruct (is_list_cell _ _ _ _ _ _ Hl Hi) as [Hz _].
  split; [exact Hz|]. destruct Hl as (Hd & _). by eapply dseg_cell_links.
Qed.

Lemma Iterator_decr_ok m it n :
  node_ it <> nullptr -> nodes m !! node_ it = Some n ->
  Iterator_decr it m = Ok (mkIterator (previous n), m).
Proof.
  intros Hz Hn. unfold Iterator_decr, bind.
  erewrite get_previous_ok; [|exact Hz|exact Hn]. reflexivity.
Qed.

Lemma Iterator_incr_cell m l cs i a v :
  is_list m l cs -> cs !! i = Some (a, v) ->
  Iterator_incr (mkIterator a) m = Ok (mkIterator (addr_at cs (S i) nullptr), m).
Proof.
  intros Hl Hi. destruct (is_list_cell_links _ _ _ _ _ _ Hl Hi) as [Hz Hn].
  by rewrite (Iterator_incr_ok m (mkIterator a) _ Hz Hn).
Qed.

Lemma Iterator_decr_cell m l cs i a v :
  is_list m l cs -> cs !! i = Some (a, v) ->
  Iterator_decr (mkIterator a) m = Ok (mkIterator (prev_at cs i nullptr), m).
Proof.
  intros Hl Hi. destruct (is_list_cell_links _ _ _ _ _ _ Hl Hi) as [Hz Hn].
  by rewrite (Iterator_decr_ok m (mkIterator a) _ Hz Hn).
Qed.

(** [+= n] from the cell at index [i] of a well-formed list. *)
Lemma Iterator_add_loop_cell m l cs n : forall i,
  is_list m l cs -> (i + n <= length cs)%nat ->
  Iterator_add_loop n (mkIterator (addr_at cs i nullptr)) m =
    Ok (mkIterator (addr_at cs (i + n) nullptr), m).
Proof.
  induction n as [|n IH]; intros i Hl Hi.
  - by rewrite Nat.add_0_r.
  - cbn [Iterator_add_loop]. unfold bind.
    destruct (lookup_lt_is_Some_2 cs i) as [[a v] Ha]; [lia|].
    rewrite (addr_at_lookup _ _ _ _ _ Ha), (Iterator_incr_cell _ _ _ _ _ _ Hl Ha).
    rewrite (IH (S i) Hl) by lia. by rewrite Nat.add_succ_r.
Qed.

(** [-= n] from the cell at index [i] of a well-formed list. *)
Lemma Iterator_sub_loop_cell m l cs n : forall i a v,
  is_list m l cs -> cs !! i = Some (a, v) -> (n <= i)%nat ->
  Iterator_sub_loop n (mkIterator a) m =
    Ok (mkIterator (addr_at cs (i - n) nullptr), m).
Proof.
  induction n as [|n IH]; intros i a v Hl Ha Hn.
  - rewrite Nat.sub_0_r. by rewrite (addr_at_lookup _ _ _ _ _ Ha).
  - cbn [Iterator_sub_loop]. unfold bind.
    rewrite (Iterator_decr_cell _ _ _ _ _ _ Hl Ha).
    destruct i as [|i]; [lia|]. simpl prev_at.
    destruct (lookup_lt_is_Some_2 cs i) as [[b w] Hb].
    { apply lookup_lt_Some in Ha. lia. }
    rewrite (addr_at_lookup _ _ _ _ _ Hb). rewrite (IH i b w Hl Hb) by lia.
    reflexivity.
Qed.

(** [-=] past the first cell. *)
Lemma Iterator_sub_loop_past m l cs : forall i a v,
  is_list m l cs -> cs !! i = Some (a, v) ->
  Iterator_sub_loop (S i) (mkIterator a) m = Ok (end_, m) /\
  Iterator_sub_loop (S (S i)) (mkIterator a) m = Fault.
Proof.
  induction i as [|i IH]; intros a v Hl Ha.
  - cbn [Iterator_sub_loop]. unfold bind.
    rewrite (Iterator_decr_cell _ _ _ _ _ _ Hl Ha). simpl prev_at. by split.
  - destruct (lookup_lt_is_Some_2 cs i) as [[b w] Hb].
    { apply lookup_lt_Some in Ha. lia. }
    destruct (IH b w Hl Hb) as [H1 H2].
    assert (Hstep : Iterator_decr (mkIterator a) m = Ok (mkIterator b, m)).
    { rewrite (Iterator_decr_cell _ _ _ _ _ _ Hl Ha). simpl prev_at.
      by rewrite (addr_at_lookup _ _ _ _ _ Hb). }
    split.
    + change (Iterator_sub_loop (S (S i)) (mkIterator a) m)
        with (bind (Iterator_decr (mkIterator a))
                (fun it' => Iterator_sub_loop (S i) it') m).
      unfold bind. by rewrite Hstep.
    + change (Iterator_sub_loop (S (S (S i))) (mkIterator a) m)
        with (bind (Iterator_decr (mkIterator a))
                (fun it' => Iterator_sub_loop (S (S i)) it') m).
      unfold bind. by rewrite Hstep.
Qed.

Lemma Iterator_decr_end m : Iterator_decr end_ m = Fault.
Proof. reflexivity. Qed.

(** X3: on a well-formed list the steps of an iterator are inverse to
    each other as long as they stay on nodes: from the node at index i,
    += n followed by -= n comes back when i + n is an index, and -= n
    followed by += n comes back when n <= i.  begin() += size is end(),
    one more step faults; -- at the first node gives the null iterator,
    which equals end(), and from there no step is defined: -- on end()
    faults, so the last node cannot be reached back from end(). *)
Theorem Iterator_steps_are_inverse (m : Mem) (l : List) (cs : cells)
    (i : nat) (a : ptr) (v : T) :
  is_list m l cs -> cs !! i = Some (a, v) ->
  Iterator_add (Z.of_nat i) (begin l) m = Ok (mkIterator a, m) /\
  (forall n : nat, (i + n < length cs)%nat ->
     bind (Iterator_add (Z.of_nat n) (mkIterator a))
          (fun it => Iterator_sub (Z.of_nat n) it) m = Ok (mkIterator a, m)) /\
  (forall n : nat, (n <= i)%nat ->
     bind (Iterator_sub (Z.of_nat n) (mkIterator a))
          (fun it => Iterator_add (Z.of_nat n) it) m = Ok (mkIterator a, m)) /\
  Iterator_add (Size l) (begin l) m = Ok (end_, m) /\
  Iterator_add (Size l + 1) (begin l) m = Fault /\
  Iterator_sub (Z.of_nat i + 1) (mkIterator a) m = Ok (end_, m) /\
  Iterator_sub (Z.of_nat i + 2) (mkIterator a) m = Fault /\
  Iterator_decr end_ m = Fault.
Proof.
  intros Hl Ha. pose proof (lookup_lt_Some _ _ _ Ha) as Hi.
  assert (Hat : addr_at cs i nullptr = a) by (by eapply addr_at_lookup).
  split; [|split; [|split; [|split; [|split; [|split; [|split]]]]]].
  - rewrite (Iterator_add_begin _ _ _ _ Hl) by lia. by rewrite Hat.
  - intros n Hn. unfold bind, Iterator_add, Iterator_sub. rewrite !Nat2Z.id.
    rewrite <- Hat at 1. rewrite (Iterator_add_loop_cell _ _ _ n i Hl) by lia.
    destruct (lookup_lt_is_Some_2 cs (i + n)) as [[b w] Hb]; [lia|].
    rewrite (addr_at_lookup _ _ _ _ _ Hb).
    rewrite (Iterator_sub_loop_cell _ _ _ n (i + n)%nat b w Hl Hb) by lia.
    replace (i + n - n)%nat with i by lia. by rewrite Hat.
  - intros n Hn. unfold bind, Iterator_add, Iterator_sub. rewrite !Nat2Z.id.
    rewrite (Iterator_sub_loop_cell _ _ _ n i a v Hl Ha) by lia.
    rewrite (Iterator_add_loop_cell _ _ _ n (i - n)%nat Hl) by lia.
    replace (i - n + n)%nat with i by lia. by rewrite Hat.
  - rewrite (is_list_Size _ _ _ Hl), (Iterator_add_begin _ _ _ _ Hl) by lia.
    by rewrite addr_at_length.
  - rewrite (is_list_Size _ _ _ Hl).
    replace (Z.of_nat (length cs) + 1) with (Z.of_nat (S (length cs))) by lia.
    apply (Iterator_add_begin_out _ _ _ _ Hl). lia.
  - unfold Iterator_sub. replace (Z.to_nat (Z.of_nat i + 1)) with (S i) by lia.
    by apply (Iterator_sub_loop_past _ _ _ i a v Hl Ha).
  - unfold Iterator_sub. replace (Z.to_nat (Z.of_nat i + 2)) with (S (S i)) by lia.
    by apply (Iterator_sub_loop_past _ _ _ i a v Hl Ha).
  - reflexivity.
Qed.

(** ** The destructor *)

(** X4: a list never leaks: whatever sequence of mutations runs on a list
    that started empty, when it has returned the destructor returns too
    and leaves the node heap exactly as it was before the first
    mutation. *)
Theorem destructor_restores_the_heap (ops : list mutation) (m : Mem)
    (l : List) (m1 : Mem) :
  mutate_all ops List_new m = Ok (l, m1) ->
  exists m2, List_destroy l m1 = Ok (List_new, m2) /\ nodes m2 = nodes m.
Proof.
  intros Hrun.
  destruct (mutate_all_accounts ops _ _ _ _ _ (is_list_nil m) Hrun)
    as (cs & Hl & Hnew & Hacc).
  unfold List_destroy. rewrite (Clear_ok _ _ _ Hl). eexists. split; [reflexivity|].
  simpl. apply map_eq. intros p. rewrite lookup_foldr_delete.
  destruct (decide (p ∈ addrs cs)) as [Hin|Hnin].
  - destruct (Hnew p Hin) as [Hc|Hnone]; [|by rewrite Hnone].
    unfold addrs in Hc. simpl in Hc. by apply elem_of_nil in Hc.
  - rewrite (Hacc p Hnin). rewrite decide_False; [done|].
    unfold addrs. simpl. apply not_elem_of_nil.
Qed.

(** ** Iterators after a mutation *)

Lemma Iterator_dangling (m : Mem) (a : ptr) :
  nodes m !! a = None ->
  Iterator_deref (mkIterator a) m = Fault /\
  Iterator_incr (mkIterator a) m = Fault /\
  Iterator_decr (mkIterator a) m = Fault.
Proof.
  intros Hn.
  unfold Iterator_deref, Iterator_incr, Iterator_decr, get_data, get_next,
    get_previous, bind. simpl. rewrite (load_dangling _ _ Hn). done.
Qed.


(** ** Backward iteration *)

Lemma iterate_back_loop_ok cs : forall fuel m p q qn,
  dseg (nodes m) nullptr p cs q qn -> Forall valid_addr (addrs cs) ->
  (length cs < fuel)%nat ->
  iterate_back_loop fuel (mkIterator q) m = Ok (reverse (values cs), m).
Proof.
  induction cs as [|[a v] cs IH] using rev_ind; intros fuel m p q qn Hd Hv Hf.
  - destruct fuel as [|fuel]; [simpl in Hf; lia|]. destruct Hd as [_ <-].
    reflexivity.
  - destruct fuel as [|fuel]; [simpl in Hf; lia|].
    rewrite length_app in Hf. simpl in Hf.
    apply dseg_snoc in Hd as (-> & r & Ha & Hd).
    rewrite addrs_app in Hv. apply Forall_app in Hv as [Hv Hva].
    pose proof (proj1 (Forall_singleton _ _) Hva) as Hva'.
    pose proof (valid_addr_nonnull _ Hva') as Hnz.
    cbn [iterate_back_loop]. unfold Iterator_ne, Iterator_eq, end_. simpl.
    rewrite bool_decide_eq_false_2 by exact Hnz. simpl.
    unfold bind, Iterator_deref. simpl.
    erewrite get_data_ok; [|exact Hnz|exact Ha]. simpl.
    rewrite (Iterator_decr_ok m (mkIterator a) _ Hnz Ha). simpl.
    erewrite IH; [|exact Hd|exact Hv|lia].
    unfold values. rewrite fmap_app, reverse_app. reflexivity.
Qed.

(** X6: on a well-formed list, iterating from last() by -- until the
    iterator equals end() yields the values in reverse order; on the empty
    list last() equals end() and the iteration yields nothing. *)
Theorem backward_iteration_reverses (m : Mem) (l : List) (cs : cells) :
  is_list m l cs ->
  iterate_back l m = Ok (reverse (values cs), m) /\
  iterate l m = Ok (values cs, m) /\
  (cs = [] -> last l = end_).
Proof.
  intros Hl. split; [|split].
  - destruct Hl as (Hd & Hnd & Hv & _). unfold iterate_back, last.
    eapply iterate_back_loop_ok; [exact Hd|exact Hv|].
    pose proof (dseg_length_le _ _ _ _ _ _ Hd Hnd). lia.
  - by apply iterate_ok.
  - intros ->. by rewrite (is_list_nil_inv _ _ Hl).
Qed.

(** ** Pops of a list that is not empty *)

(** X7: on a well-formed list that is not empty PopFront() frees the
    first node and PopBack() the last one, the size goes down by one and
    the other values stay in order. *)
Theorem Pop_removes_the_end_element (m : Mem) (l : List) (a : ptr) (v : T)
    (cs : cells) :
  (is_list m l ((a, v) :: cs) ->
   exists l' m',
     PopFront l m = Ok (l', m') /\
     is_list m' l' cs /\
     Size l' = Size l - 1 /\
     iterate l' m' = Ok (values cs, m') /\
     nodes m' !! a = None) /\
  (is_list m l (cs ++ [(a, v)]) ->
   exists l' m',
     PopBack l m = Ok (l', m') /\
     is_list m' l' cs /\
     Size l' = Size l - 1 /\
     iterate l' m' = Ok (values cs, m') /\
     nodes m' !! a = None).
Proof.
  split; intros Hl.
  - destruct (PopFront_cons _ _ _ _ _ Hl) as (l' & m' & Hrun & Hl' & _ & Hgone & _).
    exists l', m'. split; [exact Hrun|]. split; [exact Hl'|]. split.
    + rewrite (is_list_Size _ _ _ Hl), (is_list_Size _ _ _ Hl'). simpl length. lia.
    + split; [by apply iterate_ok|exact Hgone].
  - destruct (PopBack_snoc _ _ _ _ _ Hl) as (l' & m' & Hrun & Hl' & _ & Hgone & _).
    exists l', m'. split; [exact Hrun|]. split; [exact Hl'|]. split.
    + rewrite (is_list_Size _ _ _ Hl), (is_list_Size _ _ _ Hl'), length_app.
      simpl length. lia.
    + split; [by apply iterate_ok|exact Hgone].
Qed.

(** ** Round trips *)

(** X8: from every well-formed list state, a PushFront(x) that returned
    true followed by PopFront() gives back the list object and the node
    heap exactly as they were. *)
Theorem PushFront_PopFront_roundtrip (m : Mem) (l : List) (cs : cells) (x : T)
    (l1 : List) (m1 : Mem) :
  is_list m l cs ->
  PushFront x l m = Ok ((true, l1), m1) ->
  exists m2,
    PopFront l1 m1 = Ok (l, m2) /\
    nodes m2 = nodes m /\
    Size l1 = Size l + 1 /\
    iterate l1 m1 = Ok (x :: values cs, m1) /\
    iterate l m2 = Ok (values cs, m2).
Proof.
  intros Hl Hpush.
  assert (Ha : alloc_next m <> nullptr).
  { intros Hf. rewrite PushFront_fail in Hpush by exact Hf. discriminate. }
  destruct (PushFront_ok x _ _ _ Hl Ha) as (l1' & m1' & Hpush' & Hl1 & _ & Hfr1).
  rewrite Hpush in Hpush'. injection Hpush' as <- <-.
  destruct (alloc_next_fresh m Ha) as [Hva Hfa].
  destruct (PopFront_cons _ _ _ _ _ Hl1) as (l2 & m2 & Hpop & Hl2 & _ & Hgone & Hfr2).
  destruct (is_list_agree _ _ _ _ _ Hl Hl2) as [<- Hag].
  exists m2. split; [exact Hpop|]. split; [|split; [|split]].
  - apply map_eq. intros p.
    destruct (decide (p = alloc_next m)) as [->|Hne]; [by rewrite Hgone, Hfa|].
    destruct (decide (p ∈ addrs cs)) as [Hin|Hnin]; [symmetry; by apply Hag|].
    rewrite Hfr2.
    + by apply Hfr1.
    + rewrite addrs_cons. set_solver.
  - rewrite (is_list_Size _ _ _ Hl), (is_list_Size _ _ _ Hl1). simpl length. lia.
  - by rewrite (iterate_ok _ _ _ Hl1).
  - by rewrite (iterate_ok _ _ _ Hl2).
Qed.

(** X9: on a well-formed list, an Insert(position, x) that returned true,
    before a node that has a predecessor, puts the new node right before
    position: --position references it and it holds x; Remove at that
    node gives back the list object and the node heap exactly as they
    were before the Insert. *)
Theorem Insert_Remove_roundtrip (m : Mem) (l : List) (cs1 : cells) (b : ptr)
    (w : T) (c : ptr) (u : T) (cs2 : cells) (x : T) (l1 : List) (m1 : Mem) :
  is_list m l (cs1 ++ (b, w) :: (c, u) :: cs2) ->
  Insert (mkIterator c) x l m = Ok ((true, l1), m1) ->
  exists it m2,
    Iterator_decr (mkIterator c) m1 = Ok (it, m1) /\
    Iterator_deref it m1 = Ok (x, m1) /\
    iterate l1 m1 = Ok (values cs1 ++ w :: x :: u :: values cs2, m1) /\
    Remove it l1 m1 = Ok ((true, l), m2) /\
    nodes m2 = nodes m /\
    iterate l m2 = Ok (values cs1 ++ w :: u :: values cs2, m2).
Proof.
  intros Hl Hins.
  assert (Hin : c ∈ addrs (cs1 ++ (b, w) :: (c, u) :: cs2)).
  { rewrite addrs_app, !addrs_cons. set_solver. }
  destruct (is_list_node _ _ _ _ Hl Hin) as [Hcz _].
  assert (Ha : alloc_next m <> nullptr).
  { intros Hf. rewrite Insert_alloc_fail in Hins by done. discriminate. }
  destruct (Insert_middle x _ _ _ _ _ _ _ _ Hl Ha) as (l1' & m1' & Hins' & Hl1 & _ & Hfr1).
  rewrite Hins in Hins'. injection Hins' as <- <-.
  destruct (alloc_next_fresh m Ha) as [Hva Hfa].
  set (a := alloc_next m) in *.
  assert (Hc1 : (cs1 ++ (b, w) :: (a, x) :: (c, u) :: cs2) !! (length cs1 + 2)%nat
                = Some (c, u)).
  { rewrite lookup_app_r by lia. by replace (length cs1 + 2 - length cs1)%nat with 2%nat by lia. }
  assert (Ha1 : (cs1 ++ (b, w) :: (a, x) :: (c, u) :: cs2) !! (length cs1 + 1)%nat
                = Some (a, x)).
  { rewrite lookup_app_r by lia. by replace (length cs1 + 1 - length cs1)%nat with 1%nat by lia. }
  pose proof (Iterator_decr_cell _ _ _ _ _ _ Hl1 Hc1) as Hdec.
  replace (length cs1 + 2)%nat with (S (length cs1 + 1)) in Hdec by lia.
  cbn [prev_at] in Hdec. rewrite (addr_at_lookup _ _ _ _ _ Ha1) in Hdec.
  destruct (is_list_cell_links _ _ _ _ _ _ Hl1 Ha1) as [Haz Han].
  destruct (Remove_middle _ _ _ _ _ _ _ _ _ _ Hl1) as (l2 & m2 & Hrem & Hl2 & _ & Hgone & Hfr2).
  destruct (is_list_agree _ _ _ _ _ Hl Hl2) as [<- Hag].
  exists (mkIterator a), m2. split; [exact Hdec|]. split; [|split; [|split; [|split]]].
  - unfold Iterator_deref. simpl. by rewrite (get_data_ok _ _ _ Haz Han).
  - rewrite (iterate_ok _ _ _ Hl1). unfold values. by rewrite fmap_app.
  - exact Hrem.
  - apply map_eq. intros p.
    destruct (decide (p = a)) as [->|Hne]; [by rewrite Hgone, Hfa|].
    destruct (decide (p ∈ addrs (cs1 ++ (b, w) :: (c, u) :: cs2))) as [Hp|Hp];
      [symmetry; by apply Hag|].
    rewrite addrs_app, !addrs_cons in Hp.
    assert (p <> b) by set_solver. assert (p <> c) by set_solver.
    rewrite Hfr2 by done. by apply Hfr1.
  - rewrite (iterate_ok _ _ _ Hl2). unfold values. by rewrite fmap_app.
Qed.


(** ** Access by subscript *)

(** X10: on a well-formed list, the iterator that begin() and += i give
    for an index i references the node of the i-th element: the subscript
    by this iterator reads the i-th value, an assignment through it
    replaces that value and no other and keeps the size, and the
    subscript reads the new value afterwards.  The subscript by end()
    faults. *)
Theorem subscript_reads_and_writes_one_element (m : Mem) (l : List)
    (cs : cells) (i : nat) (a : ptr) (u v : T) :
  is_list m l cs -> cs !! i = Some (a, u) ->
  Iterator_add (Z.of_nat i) (begin l) m = Ok (mkIterator a, m) /\
  List_subscript l (mkIterator a) m = Ok (u, m) /\
  List_subscript l end_ m = Fault /\
  exists m',
    List_subscript_assign l (mkIterator a) v m = Ok (tt, m') /\
    is_list m' l (<[i := (a, v)]> cs) /\
    List_subscript l (mkIterator a) m' = Ok (v, m') /\
    iterate l m' = Ok (<[i := v]> (values cs), m').
Proof.
  intros Hl Hi. pose proof (lookup_lt_Some _ _ _ Hi) as Hlt.
  destruct (is_list_cell_links _ _ _ _ _ _ Hl Hi) as [Hz Hn].
  split; [|split; [|split]].
  - rewrite (Iterator_add_begin _ _ _ _ Hl) by lia.
    by rewrite (addr_at_lookup _ _ _ _ _ Hi).
  - unfold List_subscript, Iterator_deref. simpl. by rewrite (get_data_ok _ _ _ Hz Hn).
  - reflexivity.
  - pose proof Hi as Hi'.
    apply list_elem_of_split_length in Hi' as (cs1 & cs2 & Hcs & Hlen).
    rewrite Hcs in Hl.
    destruct (Assign_ok v _ _ _ _ _ _ Hl) as (m' & Hrun & Hl' & _ & _).
    assert (Hins : <[i := (a, v)]> cs = cs1 ++ (a, v) :: cs2).
    { rewrite Hcs, Hlen. rewrite (insert_app_r_alt cs1) by lia.
      by replace (length cs1 - length cs1)%nat with 0%nat by lia. }
    rewrite Hins. exists m'. split; [exact Hrun|]. split; [exact Hl'|]. split.
    + assert (Hi2 : (cs1 ++ (a, v) :: cs2) !! i = Some (a, v)).
      { rewrite Hlen. by rewrite list_lookup_middle. }
      destruct (is_list_cell_links _ _ _ _ _ _ Hl' Hi2) as [_ Hn'].
      unfold List_subscript, Iterator_deref. simpl.
      by rewrite (get_data_ok _ _ _ Hz Hn').
    + rewrite (iterate_ok _ _ _ Hl'). rewrite <- Hins. unfold values.
      do 2 f_equal. apply (list_fmap_insert snd cs i (a, v)).
Qed.

(** ** Size, Empty and the iteration *)

(** X11: in every state that a sequence of mutations reaches from the
    empty list, an iteration from begin() to end() returns, Size() is the
    number of values it yields and stays below the range of size_t, and
    Empty() holds exactly when there is no value, which is exactly when
    begin() equals end(). *)
Theorem Size_and_Empty_agree_with_iteration (ops : list mutation) (m : Mem)
    (l : List) (m' : Mem) :
  mutate_all ops List_new m = Ok (l, m') ->
  exists vs,
    iterate l m' = Ok (vs, m') /\
    Size l = Z.of_nat (length vs) /\
    Size l < size_modulus /\
    (Empty l = true <-> vs = []) /\
    (Empty l = true <-> begin l = end_).
Proof.
  intros Hrun.
  destruct (mutate_all_ok ops _ _ _ _ _ (is_list_nil m) Hrun) as (cs & Hl & _).
  exists (values cs). split; [by apply iterate_ok|].
  pose proof (is_list_Size _ _ _ Hl) as Hs. pose proof (is_list_bound _ _ _ Hl) as Hb.
  unfold values. rewrite length_fmap. split; [exact Hs|]. split; [lia|].
  unfold Empty, Size in *. destruct cs as [|[a v] cs].
  - rewrite (is_list_nil_inv _ _ Hl). simpl. done.
  - assert (Hin : a ∈ addrs ((a, v) :: cs)) by (rewrite addrs_cons; left).
    destruct (is_list_node _ _ _ _ Hl Hin) as [Hz _].
    rewrite <- (is_list_first _ _ _ _ _ Hl) in Hz.
    simpl length in Hs. split; split.
    + intros He. apply bool_decide_eq_true in He. lia.
    + discriminate.
    + intros He. apply bool_decide_eq_true in He. lia.
    + unfold begin, end_. intros [= Hf]. done.
Qed.

(** ** Sequences of pushes with enough memory *)

Lemma PushBack_all_enough vs : forall m l cs,
  is_list m l cs -> can_allocate (length vs) m ->
  exists l' m' added,
    PushBack_all vs l m = Ok ((replicate (length vs) true, l'), m') /\
    is_list m' l' (cs ++ added) /\
    values added = vs /\
    addrs added = take (length vs) (oracle m).
Proof.
  induction vs as [|v vs IH]; intros m l cs Hl Hcan.
  - exists l, m, []. rewrite app_nil_r. split; [reflexivity|]. split; [exact Hl|].
    split; [reflexivity|]. by rewrite take_0.
  - simpl length in Hcan.
    destruct (PushBack_enough v _ _ _ _ Hl Hcan)
      as (l1 & m1 & Hpush & Hl1 & Hcan1 & _ & Ho & _).
    destruct (IH _ _ _ Hl1 Hcan1) as (l' & m' & added & Hrun & Hl' & Hvs & Had).
    cbn [PushBack_all]. unfold bind. rewrite Hpush. cbn [fst snd]. rewrite Hrun.
    exists l', m', ((alloc_next m, v) :: added). split; [reflexivity|].
    split; [by rewrite <- app_assoc in Hl'|]. split.
    + change (v :: values added = v :: vs). by rewrite Hvs.
    + rewrite addrs_cons, Had, Ho. reflexivity.
Qed.

(** X12: when the next n answers of the allocator are distinct free
    addresses, n calls of PushBack on a well-formed list all return true;
    the new nodes are at these addresses, in this order, behind the old
    ones, and the list holds the old values followed by the pushed
    ones. *)
Theorem PushBack_succeeds_with_enough_memory (vs : list T) (m : Mem)
    (l : List) (cs : cells) :
  is_list m l cs -> can_allocate (length vs) m ->
  exists l' m' added,
    PushBack_all vs l m = Ok ((replicate (length vs) true, l'), m') /\
    is_list m' l' (cs ++ added) /\
    addrs added = take (length vs) (oracle m) /\
    iterate l' m' = Ok (values cs ++ vs, m') /\
    Size l' = Size l + Z.of_nat (length vs).
Proof.
  intros Hl Hcan.
  destruct (PushBack_all_enough vs _ _ _ Hl Hcan) as (l' & m' & added & Hrun & Hl' & Hvs & Had).
  exists l', m', added. split; [exact Hrun|]. split; [exact Hl'|]. split; [exact Had|].
  split.
  - rewrite (iterate_ok _ _ _ Hl'). unfold values in *. by rewrite fmap_app, Hvs.
  - rewrite (is_list_Size _ _ _ Hl), (is_list_Size _ _ _ Hl'), length_app.
    rewrite <- Hvs. unfold values. rewrite length_fmap. lia.
Qed.


Lemma Resize_grow_enough v new_size fuel : forall m l cs,
  is_list m l cs -> can_allocate (Z.to_nat (new_size - size_ l)) m ->
  (Z.to_nat (new_size - size_ l) < fuel)%nat ->
  exists l' m', Resize_grow fuel new_size v l m = Ok ((true, l'), m').
Proof.
  induction fuel as [|fuel IH]; intros m l cs Hl Hcan Hf; [lia|].
  cbn [Resize_grow]. destruct (decide (size_ l < new_size)) as [Hlt|Hge].
  - destruct (Z.to_nat (new_size - size_ l)) as [|k] eqn:Hk; [lia|].
    destruct (PushBack_enough v _ _ _ _ Hl Hcan) as (l1 & m1 & Hpush & Hl1 & Hcan1 & _).
    unfold bind. rewrite Hpush. cbn [fst snd negb].
    assert (Hs1 : size_ l1 = size_ l + 1).
    { pose proof (is_list_Size _ _ _ Hl) as Hs. pose proof (is_list_Size _ _ _ Hl1) as Hs1.
      unfold Size in *. rewrite Hs, Hs1, length_app. simpl. lia. }
    apply (IH m1 l1 _ Hl1).
    + by replace (Z.to_nat (new_size - size_ l1)) with k by lia.
    + lia.
  - by exists l, m.
Qed.

(** X13: the constructor List(size, start_value) returns a list that
    holds only copies of the start value, at most size of them, and Size()
    is their number; it holds exactly size of them when the next size
    answers of the allocator are distinct free addresses. *)
Theorem List_sized_holds_the_start_value (size : nat) (v : T) (m : Mem) :
  exists l m' k,
    List_sized (Z.of_nat size) v m = Ok (l, m') /\
    iterate l m' = Ok (replicate k v, m') /\
    Size l = Z.of_nat k /\
    (k <= size)%nat /\
    (can_allocate size m -> k = size).
Proof.
  destruct (Resize_ok v (Z.of_nat size) m List_new [] (is_list_nil m))
    as (b & l & m' & cs' & Hrun & Hl & _ & Htrue & Hgrow & _); [lia|].
  destruct Hgrow as (added & Hcs & Hvs & Hfalse); [unfold Size; simpl; lia|].
  simpl in Hcs. subst added.
  pose proof (is_list_Size _ _ _ Hl) as Hs.
  exists l, m', (length cs'). split; [|split; [|split; [|split]]].
  - unfold List_sized, bind. by rewrite Hrun.
  - rewrite (iterate_ok _ _ _ Hl). by rewrite Hvs.
  - exact Hs.
  - destruct b; [specialize (Htrue eq_refl)|specialize (Hfalse eq_refl)]; lia.
  - intros Hcan.
    destruct (Resize_grow_enough v (Z.of_nat size)
                (S (Z.to_nat (Z.of_nat size - size_ List_new))) m List_new []
                (is_list_nil m)) as (l1 & m1 & Hg).
    { simpl. by rewrite Z.sub_0_r, Nat2Z.id. }
    { lia. }
    unfold Resize, bind in Hrun. rewrite Hg in Hrun. cbn [fst snd negb] in Hrun.
    destruct (Resize_shrink _ _ l1 m1) as [[l2 m2]| |]; [|discriminate..].
    injection Hrun as <- _ _. specialize (Htrue eq_refl). lia.
Qed.

(** ** Copy of an array *)

Lemma Copy_values_loop_ok vs n : forall fuel (i : nat) m this cs2,
  is_list m this cs2 ->
  Z.of_nat (length vs) < size_modulus ->
  (i + n = length vs)%nat -> (n < fuel)%nat ->
  exists b this' m' added,
    Copy_values_loop fuel (Z.of_nat i) vs this m = Ok ((b, this'), m') /\
    is_list m' this' (cs2 ++ added) /\
    accounts m cs2 m' (cs2 ++ added) /\
    (exists k, values added = take k (drop i vs)) /\
    (b = true -> values added = drop i vs) /\
    (b = false -> (length added < n)%nat) /\
    (can_allocate n m -> b = true).
Proof.
  induction n as [|n IH]; intros fuel i m this cs2 Hthis Hb Hin Hf.
  - destruct fuel as [|fuel]; [lia|]. cbn [Copy_values_loop].
    rewrite decide_False by lia. unfold ret. exists true, this, m, [].
    rewrite app_nil_r. split; [reflexivity|]. split; [exact Hthis|].
    split; [by apply accounts_refl|].
    assert (Hdrop : drop i vs = []) by (apply drop_ge; lia).
    rewrite Hdrop. split; [by exists 0%nat|]. split; [done|]. split; [discriminate|done].
  - destruct fuel as [|fuel]; [lia|]. cbn [Copy_values_loop].
    rewrite decide_True by lia. rewrite Nat2Z.id.
    destruct (lookup_lt_is_Some_2 vs i) as [v Hi]; [lia|]. rewrite Hi.
    assert (Hdrop : drop i vs = v :: drop (S i) vs) by (by apply drop_S).
    unfold bind. destruct (decide (alloc_next m = nullptr)) as [Hfail|Hsucc].
    + rewrite PushBack_fail by exact Hfail. simpl. unfold ret.
      exists false, this, (mkMem (nodes m) (tail (oracle m))), [].
      rewrite app_nil_r. split; [reflexivity|].
      split; [eapply is_list_frame; [|exact Hthis]; done|].
      split; [by apply accounts_refl|]. split; [by exists 0%nat|].
      split; [discriminate|]. split; [intros _; simpl; lia|].
      intros Hcan. by destruct (can_allocate_next _ _ Hcan).
    + destruct (PushBack_ok v _ _ _ Hthis Hsucc) as (this1 & m1 & Hpush & Hthis1 & Ho & Hfr).
      rewrite Hpush. simpl.
      destruct (alloc_next_fresh m Hsucc) as [_ Hfa].
      rewrite wrap_small by lia.
      replace (Z.of_nat i + 1) with (Z.of_nat (S i)) by lia.
      destruct (IH fuel (S i) m1 this1 _ Hthis1 Hb)
        as (b & this' & m' & added & Hrun & Hthis' & Hacc & [k Hk] & Htrue & Hfalse & Hcan');
        [lia|lia|].
      rewrite Hrun. exists b, this', m', ((alloc_next m, v) :: added).
      split; [reflexivity|]. split; [by rewrite <- app_assoc in Hthis'|].
      split.
      { rewrite <- app_assoc in Hacc. eapply accounts_trans; [|exact Hacc].
        apply (accounts_push _ _ _ _ (alloc_next m)); [exact Hfa| |exact Hfr].
        intros x. rewrite addrs_app, addrs_cons. set_solver. }
      rewrite Hdrop. split; [|split; [|split]].
      * exists (S k). change (v :: values added = v :: take k (drop (S i) vs)).
        by rewrite Hk.
      * intros Hbt. change (v :: values added = v :: drop (S i) vs).
        by rewrite (Htrue Hbt).
      * intros Hbf. specialize (Hfalse Hbf). simpl. lia.
      * intros Hcan. apply Hcan'. apply (can_allocate_step _ _ _ Hcan Ho).
        intros p Hp Hn. rewrite Hfr; [exact Hn|exact Hp|]. by eapply is_list_fresh.
Qed.


(** ** Copy of a list with enough memory *)

Lemma Copy_loop_enough n : forall fuel (i : nat) m L cs this cs2,
  is_list m L cs -> is_list m this cs2 ->
  (forall a, a ∈ addrs cs -> a ∉ addrs cs2) ->
  (i + n = length cs)%nat -> (n < fuel)%nat ->
  can_allocate n m ->
  exists this' m' added,
    Copy_loop fuel (Z.of_nat i) L this m = Ok ((true, this'), m') /\
    is_list m' L cs /\
    is_list m' this' (cs2 ++ added) /\
    values added = drop i (values cs) /\
    addrs added = take n (oracle m).
Proof.
  induction n as [|n IH]; intros fuel i m L cs this cs2 HL Hthis Hdis Hin Hf Hcan.
  - destruct fuel as [|fuel]; [lia|]. cbn [Copy_loop].
    rewrite (is_list_Size _ _ _ HL). rewrite decide_False by lia.
    unfold ret. exists this, m, []. rewrite app_nil_r.
    split; [reflexivity|]. split; [exact HL|]. split; [exact Hthis|].
    split; [|by rewrite take_0].
    symmetry. apply drop_ge. unfold values. rewrite length_fmap. lia.
  - destruct fuel as [|fuel]; [lia|]. cbn [Copy_loop].
    rewrite (is_list_Size _ _ _ HL). rewrite decide_True by lia.
    destruct (lookup_lt_is_Some_2 cs i) as [[a v] Hi]; [lia|].
    unfold bind. rewrite (List_at_ok _ _ _ _ _ _ HL Hi).
    assert (Hdrop : drop i (values cs) = v :: drop (S i) (values cs)).
    { apply drop_S. unfold values. rewrite list_lookup_fmap, Hi. reflexivity. }
    destruct (PushBack_enough v _ _ _ _ Hthis Hcan)
      as (this1 & m1 & Hpush & Hthis1 & Hcan1 & Hfa & Ho & Hfr).
    rewrite Hpush. cbn [fst snd negb].
    pose proof (evolves_PushBack m cs2 m1 _ v Hfa Hfr) as Hev1.
    destruct (evolves_frame _ _ _ _ _ _ Hev1 HL Hdis) as [HL1 Hdis1].
    pose proof (is_list_bound _ _ _ HL) as Hbound.
    rewrite wrap_small by lia.
    replace (Z.of_nat i + 1) with (Z.of_nat (S i)) by lia.
    destruct (IH fuel (S i) m1 L cs this1 _ HL1 Hthis1 Hdis1)
      as (this' & m' & added & Hrun & HL' & Hthis' & Hvs & Had); [lia|lia|exact Hcan1|].
    rewrite Hrun. exists this', m', ((alloc_next m, v) :: added).
    split; [reflexivity|]. split; [exact HL'|].
    split; [by rewrite <- app_assoc in Hthis'|]. split.
    + rewrite Hdrop. change (v :: values added = v :: drop (S i) (values cs)).
      by rewrite Hvs.
    + rewrite addrs_cons, Had, Ho. reflexivity.
Qed.

(** X15: when the next answers of the allocator, as many as a
    well-formed list L has elements, are distinct free addresses, the copy
    constructor returns a list that holds the values of L in order, in
    nodes at those addresses, and leaves L as it is. *)
Theorem List_copy_is_complete_with_enough_memory (m : Mem) (L : List)
    (cs : cells) :
  is_list m L cs -> can_allocate (length cs) m ->
  exists L2 m1 cs2,
    List_copy L m = Ok (L2, m1) /\
    Copy L List_new m = Ok ((true, L2), m1) /\
    is_list m1 L cs /\
    is_list m1 L2 cs2 /\
    values cs2 = values cs /\
    addrs cs2 = take (length cs) (oracle m) /\
    iterate L2 m1 = Ok (values cs, m1) /\
    Size L2 = Size L.
Proof.
  intros HL Hcan.
  destruct (Copy_loop_enough (length cs) (S (Z.to_nat (Size L))) 0 m L cs List_new []
              HL (is_list_nil m))
    as (L2 & m1 & cs2 & Hrun & HL1 & HL2 & Hvs & Had); try done.
  - intros a _ Hc. unfold addrs in Hc. simpl in Hc. by apply elem_of_nil in Hc.
  - rewrite (is_list_Size _ _ _ HL). lia.
  - simpl in Hrun, HL2. rewrite drop_0 in Hvs.
    assert (Hcopy : Copy L List_new m = Ok ((true, L2), m1)).
    { unfold Copy, bind. by rewrite Clear_empty. }
    exists L2, m1, cs2. split; [unfold List_copy, bind; by rewrite Hcopy|].
    split; [exact Hcopy|]. split; [exact HL1|]. split; [exact HL2|].
    split; [exact Hvs|]. split; [exact Had|]. split.
    + rewrite (iterate_ok _ _ _ HL2). by rewrite Hvs.
    + rewrite (is_list_Size _ _ _ HL), (is_list_Size _ _ _ HL2).
      assert (length (values cs2) = length (values cs)) as Hlen by (by rewrite Hvs).
      unfold values in Hlen. rewrite !length_fmap in Hlen. lia.
Qed.

End ListProofs.

(** * The scenarios, evaluated *)

Example PushBack_123 :
  PushBack_all [1; 2; 3] List_new m0 = Ok (([true; true; true], l123), m123).
Proof. vm_compute. reflexivity. Qed.

Example iterate_123 : iterate l123 m123 = Ok ([1; 2; 3], m123).
Proof. vm_compute. reflexivity. Qed.

Lemma is_list_123 : is_list m123 l123 cells123.
Proof.
  unfold is_list. split; [|split; [|split]].
  - simpl. split; [reflexivity|]. exists 264. split; [reflexivity|].
    split; [reflexivity|]. exists 272. split; [reflexivity|].
    split; [reflexivity|]. exists 0. split; [reflexivity|]. split; reflexivity.
  - unfold addrs. simpl. compute_done.
  - unfold addrs. simpl. repeat constructor.
  - reflexivity.
Qed.

Lemma is_list_123_exhausted : is_list m123_exhausted l123 cells123.
Proof. eapply is_list_frame; [|exact is_list_123]. reflexivity. Qed.

Lemma can_allocate_0 : can_allocate (T := Z) 3 m0.
Proof.
  unfold can_allocate. split; [simpl; lia|]. split; [compute_done|].
  simpl. repeat constructor.
Qed.

Lemma can_allocate_123 : can_allocate (T := Z) 3 m123.
Proof.
  unfold can_allocate. split; [simpl; lia|]. split; [compute_done|].
  simpl. repeat constructor.
Qed.

Lemma can_allocate_123_two : can_allocate (T := Z) 2 m123.
Proof.
  unfold can_allocate. split; [simpl; lia|]. split; [compute_done|].
  simpl. repeat constructor.
Qed.

Example PushBack_4 : PushBack 4 l123 m123 = Ok ((true, l1234), m1234).
Proof. vm_compute. reflexivity. Qed.

Example Resize_0_to_5 : Resize 5 9 List_new m0 = Ok ((true, l99999), m99999).
Proof. vm_compute. reflexivity. Qed.

(** C1, at a concrete list: the list 1, 2, 3 satisfies the invariant, and
    Remove at begin(), Remove at last() and Insert at begin() fault. *)
Lemma invariant_kept_except_at_the_ends_123 :
  list_invariant m123 l123 /\
  Remove (begin l123) l123 m123 = Fault /\
  Remove (last l123) l123 m123 = Fault /\
  Insert (begin l123) 0 l123 m123 = Fault.
Proof.
  destruct (invariant_kept_except_at_the_ends Z) as (_ & Hinv & _ & _ & Hrf & Hrl & Hif).
  split; [exact (Hinv m123 l123 cells123 is_list_123)|].
  split; [exact (Hrf m123 l123 256 1 [(264, 2); (272, 3)] is_list_123)|].
  split; [exact (Hrl m123 l123 272 3 [(256, 1); (264, 2)] is_list_123)|].
  apply (Hif 0 m123 l123 256 1 [(264, 2); (272, 3)] is_list_123).
  vm_compute. discriminate.
Defined.




(** C4, at a concrete list: Insert of 0 before the node that holds 2 gives
    1, 0, 2, 3, and Insert before begin() faults. *)
Lemma Insert_splices_except_before_first_123 :
  (exists l' m',
     Insert (mkIterator 264) 0 l123 m123 = Ok ((true, l'), m') /\
     Size l' = 4 /\
     iterate l' m' = Ok ([1; 0; 2; 3], m')) /\
  Insert (begin l123) 0 l123 m123 = Fault.
Proof.
  destruct (Insert_splices_except_before_first Z 0 m123 l123) as (_ & _ & Hmid & Hfirst).
  split.
  - destruct (Hmid [] 256 1 264 2 [(272, 3)] is_list_123)
      as (l' & m' & Hrun & _ & Hs & Hit); [vm_compute; discriminate|].
    exists l', m'. split; [exact Hrun|]. split; [exact Hs|exact Hit].
  - apply (Hfirst 256 1 [(264, 2); (272, 3)] is_list_123). vm_compute. discriminate.
Defined.

(** C5, the scenario of the specification: after the pushes of 1, 2, 3,
    Remove at the iterator that begin() and ++ give (it points at 2)
    leaves size 2 and the values 1, 3; Remove at begin() and at last()
    faults. *)
Lemma Remove_unlinks_except_at_the_ends_123 :
  PushBack_all [1; 2; 3] List_new m0 = Ok (([true; true; true], l123), m123) /\
  Iterator_incr (begin l123) m123 = Ok (mkIterator 264, m123) /\
  Iterator_deref (mkIterator 264) m123 = Ok (2, m123) /\
  (exists l' m',
     Remove (mkIterator 264) l123 m123 = Ok ((true, l'), m') /\
     Size l' = 2 /\
     iterate l' m' = Ok ([1; 3], m')) /\
  Remove (begin l123) l123 m123 = Fault /\
  Remove (last l123) l123 m123 = Fault.
Proof.
  destruct (Remove_unlinks_except_at_the_ends Z m123 l123) as (_ & Hmid & Hfirst & Hlast).
  split; [exact PushBack_123|]. split; [vm_compute; reflexivity|].
  split; [vm_compute; reflexivity|]. split; [|split].
  - destruct (Hmid [] 256 1 264 2 272 3 [] is_list_123)
      as (l' & m' & Hrun & _ & _ & Hs & Hit).
    exists l', m'. split; [exact Hrun|]. split; [exact Hs|exact Hit].
  - exact (Hfirst 256 1 [(264, 2); (272, 3)] is_list_123).
  - exact (Hlast 272 3 [(256, 1); (264, 2)] is_list_123).
Defined.

(** C6, at a concrete run: PushBack of 1, 2, 3 on the empty list in a
    memory with room for three nodes. *)
Lemma PushBack_sequence_in_push_order_123 :
  PushBack_all [1; 2; 3] List_new m0 = Ok (([true; true; true], l123), m123) /\
  iterate l123 m123 = Ok ([1; 2; 3], m123) /\
  Size l123 = 3.
Proof.
  destruct (PushBack_sequence_in_push_order Z [1; 2; 3] m0)
    as (bs & l & m' & Hrun & _ & _ & _ & _ & _ & Hall).
  destruct (Hall can_allocate_0) as (_ & Hit & Hs).
  rewrite PushBack_123 in Hrun. injection Hrun as <- <- <-.
  split; [exact PushBack_123|]. split; [exact Hit|exact Hs].
Defined.

(** C7, at a concrete list: PushBack(4) on 1, 2, 3 and then PopBack(). *)
Lemma PushBack_PopBack_roundtrip_123 :
  is_list m123 l123 cells123 /\
  PushBack 4 l123 m123 = Ok ((true, l1234), m1234) /\
  exists m2,
    PopBack l1234 m1234 = Ok (l123, m2) /\
    nodes m2 = nodes m123 /\
    Size l1234 = Size l123 + 1 /\
    iterate l1234 m1234 = Ok ([1; 2; 3; 4], m1234) /\
    iterate l123 m2 = Ok ([1; 2; 3], m2).
Proof.
  split; [exact is_list_123|]. split; [exact PushBack_4|].
  exact (PushBack_PopBack_roundtrip Z m123 l123 cells123 4 l1234 m1234
           is_list_123 PushBack_4).
Defined.

(** C9, at a concrete list: the pushes on 1, 2, 3 without memory. *)
Lemma Push_fails_without_memory_123 :
  PushFront 4 l123 m123_exhausted = Ok ((false, l123), m123_exhausted) /\
  PushBack 4 l123 m123_exhausted = Ok ((false, l123), m123_exhausted).
Proof.
  apply (proj1 (Push_fails_only_on_allocation_failure Z 4 l123 m123_exhausted)).
  reflexivity.
Defined.

(** C10, at a concrete list: from last() the first ++ reaches the
    sentinel and the second one faults. *)
Lemma Iterator_advance_at_end_faults_123 :
  Iterator_incr (last l123) m123 = Ok (end_, m123) /\
  Iterator_add 2 (last l123) m123 = Fault.
Proof.
  destruct (Iterator_advance_at_end_faults Z m123) as (_ & _ & Hlast & _).
  exact (Hlast l123 [(256, 1); (264, 2)] 272 3 is_list_123).
Defined.

(** X1, at a concrete list: Clear() on 1, 2, 3. *)
Lemma Clear_empties_the_list_123 :
  exists l' m',
    Clear l123 m123 = Ok (l', m') /\
    Size l' = 0 /\
    begin l' = end_ /\
    iterate l' m' = Ok ([], m') /\
    (forall a, a ∈ addrs cells123 -> nodes m' !! a = None) /\
    (forall p, p ∉ addrs cells123 -> nodes m' !! p = nodes m123 !! p).
Proof. exact (Clear_empties_the_list Z m123 l123 cells123 is_list_123). Defined.

Example PushFront_123 :
  PushFront_all [1; 2; 3] List_new m0 = Ok (([true; true; true], l321), m321).
Proof. vm_compute. reflexivity. Qed.

(** X2, at a concrete run: PushFront of 1, 2, 3 on the empty list in a
    memory with room for three nodes. *)
Lemma PushFront_sequence_in_reverse_order_123 :
  PushFront_all [1; 2; 3] List_new m0 = Ok (([true; true; true], l321), m321) /\
  iterate l321 m321 = Ok ([3; 2; 1], m321) /\
  Size l321 = 3.
Proof.
  destruct (PushFront_sequence_in_reverse_order Z [1; 2; 3] m0)
    as (bs & l & m' & Hrun & _ & _ & _ & _ & Hall).
  destruct (Hall can_allocate_0) as (_ & Hit & Hs).
  rewrite PushFront_123 in Hrun. injection Hrun as <- <- <-.
  split; [exact PushFront_123|]. split; [exact Hit|exact Hs].
Defined.

Example PopFront_123 : mutate_all [MPopFront] l123 m123 = Ok (l23, m23).
Proof. vm_compute. reflexivity. Qed.

Example PushFront_0 : PushFront 0 l123 m123 = Ok ((true, l0123), m0123).
Proof. vm_compute. reflexivity. Qed.

Example Insert_7 :
  Insert (mkIterator 264) 7 l123 m123 = Ok ((true, l1723), m1723).
Proof. vm_compute. reflexivity. Qed.

Example mutate_all_123 :
  mutate_all [MPushBack 1; MPushBack 2; MPushBack 3] List_new m0
  = Ok (l123, m123).
Proof. vm_compute. reflexivity. Qed.

(** X3, at a concrete list: the steps from the node of 2 in 1, 2, 3. *)
Lemma Iterator_steps_are_inverse_123 :
  Iterator_add 1 (begin l123) m123 = Ok (mkIterator 264, m123) /\
  bind (Iterator_add 1 (mkIterator 264)) (fun it => Iterator_sub 1 it) m123
  = Ok (mkIterator 264, m123) /\
  bind (Iterator_sub 1 (mkIterator 264)) (fun it => Iterator_add 1 it) m123
  = Ok (mkIterator 264, m123) /\
  Iterator_add 3 (begin l123) m123 = Ok (end_, m123) /\
  Iterator_add 4 (begin l123) m123 = Fault /\
  Iterator_sub 2 (mkIterator 264) m123 = Ok (end_, m123) /\
  Iterator_sub 3 (mkIterator 264) m123 = Fault /\
  Iterator_decr end_ m123 = Fault.
Proof.
  destruct (Iterator_steps_are_inverse Z m123 l123 cells123 1%nat 264 2
              is_list_123 eq_refl)
    as (H1 & H2 & H3 & H4 & H5 & H6 & H7 & H8).
  split; [exact H1|]. split; [apply (H2 1%nat); simpl; lia|].
  split; [apply (H3 1%nat); lia|]. split; [exact H4|]. split; [exact H5|].
  split; [exact H6|]. split; [exact H7|exact H8].
Defined.

(** X4, at a concrete list: the destructor of the list 1, 2, 3 that three
    calls of PushBack built in [m0]. *)
Lemma destructor_restores_the_heap_123 :
  mutate_all [MPushBack 1; MPushBack 2; MPushBack 3] List_new m0
  = Ok (l123, m123) /\
  exists m2, List_destroy l123 m123 = Ok (List_new, m2) /\ nodes m2 = nodes m0.
Proof.
  split; [exact mutate_all_123|].
  exact (destructor_restores_the_heap Z _ m0 l123 m123 mutate_all_123).
Defined.


(** The iterator to a removed node whose address is answered again:
    after PopFront() and PushBack(9) on 1, 2, 3, with an allocator that
    answers with the address of the popped node, the iterator to that
    address references the new last node and reads 9. *)
Example stale_iterator_reads_the_reused_node :
  exists l' m',
    mutate_all [MPopFront; MPushBack 9] l123 m123_reuse = Ok (l', m') /\
    last l' = mkIterator 256 /\
    Iterator_deref (mkIterator 256) m' = Ok (9, m') /\
    iterate l' m' = Ok ([2; 3; 9], m').
Proof. eexists _, _. repeat split; vm_compute; reflexivity. Qed.

(** X6, at a concrete list: 1, 2, 3 backwards. *)
Lemma backward_iteration_reverses_123 :
  iterate_back l123 m123 = Ok ([3; 2; 1], m123).
Proof.
  exact (proj1 (backward_iteration_reverses Z m123 l123 cells123 is_list_123)).
Defined.

(** X7, at a concrete list: PopFront() and PopBack() on 1, 2, 3. *)
Lemma Pop_removes_the_end_element_123 :
  (exists l' m',
     PopFront l123 m123 = Ok (l', m') /\ Size l' = 2 /\
     iterate l' m' = Ok ([2; 3], m')) /\
  (exists l' m',
     PopBack l123 m123 = Ok (l', m') /\ Size l' = 2 /\
     iterate l' m' = Ok ([1; 2], m')).
Proof.
  split.
  - destruct (proj1 (Pop_removes_the_end_element Z m123 l123 256 1
                       [(264, 2); (272, 3)]) is_list_123)
      as (l' & m' & Hrun & _ & Hs & Hit & _).
    exists l', m'. split; [exact Hrun|]. split; [exact Hs|exact Hit].
  - destruct (proj2 (Pop_removes_the_end_element Z m123 l123 272 3
                       [(256, 1); (264, 2)]) is_list_123)
      as (l' & m' & Hrun & _ & Hs & Hit & _).
    exists l', m'. split; [exact Hrun|]. split; [exact Hs|exact Hit].
Defined.

(** X8, at a concrete list: PushFront(0) on 1, 2, 3 and then PopFront(). *)
Lemma PushFront_PopFront_roundtrip_123 :
  PushFront 0 l123 m123 = Ok ((true, l0123), m0123) /\
  exists m2,
    PopFront l0123 m0123 = Ok (l123, m2) /\
    nodes m2 = nodes m123 /\
    Size l0123 = Size l123 + 1 /\
    iterate l0123 m0123 = Ok ([0; 1; 2; 3], m0123) /\
    iterate l123 m2 = Ok ([1; 2; 3], m2).
Proof.
  split; [exact PushFront_0|].
  exact (PushFront_PopFront_roundtrip Z m123 l123 cells123 0 l0123 m0123
           is_list_123 PushFront_0).
Defined.

(** X9, at a concrete list: Insert of 7 before the node of 2 in 1, 2, 3
    and then Remove at the new node. *)
Lemma Insert_Remove_roundtrip_123 :
  Insert (mkIterator 264) 7 l123 m123 = Ok ((true, l1723), m1723) /\
  exists it m2,
    Iterator_decr (mkIterator 264) m1723 = Ok (it, m1723) /\
    Iterator_deref it m1723 = Ok (7, m1723) /\
    iterate l1723 m1723 = Ok ([1; 7; 2; 3], m1723) /\
    Remove it l1723 m1723 = Ok ((true, l123), m2) /\
    nodes m2 = nodes m123 /\
    iterate l123 m2 = Ok ([1; 2; 3], m2).
Proof.
  split; [exact Insert_7|].
  exact (Insert_Remove_roundtrip Z m123 l123 [] 256 1 264 2 [(272, 3)] 7
           l1723 m1723 is_list_123 Insert_7).
Defined.

(** X10, at a concrete list: the subscript at the node of 2 in 1, 2, 3
    and the assignment of 5 through it. *)
Lemma subscript_reads_and_writes_one_element_123 :
  Iterator_add 1 (begin l123) m123 = Ok (mkIterator 264, m123) /\
  List_subscript l123 (mkIterator 264) m123 = Ok (2, m123) /\
  List_subscript l123 end_ m123 = Fault /\
  exists m',
    List_subscript_assign l123 (mkIterator 264) 5 m123 = Ok (tt, m') /\
    is_list m' l123 [(256, 1); (264, 5); (272, 3)] /\
    List_subscript l123 (mkIterator 264) m' = Ok (5, m') /\
    iterate l123 m' = Ok ([1; 5; 3], m').
Proof.
  exact (subscript_reads_and_writes_one_element Z m123 l123 cells123 1%nat 264
           2 5 is_list_123 eq_refl).
Defined.

(** X11, at a concrete list: Size() and Empty() of 1, 2, 3. *)
Lemma Size_and_Empty_agree_with_iteration_123 :
  mutate_all [MPushBack 1; MPushBack 2; MPushBack 3] List_new m0
  = Ok (l123, m123) /\
  exists vs,
    iterate l123 m123 = Ok (vs, m123) /\
    Size l123 = Z.of_nat (length vs) /\
    Size l123 < size_modulus /\
    (Empty l123 = true <-> vs = []) /\
    (Empty l123 = true <-> begin l123 = end_).
Proof.
  split; [exact mutate_all_123|].
  exact (Size_and_Empty_agree_with_iteration Z _ m0 l123 m123 mutate_all_123).
Defined.

(** X12, at a concrete list: PushBack of 4 and 5 on 1, 2, 3 with three
    free addresses left. *)
Lemma PushBack_succeeds_with_enough_memory_123 :
  can_allocate (T := Z) 2 m123 /\
  exists l' m' added,
    PushBack_all [4; 5] l123 m123 = Ok (([true; true], l'), m') /\
    is_list m' l' (cells123 ++ added) /\
    addrs added = [280; 288] /\
    iterate l' m' = Ok ([1; 2; 3; 4; 5], m') /\
    Size l' = 5.
Proof.
  split; [exact can_allocate_123_two|].
  exact (PushBack_succeeds_with_enough_memory Z [4; 5] m123 l123 cells123
           is_list_123 can_allocate_123_two).
Defined.


(** X15, at a concrete list: the copy of 1, 2, 3 with three free
    addresses left. *)
Lemma List_copy_is_complete_with_enough_memory_123 :
  can_allocate (T := Z) 3 m123 /\
  exists L2 m1 cs2,
    List_copy l123 m123 = Ok (L2, m1) /\
    Copy l123 List_new m123 = Ok ((true, L2), m1) /\
    is_list m1 l123 cells123 /\
    is_list m1 L2 cs2 /\
    values cs2 = [1; 2; 3] /\
    addrs cs2 = [280; 288; 296] /\
    iterate L2 m1 = Ok ([1; 2; 3], m1) /\
    Size L2 = 3.
Proof.
  split; [exact can_allocate_123|].
  exact (List_copy_is_complete_with_enough_memory Z m123 l123 cells123
           is_list_123 can_allocate_123).
Defined.
